(** * cpp-redis: the buffered socket reader, the HTTP message framer,
      the connection handler and the worker pool

    A shallow embedding of [src/utils/http_reader.hpp] ([HttpReader] and
    [HttpMessage]), of the connection handler of [src/tcp/tcp.hpp], of the
    response builder [Http::create] and of the pooled server
    [MultiThreadedTCPServer], followed by the properties of the
    specification that were checked against them (C1 to C10) and by
    further properties of the same code (X1, X2, ...): what the reader,
    the parser, the handler and the pool do on every input.

    Conventions.
    - [std::string] and [std::vector<char>] are lists of [ascii].
    - A function that can throw returns an [outcome]; [Throw e] is the
      exception, [OutOfFuel] is "the loop was still running when the fuel
      ran out": a computation that is [OutOfFuel] for every fuel never
      stops.  A loop of the source is a [Fixpoint] on a fuel counter
      whose body is one iteration of the source loop.
    - The socket is the list of the results of the successive [read]
      system calls that the peer and the network decide. *)

From Stdlib Require Import Ascii String DecimalString DecimalNat.
From stdpp Require Import base decidable option numbers list gmap.

Local Open Scope nat_scope.

(* ================================================================== *)
(** * Bytes, strings and the exceptions of the source *)
(* ================================================================== *)

Abbreviation bytes := (list ascii).

(** A string literal of the source. *)
Definition lit (s : string) : bytes := list_ascii_of_string s.

Definition CR : ascii := ascii_of_nat 13.
Definition LF : ascii := ascii_of_nat 10.
Definition HT : ascii := ascii_of_nat 9.
Definition SP : ascii := ascii_of_nat 32.
Definition NUL : ascii := ascii_of_nat 0.

(** ["\r\n"] and ["\r\n\r\n"] *)
Definition CRLF : bytes := [CR; LF].
Definition CRLFCRLF : bytes := [CR; LF; CR; LF].

(** The exceptions thrown by the source and by the library calls it
    makes.  [ReadError], [ShortRead], [InvalidChunkSize] and
    [InvalidHttpFormat] are the four [std::runtime_error]s of
    http_reader.hpp; [InvalidArgument] and [OutOfRange] are thrown by
    [std::stoul]; [LengthError] by [std::string::resize] and
    [std::vector::reserve]; [InvalidThreadCount] is the
    [std::runtime_error] of the pooled server's constructor. *)
Inductive exn : Type :=
  | ReadError
  | ShortRead
  | InvalidChunkSize
  | InvalidHttpFormat
  | InvalidArgument
  | OutOfRange
  | LengthError
  | InvalidThreadCount.

Inductive outcome (A : Type) : Type :=
  | Ret (a : A)
  | Throw (e : exn)
  | OutOfFuel.
Arguments Ret {A} a.
Arguments Throw {A} e.
Arguments OutOfFuel {A}.

Global Instance exn_eq_dec : EqDecision exn.
Proof. solve_decision. Defined.

Global Instance outcome_ret : MRet outcome := @Ret.
Global Instance outcome_bind : MBind outcome := fun A B f m =>
  match m with
  | Ret a => f a
  | Throw e => Throw e
  | OutOfFuel => OutOfFuel
  end.

(** [try { m } catch (...) { throw e; }] *)
Definition catch_all {A} (m : outcome A) (e : exn) : outcome A :=
  match m with
  | Ret a => Ret a
  | Throw _ => Throw e
  | OutOfFuel => OutOfFuel
  end.

(** [f] is a fuelled computation whose result, once it is not
    [OutOfFuel], no longer depends on the fuel. *)
Definition fuel_monotone {A} (f : nat → outcome A) : Prop :=
  ∀ n m, n ≤ m → f n ≠ OutOfFuel → f m = f n.

(* ================================================================== *)
(** * Searching in strings *)
(* ================================================================== *)

(** [needle] is a prefix of [hay]. *)
Fixpoint starts_with (needle hay : bytes) : bool :=
  match needle, hay with
  | [], _ => true
  | _ :: _, [] => false
  | a :: needle', b :: hay' => bool_decide (a = b) && starts_with needle' hay'
  end.

(** [std::search(first, last, s_first, s_last)]: the offset from [first]
    of the first occurrence of the needle in the range, [None] for
    [last]. *)
Fixpoint search (hay needle : bytes) {struct hay} : option nat :=
  if starts_with needle hay then Some 0
  else match hay with
       | [] => None
       | _ :: hay' => S <$> search hay' needle
       end.

(** [s.find(needle, pos)]: [None] is [npos]. *)
Definition find (s needle : bytes) (pos : nat) : option nat :=
  if decide (pos ≤ length s) then (λ i, pos + i) <$> search (drop pos s) needle
  else None.

(** [s.substr(pos, count)] for [pos <= s.size()] (the source never calls
    it otherwise). *)
Definition substr (s : bytes) (pos count : nat) : bytes := take count (drop pos s).

(* ================================================================== *)
(** * The socket *)
(* ================================================================== *)

(** What the network delivers: a segment of bytes that becomes readable
    at once, or a failing [read].  After the last event the peer has
    closed its end. *)
Inductive read_event : Type :=
  | Segment (data : bytes)
  | ReadFails.

Abbreviation socket := (list read_event).

(** [read(fd, buf, count)]: [None] is the return value [-1]; otherwise
    the bytes stored at the start of [buf] (their number is the return
    value, [0] at end of stream) and the socket afterwards. *)
Definition sys_read (count : nat) (fd : socket) : option (bytes * socket) :=
  match fd with
  | [] => Some ([], [])
  | ReadFails :: fd' => None
  | Segment data :: fd' =>
      if decide (length data ≤ count) then Some (data, fd')
      else Some (take count data, Segment (drop count data) :: fd')
  end.

(* ================================================================== *)
(** * HttpReader *)
(* ================================================================== *)

Module HttpReader.

Record t : Type := mk {
  fd_ : socket;
  buffer_ : bytes;      (* std::vector<char>, its size never changes *)
  bufflen_ : nat;
  pos_ : nat
}.

Definition DEFAULT_BUFSIZE : nat := 16 * 1024.

(** [HttpReader(fd, buf_size)] *)
Definition new (fd : socket) (buf_size : nat) : t :=
  mk fd (replicate buf_size NUL) 0 0.

Definition set_pos (p : nat) (r : t) : t :=
  mk (fd_ r) (buffer_ r) (bufflen_ r) p.

(** The bytes read from the socket and not yet consumed:
    [buffer_[pos_ .. bufflen_)]. *)
Definition unread (r : t) : bytes :=
  take (bufflen_ r - pos_ r) (drop (pos_ r) (buffer_ r)).

(** [refill_buffer()] *)
Definition refill_buffer (r : t) : outcome t :=
  match sys_read (length (buffer_ r)) (fd_ r) with
  | None => Throw ReadError
  | Some (data, fd') =>
      Ret (mk fd' (data ++ drop (length data) (buffer_ r)) (length data) 0)
  end.

(** The part of [read_until]'s loop body after the refill: scan the
    unread part of the buffer.  [continue_] is the next iteration.
    [std::search] returns the end of the range when the delimiter is
    not in it, which is [None] for [search]; the test
    [it != start + remaining] of the source also fails for an empty
    delimiter found at the end of an empty range, [Some 0] with no
    byte remaining. *)
Definition scan_buffer (delimiter result : bytes) (r : t)
    (continue_ : bytes → t → outcome (bytes * t)) : outcome (bytes * t) :=
  let remaining := bufflen_ r - pos_ r in
  let start := drop (pos_ r) (buffer_ r) in
  let next := continue_ (result ++ take remaining start)
                        (set_pos (length (buffer_ r)) r) in
  match search (take remaining start) delimiter with
  | Some it =>
      if decide (it ≠ remaining) then
        let len := it + length delimiter in
        Ret (result ++ take len start, set_pos (pos_ r + len) r)
      else next
  | None => next
  end.

(** [while (true) { ... }] of [read_until]. *)
Fixpoint read_until_loop (fuel : nat) (delimiter result : bytes) (r : t)
    : outcome (bytes * t) :=
  match fuel with
  | O => OutOfFuel
  | S fuel' =>
      if decide (length (buffer_ r) ≤ pos_ r) then
        r' ← refill_buffer r;
        if decide (bufflen_ r' = 0) then Ret (result, r')
        else scan_buffer delimiter result r' (read_until_loop fuel' delimiter)
      else scan_buffer delimiter result r (read_until_loop fuel' delimiter)
  end.

Definition read_until (fuel : nat) (delimiter : bytes) (r : t)
    : outcome (bytes * t) :=
  read_until_loop fuel delimiter [] r.

(** [std::vector<char>::max_size()] of the 64-bit standard library. *)
Definition vector_max_size : N := 2 ^ 63 - 1.

(** The part of [read_fixed]'s loop body after the refill. *)
Definition copy_buffer (length_ : N) (result : bytes) (r : t)
    (continue_ : bytes → t → outcome (bytes * t)) : outcome (bytes * t) :=
  let remaining := bufflen_ r - pos_ r in
  let needed := (length_ - N.of_nat (length result))%N in
  let to_copy := N.to_nat (N.min (N.of_nat remaining) needed) in
  continue_ (result ++ take to_copy (drop (pos_ r) (buffer_ r)))
            (set_pos (pos_ r + to_copy) r).

(** The code after [read_fixed]'s loop. *)
Definition check_length (length_ : N) (result : bytes) (r : t)
    : outcome (bytes * t) :=
  if decide (N.of_nat (length result) ≠ length_) then Throw ShortRead
  else Ret (result, r).

(** [while (result.size() < length) { ... }] and the check after it. *)
Fixpoint read_fixed_loop (fuel : nat) (length_ : N) (result : bytes) (r : t)
    : outcome (bytes * t) :=
  match fuel with
  | O => OutOfFuel
  | S fuel' =>
      if decide (N.of_nat (length result) < length_)%N then
        if decide (length (buffer_ r) ≤ pos_ r) then
          r' ← refill_buffer r;
          if decide (bufflen_ r' = 0) then check_length length_ result r'
          else copy_buffer length_ result r' (read_fixed_loop fuel' length_)
        else copy_buffer length_ result r (read_fixed_loop fuel' length_)
      else check_length length_ result r
  end.

(** [read_fixed(length)]; [result.reserve(length)] throws
    [std::length_error] above [max_size()].  Below it the reservation
    is taken to succeed: [std::bad_alloc], which [reserve] throws when
    the allocator does not have [length] bytes, is not modelled.  So a
    property of [read_fixed] is a property of the calls whose
    reservation succeeds; where no byte on the socket stands behind
    [length], the properties below are stated of [read_fixed_loop], the
    code that runs once [reserve] has returned. *)
Definition read_fixed (fuel : nat) (length_ : N) (r : t) : outcome (bytes * t) :=
  if decide (vector_max_size < length_)%N then Throw LengthError
  else read_fixed_loop fuel length_ [] r.

(** Either the cursor is inside the bytes of the last refill, or it was
    forced to the end of the buffer.  Under this invariant the [size_t]
    subtraction [bufflen_ - pos_] is only evaluated when
    [pos_ <= bufflen_], so modelling it on [nat] loses nothing. *)
Definition cursor_ok (r : t) : Prop :=
  bufflen_ r ≤ length (buffer_ r) ∧
  (pos_ r ≤ bufflen_ r ∨ pos_ r = length (buffer_ r)).

End HttpReader.

(* ================================================================== *)
(** * Library functions the source calls *)
(* ================================================================== *)

(** [isspace] in the "C" locale. *)
Definition isspace (c : ascii) : bool :=
  let n := nat_of_ascii c in
  bool_decide (n = 32) || (bool_decide (9 ≤ n) && bool_decide (n ≤ 13)).

(** The value of a character as a digit: ['0'-'9'], then letters of
    either case from ten on. *)
Definition digit_value (c : ascii) : option N :=
  let n := N_of_ascii c in
  if (48 <=? n)%N && (n <=? 57)%N then Some (n - 48)%N
  else if (97 <=? n)%N && (n <=? 122)%N then Some (n - 87)%N
  else if (65 <=? n)%N && (n <=? 90)%N then Some (n - 55)%N
  else None.

Definition digit_in_base (base : N) (c : ascii) : option N :=
  match digit_value c with
  | Some d => if (d <? base)%N then Some d else None
  | None => None
  end.

(** The longest run of digits at the start of [s]: its value on top of
    [acc], and the number of characters in it. *)
Fixpoint scan_digits (base : N) (s : bytes) (acc : N) : N * nat :=
  match s with
  | [] => (acc, 0)
  | c :: s' =>
      match digit_in_base base c with
      | Some d =>
          let '(v, k) := scan_digits base s' (acc * base + d)%N in (v, S k)
      | None => (acc, 0)
      end
  end.

Definition ULONG_MAX : N := 2 ^ 64 - 1.

(** An optional sign: is it a minus, and the rest. *)
Definition strip_sign (s : bytes) : bool * bytes :=
  match s with
  | c :: s' =>
      if decide (c = "-"%char) then (true, s')
      else if decide (c = "+"%char) then (false, s')
      else (false, s)
  | [] => (false, s)
  end.

(** An optional ["0x"] or ["0X"] in base 16; it is part of the number
    only when a hexadecimal digit follows. *)
Definition strip_0x (base : N) (s : bytes) : bytes :=
  match s with
  | z :: x :: h :: _ =>
      if bool_decide (base = 16%N) && bool_decide (z = "0"%char)
         && (bool_decide (x = "x"%char) || bool_decide (x = "X"%char))
         && bool_decide (is_Some (digit_in_base 16 h))
      then drop 2 s else s
  | _ => s
  end.

(** Leading white space is skipped. *)
Fixpoint skip_spaces (s : bytes) : bytes :=
  match s with
  | c :: s' => if isspace c then skip_spaces s' else s
  | [] => []
  end.

(** [std::stoul(str, nullptr, base)] for a 64-bit [unsigned long], as the
    C++ standard defines it through [strtoul]: white space is skipped,
    then an optional sign and (in base 16) an optional ["0x"], then the
    longest run of digits is converted and whatever follows is ignored.
    No digit at all throws [std::invalid_argument]; a value above
    [ULONG_MAX] throws [std::out_of_range]; a minus sign negates the
    value modulo [2^64]. *)
Definition stoul (str : bytes) (base : N) : outcome N :=
  let '(negative, s) := strip_sign (skip_spaces str) in
  let '(v, k) := scan_digits base (strip_0x base s) 0 in
  if decide (k = 0) then Throw InvalidArgument
  else if decide (ULONG_MAX < v)%N then Throw OutOfRange
  else Ret (if negative then ((2 ^ 64 - v) mod 2 ^ 64)%N else v).

(** A hexadecimal digit, and the value of a run of them. *)
Definition is_hex (c : ascii) : Prop := is_Some (digit_in_base 16 c).

Definition hex_value (digits : bytes) : N :=
  foldl (λ acc c, acc * 16 + default 0 (digit_in_base 16 c))%N 0%N digits.

(** [std::to_string] of a [size_t]. *)
Definition to_string (n : nat) : bytes :=
  lit (NilEmpty.string_of_uint (Nat.to_uint n)).

(** [std::to_string] of an [int]. *)
Definition to_string_int (z : Z) : bytes :=
  lit (NilEmpty.string_of_int (Z.to_int z)).

(** [std::tolower] in the "C" locale. *)
Definition tolower (c : ascii) : ascii :=
  let n := nat_of_ascii c in
  if decide (65 ≤ n ∧ n ≤ 90) then ascii_of_nat (n + 32) else c.

(** [s.find_first_not_of(set)]: [None] is [npos]. *)
Fixpoint find_first_not_of (s set : bytes) : option nat :=
  match s with
  | [] => None
  | c :: s' =>
      if bool_decide (c ∈ set) then S <$> find_first_not_of s' set else Some 0
  end.

(** [s.find_last_not_of(set)]: [None] is [npos]. *)
Definition find_last_not_of (s set : bytes) : option nat :=
  (λ i, length s - 1 - i) <$> find_first_not_of (rev s) set.

(* ================================================================== *)
(** * read_chunked *)
(* ================================================================== *)

Module Chunked.
Import HttpReader.

(** [line.resize(line.size() - 2)]: the subtraction is on [size_t], so a
    line shorter than two characters asks for a size above
    [max_size()] and [resize] throws [std::length_error]. *)
Definition resize_minus_2 (line : bytes) : outcome bytes :=
  if decide (length line < 2) then Throw LengthError
  else Ret (take (length line - 2) line).

(** [while (true) { ... }] of [read_chunked]. *)
Fixpoint read_chunked_loop (fuel : nat) (body : bytes) (r : t)
    : outcome (bytes * t) :=
  match fuel with
  | O => OutOfFuel
  | S fuel' =>
      '(line, r) ← read_until fuel CRLF r;
      line ← resize_minus_2 line;
      chunk_size ← catch_all (stoul line 16) InvalidChunkSize;
      if decide (chunk_size = 0%N) then
        '(_, r) ← read_until fuel CRLF r;
        Ret (body, r)
      else
        '(chunk, r) ← read_fixed fuel chunk_size r;
        '(_, r) ← read_until fuel CRLF r;
        read_chunked_loop fuel' (body ++ chunk) r
  end.

Definition read_chunked (fuel : nat) (r : t) : outcome (bytes * t) :=
  read_chunked_loop fuel [] r.

End Chunked.

(* ================================================================== *)
(** * HttpMessage *)
(* ================================================================== *)

Module HttpMessage.
Import HttpReader Chunked.

Record t : Type := mk {
  start_line : bytes;
  headers : gmap bytes bytes;
  body : bytes
}.

(** [parse_start_line(data, msg)]: the value stored in [msg.start_line]. *)
Definition parse_start_line (data : bytes) : outcome bytes :=
  match find data CRLF 0 with
  | None => Throw InvalidHttpFormat
  | Some end_ => Ret (substr data 0 end_)
  end.

(** [key.erase(key.find_last_not_of(" \t") + 1)]; [npos + 1] is [0]. *)
Definition erase_after_last_not_of (key set : bytes) : bytes :=
  match find_last_not_of key set with
  | Some i => take (i + 1) key
  | None => []
  end.

(** [value.erase(0, value.find_first_not_of(" \t"))]; a count of [npos]
    erases to the end. *)
Definition erase_before_first_not_of (value set : bytes) : bytes :=
  match find_first_not_of value set with
  | Some i => drop i value
  | None => []
  end.

(** The key and the value that one header line stores, given the
    position of its first colon. *)
Definition header_field (line : bytes) (colon : nat) : bytes * bytes :=
  let key := substr line 0 colon in
  let value := drop (colon + 1) line in
  let key := tolower <$> key in
  let key := erase_after_last_not_of key [SP; HT] in
  let value := erase_before_first_not_of value [SP; HT] in
  (key, value).

(** [while (start < data.size()) { ... }] of [parse_headers]. *)
Fixpoint parse_headers_loop (fuel : nat) (data : bytes) (start : nat)
    (headers : gmap bytes bytes) : outcome (gmap bytes bytes) :=
  match fuel with
  | O => OutOfFuel
  | S fuel' =>
      if decide (start < length data) then
        match find data CRLF start with
        | None => Ret headers
        | Some end_ =>
            let line := substr data start (end_ - start) in
            if decide (line = []) then Ret headers
            else
              match find line [":"%char] 0 with
              | None => parse_headers_loop fuel' data start headers
              | Some colon =>
                  let '(key, value) := header_field line colon in
                  parse_headers_loop fuel' data (end_ + 2)
                    (<[key := value]> headers)
              end
        end
      else Ret headers
  end.

(** [parse_headers(data, msg)]: the map left in [msg.headers].  When
    [find] returns [npos] the [size_t] sum [npos + 2] is [1]. *)
Definition parse_headers (fuel : nat) (data : bytes)
    (headers : gmap bytes bytes) : outcome (gmap bytes bytes) :=
  let start := match find data CRLF 0 with Some i => i + 2 | None => 1 end in
  parse_headers_loop fuel data start headers.

(** [HttpMessage::parse(fd)] *)
Definition parse (fuel : nat) (fd : socket) : outcome t :=
  let reader := HttpReader.new fd DEFAULT_BUFSIZE in
  '(headers_str, reader) ← read_until fuel CRLFCRLF reader;
  start_line ← parse_start_line headers_str;
  headers ← parse_headers fuel headers_str ∅;
  if decide (is_Some (headers !! lit "transfer-encoding")) then
    if decide (headers !! lit "transfer-encoding" = Some (lit "chunked")) then
      '(body, _) ← read_chunked fuel reader;
      Ret (mk start_line headers body)
    else Ret (mk start_line headers [])
  else if decide (is_Some (headers !! lit "content-length")) then
    len ← stoul (default [] (headers !! lit "content-length")) 10;
    '(body, _) ← read_fixed fuel len reader;
    Ret (mk start_line headers body)
  else Ret (mk start_line headers []).

End HttpMessage.

(* ================================================================== *)
(** * Http::create *)
(* ================================================================== *)

Module Http.

(** [get_status_message(status_code)] *)
Definition get_status_message (status_code : Z) : bytes :=
  if decide (status_code = 200%Z) then lit "OK"
  else if decide (status_code = 400%Z) then lit "Bad Request"
  else if decide (status_code = 404%Z) then lit "Not Found"
  else if decide (status_code = 500%Z) then lit "Internal Server Error"
  else lit "Unknown".

(** [Http::create(status_code, content, content_type, headers)]; the
    [std::map] of extra headers is given as the list of its entries in
    the order in which the range-[for] visits them. *)
Definition create (status_code : Z) (content content_type : bytes)
    (headers : list (bytes * bytes)) : bytes :=
  let response := [] in
  let response := response ++ (lit "HTTP/1.1 " ++ to_string_int status_code
                    ++ lit " " ++ get_status_message status_code ++ CRLF) in
  let response := response ++ (lit "Content-Type: " ++ content_type ++ CRLF) in
  let response := response ++ (lit "Content-Length: "
                    ++ to_string (length content) ++ CRLF) in
  let response := response ++ (lit "Connection: close" ++ CRLF) in
  let response :=
    foldl (λ response '(key, value), response ++ (key ++ lit ": " ++ value ++ CRLF))
          response headers in
  let response := response ++ CRLF in
  let response := response ++ content in
  response.

(** The default of the [content_type] parameter. *)
Definition default_content_type : bytes := lit "text/plain".

End Http.

(* ================================================================== *)
(** * TCPServer: send_all and handle_connection *)
(* ================================================================== *)

Module TCPServer.

(** What the peer does with one [send] call: it takes at most [n] bytes
    ([Accepts 0] is a [send] that returns [0]), or the call fails.  A
    peer with no event left takes all it is given. *)
Inductive send_event : Type :=
  | Accepts (n : nat)
  | SendFails.

(** [send_all(socket, data, length)], [data] being the bytes not sent
    yet ([data + total_sent], of length [length - total_sent]) and
    [wire] the bytes the peer has taken so far.  Returns the [bool] of
    the source, the peer afterwards and the bytes on the wire. *)
Fixpoint send_all (peer : list send_event) (data wire : bytes)
    : bool * list send_event * bytes :=
  match data with
  | [] => (true, peer, wire)
  | _ :: _ =>
      match peer with
      | [] => (true, [], wire ++ data)
      | SendFails :: peer' => (false, peer', wire)
      | Accepts n :: peer' =>
          if decide (n = 0) then (false, peer', wire)
          else send_all peer' (drop n data) (wire ++ take n data)
      end
  end.

(** The header block of the echo response. *)
Definition echo_headers (body_to_send : bytes) : bytes :=
  lit "HTTP/1.1 200 OK" ++ CRLF ++
  lit "Content-Type: text/plain" ++ CRLF ++
  lit "Content-Length: " ++ to_string (length body_to_send) ++ CRLF ++
  lit "Connection: close" ++ CRLF ++ CRLF.

(** The [error_response] literal of the two [catch] blocks. *)
Definition error_response : bytes :=
  lit "HTTP/1.1 500 Internal Server Error" ++ CRLF ++
  lit "Content-Length: 0" ++ CRLF ++
  lit "Connection: close" ++ CRLF ++ CRLF.

(** [handle_connection(client_fd)]: [inbound] is what the client sends,
    [peer] how it takes what is sent to it; the result is the bytes
    written to the client. *)
Definition handle_connection (fuel : nat) (inbound : socket)
    (peer : list send_event) : outcome bytes :=
  match HttpMessage.parse fuel inbound with
  | Ret request =>
      let body_to_send := HttpMessage.body request in
      let headers := echo_headers body_to_send in
      let '(sent, peer, wire) := send_all peer headers [] in
      if sent then
        let '(_, _, wire) := send_all peer body_to_send wire in Ret wire
      else Ret wire
  | Throw _ =>
      let '(_, _, wire) := send_all peer error_response [] in Ret wire
  | OutOfFuel => OutOfFuel
  end.

End TCPServer.

(* ================================================================== *)
(** * MultiThreadedTCPServer: constructor and worker pool *)
(* ================================================================== *)

Module MultiThreadedTCPServer.

(** An accepted connection.  Descriptor numbers are reused by the
    kernel, so a connection is named by its rank among the accepted
    ones. *)
Abbreviation conn := nat.

(** Where a worker thread is in [worker_thread()]. *)
Inductive worker_state : Type :=
  | Waiting                (* in [condition.wait], or about to enter it *)
  | Handling (c : conn)    (* past the critical section, holding [client_fd] *)
  | Exited.                (* returned from [worker_thread()] *)

Global Instance worker_state_eq_dec : EqDecision worker_state.
Proof. solve_decision. Defined.

(** The fields of the server that the pool uses, and three records of
    what has happened: [handled] (worker, connection) for each call of
    [handle_connection] by a worker, [unprocessed] for the descriptors
    that [stop()] found in the queue and closed, and [stopping] which
    holds while a [stop()] call is between its [exchange(true)] and its
    return. *)
Record t : Type := mk {
  port : Z;
  server_fd : Z;
  num_threads : N;
  workers : list worker_state;
  client_queue : list conn;
  stop_requested : bool;
  stopping : bool;
  handled : list (nat * conn);
  unprocessed : list conn
}.

(** [MultiThreadedTCPServer(port, threads)] *)
Definition new (port : Z) (threads : N) : outcome t :=
  let num_threads := if decide (0 < threads)%N then threads else 4%N in
  if decide (num_threads = 0%N) then Throw InvalidThreadCount
  else Ret (mk port (-1) num_threads [] [] false false [] []).

(** [start()], the listening socket having been set up. *)
Definition start (listen_fd : Z) (s : t) : t :=
  if decide (workers s = []) then
    mk (port s) listen_fd (num_threads s)
       (replicate (N.to_nat (num_threads s)) Waiting)
       (client_queue s) false (stopping s) (handled s) (unprocessed s)
  else s.

(** The steps of the threads.  Each is one critical section on
    [queue_mutex], or code that touches no shared field.  [Wake i] can
    be taken as soon as the predicate of [condition.wait] holds;
    whether worker [i] does wake up is left to the run.  A worker that
    sleeps on because no notification reaches it is a run without
    [Wake i], so what holds of every run of these steps holds of every
    run of the source.  The notifications themselves are followed in
    [ConditionWait] below. *)
Inductive label : Type :=
  | Push (c : conn)     (* [run()]: [client_queue.push(client_fd)], also for
                           a connection accepted before a stop request *)
  | Wake (i : nat)      (* worker [i]: from [condition.wait] to the end of
                           the critical section *)
  | Finish (i : nat)    (* worker [i]: [handle_connection], [close_socket] *)
  | StopBegin           (* [stop()]: [exchange(true)], [notify_all] *)
  | StopJoin.           (* [stop()]: the joins are over; [workers.clear()],
                           the queue is emptied, [stop()] returns *)

Definition set_worker (i : nat) (w : worker_state) (s : t) : t :=
  mk (port s) (server_fd s) (num_threads s) (<[i := w]> (workers s))
     (client_queue s) (stop_requested s) (stopping s) (handled s)
     (unprocessed s).

(** [while (!client_queue.empty()) { fd = front(); pop(); close_socket(fd); }]
    at the end of [stop()]: the queue afterwards and the descriptors
    closed, in order. *)
Fixpoint drain_queue (queue closed : list conn) : list conn * list conn :=
  match queue with
  | [] => ([], closed)
  | fd :: queue' => drain_queue queue' (closed ++ [fd])
  end.

(** One step; [None] when the step cannot be taken in that state. *)
Definition step (l : label) (s : t) : option t :=
  match l with
  | Push c =>
      Some (mk (port s) (server_fd s) (num_threads s) (workers s)
               (client_queue s ++ [c]) (stop_requested s) (stopping s)
               (handled s) (unprocessed s))
  | Wake i =>
      match workers s !! i with
      | Some Waiting =>
          (* the predicate of [condition.wait] *)
          if bool_decide (client_queue s ≠ []) || stop_requested s then
            if stop_requested s && bool_decide (client_queue s = []) then
              Some (set_worker i Exited s)
            else
              match client_queue s with
              | client_fd :: queue' =>
                  Some (mk (port s) (server_fd s) (num_threads s)
                           (<[i := Handling client_fd]> (workers s))
                           queue' (stop_requested s) (stopping s)
                           (handled s) (unprocessed s))
              | [] => Some s       (* [continue] *)
              end
          else None
      | _ => None
      end
  | Finish i =>
      match workers s !! i with
      | Some (Handling client_fd) =>
          Some (mk (port s) (server_fd s) (num_threads s)
                   (<[i := Waiting]> (workers s))
                   (client_queue s) (stop_requested s) (stopping s)
                   (handled s ++ [(i, client_fd)]) (unprocessed s))
      | _ => None
      end
  | StopBegin =>
      if stop_requested s then Some s      (* "Stop already requested." *)
      else
        Some (mk (port s) (server_fd s) (num_threads s) (workers s)
                 (client_queue s) true true (handled s) (unprocessed s))
  | StopJoin =>
      if stopping s && bool_decide (Forall (λ w, w = Exited) (workers s)) then
        let '(queue, closed) := drain_queue (client_queue s) (unprocessed s) in
        Some (mk (port s) (server_fd s) (num_threads s) []
                 queue (stop_requested s) false (handled s) closed)
      else None
  end.

(** A run of the threads: the steps of an interleaving, in order. *)
Fixpoint exec (trace : list label) (s : t) : option t :=
  match trace with
  | [] => Some s
  | l :: trace' =>
      match step l s with
      | Some s' => exec trace' s'
      | None => None
      end
  end.

(** The connections submitted in a run. *)
Definition submitted (trace : list label) : list conn :=
  omap (λ l, match l with Push c => Some c | _ => None end) trace.

(** The connection that a worker holds. *)
Definition holding (w : worker_state) : option conn :=
  match w with
  | Handling c => Some c
  | _ => None
  end.

(** The connections that workers are handling. *)
Definition in_flight (s : t) : list conn := omap holding (workers s).

(** Every connection the server knows of: queued, being handled,
    handled, or closed unprocessed by [stop()]. *)
Definition accounted (s : t) : list conn :=
  client_queue s ++ in_flight s ++ (snd <$> handled s) ++ unprocessed s.

(** How many times a connection has been handled, over all workers. *)
Definition times_handled (c : conn) (s : t) : nat :=
  length (filter (λ e, e.2 = c) (handled s)).

End MultiThreadedTCPServer.

(* ================================================================== *)
(** * The wire formats as the specification words them *)
(* ================================================================== *)

(** The specification's response format,
    [HTTP/1.1 <status> <reason>\r\nContent-Type: text/plain\r\n
     Content-Length: <n>\r\nConnection: close\r\n\r\n<body>],
    [status_line] standing for [<status> <reason>]. *)
Definition spec_response (status_line n body : bytes) : bytes :=
  lit "HTTP/1.1 " ++ status_line ++ CRLF ++
  lit "Content-Type: text/plain" ++ CRLF ++
  lit "Content-Length: " ++ n ++ CRLF ++
  lit "Connection: close" ++ CRLF ++ CRLF ++ body.

(** A hexadecimal digit. *)
Definition hex_digit (d : N) : ascii :=
  if (d <? 10)%N then ascii_of_N (48 + d) else ascii_of_N (87 + d).

(** The digits of [n] in base 16 on top of [acc], most significant
    first; [fuel] bounds their number. *)
Fixpoint to_hex_aux (fuel : nat) (n : N) (acc : bytes) : bytes :=
  match fuel with
  | O => acc
  | S fuel' =>
      let acc := hex_digit (n mod 16) :: acc in
      if (n <? 16)%N then acc else to_hex_aux fuel' (n / 16) acc
  end.

(** [<hex-size>] of the specification's chunk format. *)
Definition spec_hex_size (n : nat) : bytes :=
  to_hex_aux (S n) (N.of_nat n) [].

(** The specification's chunked encoding of a body cut into [chunks]:
    ["<hex-size>\r\n<data>\r\n"] for each chunk, then ["0\r\n\r\n"].
    The repository has no encoder; this is the sender's side as the
    specification describes it. *)
Definition spec_encode_chunk (data : bytes) : bytes :=
  spec_hex_size (length data) ++ CRLF ++ data ++ CRLF.

Definition spec_encode_chunked (chunks : list bytes) : bytes :=
  concat (spec_encode_chunk <$> chunks) ++ lit "0" ++ CRLF ++ CRLF.

(** The body strategy as the specification words it: chunked when a
    [transfer-encoding] header equals [chunked], else fixed-length when
    a [content-length] header is present, else empty. *)
Definition spec_select_body (fuel : nat) (headers : gmap bytes bytes)
    (reader : HttpReader.t) : outcome bytes :=
  if decide (headers !! lit "transfer-encoding" = Some (lit "chunked")) then
    '(body, _) ← Chunked.read_chunked fuel reader; Ret body
  else
    match headers !! lit "content-length" with
    | Some v =>
        len ← stoul v 10;
        '(body, _) ← HttpReader.read_fixed fuel len reader; Ret body
    | None => Ret []
    end.

(** Horizontal white space removed at the start, at the end and at both
    ends of a string. *)
Fixpoint strip_leading (s : bytes) : bytes :=
  match s with
  | c :: s' => if bool_decide (c ∈ [SP; HT]) then strip_leading s' else s
  | [] => []
  end.

Definition strip_trailing (s : bytes) : bytes := rev (strip_leading (rev s)).

Definition strip_both (s : bytes) : bytes := strip_trailing (strip_leading s).

(** The header block made of a start line and of [key:value] lines. *)
Definition header_line (kv : bytes * bytes) : bytes :=
  kv.1 ++ lit ":" ++ kv.2 ++ CRLF.

Definition header_block (start_line : bytes) (fields : list (bytes * bytes))
    : bytes :=
  start_line ++ CRLF ++ concat (header_line <$> fields) ++ CRLF.

(** A [key:value] line: no colon in the key, no line feed anywhere. *)
Definition plain_field (kv : bytes * bytes) : Prop :=
  (":"%char ∉ kv.1) ∧ (LF ∉ kv.1) ∧ (LF ∉ kv.2).

(** What [parse_headers] does store for one [key:value] line: the key
    in lower case without its trailing white space, the value without
    its leading white space. *)
Definition stored (kv : bytes * bytes) : bytes * bytes :=
  (strip_trailing (tolower <$> kv.1), strip_leading kv.2).

(* ================================================================== *)
(** * Streams, stored headers and pool states *)
(* ================================================================== *)

(** The bytes that the socket still delivers before a [read] fails. *)
Fixpoint socket_bytes (fd : socket) : bytes :=
  match fd with
  | [] => []
  | Segment data :: fd' => data ++ socket_bytes fd'
  | ReadFails :: _ => []
  end.

(** The bytes that a reader has still to give: the unread part of its
    buffer, then what the socket delivers. *)
Definition pending (r : HttpReader.t) : bytes :=
  HttpReader.unread r ++ socket_bytes (HttpReader.fd_ r).


(** A header as [parse_headers] stores it: the key has no upper-case
    letter and no colon and does not end with a space or a tab, the
    value does not start with one. *)
Definition normal_field (key value : bytes) : Prop :=
  (∀ c, c ∈ key → tolower c = c) ∧
  (":"%char ∉ key) ∧
  (∀ c, last key = Some c → c ∉ [SP; HT]) ∧
  (∀ c, head value = Some c → c ∉ [SP; HT]).

(** The headers that [parse_headers] stores for a list of [key:value]
    lines: the fields as [stored] gives them, a later line replacing an
    earlier one of the same stored key. *)
Definition stored_fields (fields : list (bytes * bytes)) : gmap bytes bytes :=
  foldl (λ m kv, <[(stored kv).1 := (stored kv).2]> m) ∅ fields.

(** A header block that the end of the stream cuts before its blank
    line. *)
Definition cut_header_block (start_line : bytes) (fields : list (bytes * bytes))
    : bytes :=
  start_line ++ CRLF ++ concat (header_line <$> fields).

(** A character that [std::to_string] writes for an unsigned number. *)
Definition is_decimal (c : ascii) : Prop :=
  ∃ d, digit_in_base 10 c = Some d.

(** The header lines that [Http::create] writes, as [key:value]
    fields: the value of each begins with the space that follows the
    colon. *)
Definition response_fields (content_type : bytes) (n : nat)
    (headers : list (bytes * bytes)) : list (bytes * bytes) :=
  [(lit "Content-Type", SP :: content_type);
   (lit "Content-Length", SP :: to_string n);
   (lit "Connection", lit " close")]
  ++ ((λ kv, (kv.1, SP :: kv.2)) <$> headers).

(** An extra header that [Http::create] can be given without changing
    how the response is framed. *)
Definition extra_header (kv : bytes * bytes) : Prop :=
  plain_field kv ∧
  (stored kv).1 ≠ lit "content-length" ∧
  (stored kv).1 ≠ lit "transfer-encoding".

Global Instance label_eq_dec : EqDecision MultiThreadedTCPServer.label.
Proof. solve_decision. Defined.

Section PoolStates.
Import MultiThreadedTCPServer.

(** Before [stop()] is called no worker exits and nothing is closed
    unprocessed. *)
Definition running (s : t) : Prop :=
  stop_requested s = false ∧ stopping s = false ∧ unprocessed s = [] ∧
  workers s ≠ [] ∧ Forall (λ w, w ≠ Exited) (workers s).

(** While [stop()] waits for the workers: once a worker has exited, the
    queue holds no connection of [early]. *)
Definition draining (early : list conn) (s : t) : Prop :=
  stop_requested s = true ∧
  (stopping s = true →
     unprocessed s = [] ∧ workers s ≠ [] ∧
     (Exists (λ w, w = Exited) (workers s) →
        ∀ c, c ∈ client_queue s → c ∉ early)).

End PoolStates.

(** [condition.wait], [notify_one] and [notify_all].  The pool once
    more, with the steps of [condition.wait(lock, pred)] apart:
    [stop()] writes [stop_requested] and calls [notify_all()] without
    holding [queue_mutex], so both can fall between the moment a worker
    finds the predicate false and the moment it sleeps. *)
Module ConditionWait.

Abbreviation conn := nat.

(** Where a worker thread is in [worker_thread()], to the grain of
    [condition.wait(lock, pred)], which is [while (!pred()) wait(lock);]. *)
Inductive worker_state : Type :=
  | Ready                  (* about to lock [queue_mutex]: at the top of the
                              loop, or woken up inside [wait(lock)] *)
  | Checked                (* holds [queue_mutex], has found the predicate
                              false and is about to call [wait(lock)] *)
  | Blocked                (* inside [wait(lock)]: [queue_mutex] is released,
                              the thread sleeps until it is notified *)
  | Handling (c : conn)    (* past the critical section, holding [client_fd] *)
  | Exited.                (* returned from [worker_thread()] *)

Global Instance wait_state_eq_dec : EqDecision worker_state.
Proof. solve_decision. Defined.

(** Where the thread that called [stop()] first is. *)
Inductive stop_state : Type :=
  | NotCalled
  | Flagged                (* after [stop_requested.exchange(true)] *)
  | Joining                (* after [condition.notify_all()], in the joins *)
  | Returned.

Global Instance stop_state_eq_dec : EqDecision stop_state.
Proof. solve_decision. Defined.

Record t : Type := mk {
  workers : list worker_state;
  client_queue : list conn;
  stop_requested : bool;
  stop_thread : stop_state;
  handled : list (nat * conn);
  unprocessed : list conn
}.

(** [start()]: [num_threads] workers at the top of their loop. *)
Definition start (num_threads : N) : t :=
  mk (replicate (N.to_nat num_threads) Ready) [] false NotCalled [] [].

(** Between two steps [queue_mutex] is held by a worker that is
    [Checked], and by no other thread. *)
Definition mutex_free (s : t) : bool := bool_decide (Checked ∉ workers s).

Inductive label : Type :=
  | Push (c : conn)      (* [run()]: the block that locks [queue_mutex] and
                            pushes [client_fd] *)
  | NotifyOne (i : nat)  (* [run()]: [condition.notify_one()], which wakes
                            worker [i] *)
  | Spurious (i : nat)   (* worker [i] wakes up without a notification, as
                            the C++ standard allows *)
  | Check (i : nat)      (* worker [i]: locks [queue_mutex] and evaluates the
                            predicate; when it holds, goes on to the end of
                            the critical section *)
  | Block (i : nat)      (* worker [i]: [wait(lock)] *)
  | Finish (i : nat)     (* worker [i]: [handle_connection], [close_socket] *)
  | StopSet              (* [stop()]: [stop_requested.exchange(true)] *)
  | StopNotify           (* [stop()]: [condition.notify_all()] *)
  | StopJoin.            (* [stop()]: the joins are over; [workers.clear()],
                            the queue is emptied, [stop()] returns *)

Global Instance wait_label_eq_dec : EqDecision label.
Proof. solve_decision. Defined.

Definition set_worker (i : nat) (w : worker_state) (s : t) : t :=
  mk (<[i := w]> (workers s)) (client_queue s) (stop_requested s)
     (stop_thread s) (handled s) (unprocessed s).

(** [notify_all()]: every thread that sleeps in [wait(lock)] is woken
    up; a thread that is not yet in [wait(lock)] is not concerned. *)
Definition wake (w : worker_state) : worker_state :=
  match w with
  | Blocked => Ready
  | _ => w
  end.

(** One step; [None] when the step cannot be taken in that state. *)
Definition step (l : label) (s : t) : option t :=
  match l with
  | Push c =>
      if mutex_free s then
        Some (mk (workers s) (client_queue s ++ [c]) (stop_requested s)
                 (stop_thread s) (handled s) (unprocessed s))
      else None
  | NotifyOne i | Spurious i =>
      match workers s !! i with
      | Some Blocked => Some (set_worker i Ready s)
      | _ => None
      end
  | Check i =>
      match workers s !! i with
      | Some Ready =>
          if mutex_free s then
            (* the predicate of [condition.wait] *)
            if bool_decide (client_queue s ≠ []) || stop_requested s then
              if stop_requested s && bool_decide (client_queue s = []) then
                Some (set_worker i Exited s)
              else
                match client_queue s with
                | client_fd :: queue' =>
                    Some (mk (<[i := Handling client_fd]> (workers s))
                             queue' (stop_requested s) (stop_thread s)
                             (handled s) (unprocessed s))
                | [] => Some s       (* [continue] *)
                end
            else Some (set_worker i Checked s)
          else None
      | _ => None
      end
  | Block i =>
      match workers s !! i with
      | Some Checked => Some (set_worker i Blocked s)
      | _ => None
      end
  | Finish i =>
      match workers s !! i with
      | Some (Handling client_fd) =>
          Some (mk (<[i := Ready]> (workers s)) (client_queue s)
                   (stop_requested s) (stop_thread s)
                   (handled s ++ [(i, client_fd)]) (unprocessed s))
      | _ => None
      end
  | StopSet =>
      if stop_requested s then Some s      (* "Stop already requested." *)
      else
        Some (mk (workers s) (client_queue s) true Flagged
                 (handled s) (unprocessed s))
  | StopNotify =>
      if decide (stop_thread s = Flagged) then
        Some (mk (wake <$> workers s) (client_queue s) (stop_requested s)
                 Joining (handled s) (unprocessed s))
      else None
  | StopJoin =>
      if bool_decide (stop_thread s = Joining)
         && bool_decide (Forall (λ w, w = Exited) (workers s)) then
        let '(queue, closed) :=
          MultiThreadedTCPServer.drain_queue (client_queue s) (unprocessed s) in
        Some (mk [] queue (stop_requested s) Returned (handled s) closed)
      else None
  end.

(** A run of the threads: the steps of an interleaving, in order. *)
Fixpoint exec (trace : list label) (s : t) : option t :=
  match trace with
  | [] => Some s
  | l :: trace' =>
      match step l s with
      | Some s' => exec trace' s'
      | None => None
      end
  end.

(** Worker [i] has not seen the stop flag and [notify_all()] is over:
    the worker is about to sleep, or sleeps, and [stop()] is in its
    joins. *)
Definition missed (i : nat) (s : t) : Prop :=
  (workers s !! i = Some Checked ∨ workers s !! i = Some Blocked) ∧
  stop_requested s = true ∧ stop_thread s = Joining.

End ConditionWait.

(* ================================================================== *)
(** * Requests and streams used as examples *)
(* ================================================================== *)

Module PartialBody.
Import HttpReader.

(** The header block of a request that announces five body bytes. *)
Definition head : bytes :=
  lit "POST / HTTP/1.1" ++ CRLF ++ lit "Content-Length: 5" ++ CRLF ++ CRLF.

(** The reader once [read_until("\r\n\r\n")] has taken [head] out of a
    first segment that held nothing else. *)
Definition after_head (rest : socket) : t :=
  mk rest (head ++ replicate (DEFAULT_BUFSIZE - length head) NUL)
     (length head) (length head).

End PartialBody.

Module EchoRequest.

(** Scenario 2 of the specification: a body announced by
    [Content-Length]. *)
Definition request : bytes :=
  lit "POST / HTTP/1.1" ++ CRLF ++ lit "Content-Length: 11" ++ CRLF ++ CRLF
  ++ lit "hello world".

Definition message : HttpMessage.t :=
  HttpMessage.mk (lit "POST / HTTP/1.1")
    {[ lit "content-length" := lit "11" ]} (lit "hello world").

End EchoRequest.

Module EncodingAndLength.
Import HttpReader.

(** A request with a [Transfer-Encoding] other than [chunked] and a
    [Content-Length], followed by five body bytes. *)
Definition head : bytes :=
  lit "POST / HTTP/1.1" ++ CRLF ++ lit "Transfer-Encoding: gzip" ++ CRLF ++
  lit "Content-Length: 5" ++ CRLF ++ CRLF.
Definition request : bytes := head ++ lit "hello".

Definition headers : gmap bytes bytes :=
  <[lit "content-length" := lit "5"]>
    (<[lit "transfer-encoding" := lit "gzip"]> ∅).

(** The reader once the header block has been read. *)
Definition after_head : t :=
  mk [] (request ++ replicate (DEFAULT_BUFSIZE - length request) NUL)
     (length request) (length head).

End EncodingAndLength.

Module ColonlessLine.
Import HttpReader.

(** A request whose only header line has no colon. *)
Definition request : bytes :=
  lit "GET / HTTP/1.1" ++ CRLF ++ lit "Host" ++ CRLF ++ CRLF.

Definition after_request : t :=
  mk [] (request ++ replicate (DEFAULT_BUFSIZE - length request) NUL)
     (length request) (length request).

End ColonlessLine.

Module SplitDelimiter.
Import HttpReader.

(** The stream ["a\r\nb\r\n"], delivered as ["a\r"] then ["\nb\r\n"]. *)
Definition stream : bytes := lit "a" ++ CRLF ++ lit "b" ++ CRLF.
Definition first_refill : bytes := lit "a" ++ [CR].
Definition second_refill : bytes := [LF] ++ lit "b" ++ CRLF.
Definition fd : socket := [Segment first_refill; Segment second_refill].

Definition after_read : t :=
  mk [] (second_refill ++ replicate (DEFAULT_BUFSIZE - length second_refill) NUL)
     (length second_refill) (length second_refill).

End SplitDelimiter.

Module PoolRun.
Import MultiThreadedTCPServer.

(** Two workers, two connections, then [stop()]. *)
Definition server : t := mk 8080 (-1) 2 [] [] false false [] [].

Definition trace : list label :=
  [Push 1; Push 2; Wake 0; Wake 1; Finish 1; Finish 0;
   StopBegin; Wake 0; Wake 1; StopJoin].

(** The state at the end of the run. *)
Definition final : t := mk 8080 3 2 [] [] true false [(1, 2); (0, 1)] [].

End PoolRun.

Module ChunkExtension.

(** A chunked body whose size line carries a chunk extension. *)
Definition stream : bytes :=
  lit "4;name=val" ++ CRLF ++ lit "Wiki" ++ CRLF ++ lit "0" ++ CRLF ++ CRLF.

(** A reader with a 32-byte buffer once it has read the size line. *)
Definition after_size_line : HttpReader.t :=
  HttpReader.mk [] (stream ++ replicate (32 - length stream) NUL)
    (length stream) 12.

End ChunkExtension.

Module ChunkedSplit.

(** The body ["ab"] sent as one chunk. *)
Definition body : bytes := lit "ab".
Definition encoded : bytes := spec_encode_chunked [body].

(** The encoded stream cut inside the chunk data, and cut inside the
    CRLF that ends the chunk. *)
Definition cut_in_data : socket :=
  [Segment (take 4 encoded); Segment (drop 4 encoded)].
Definition cut_in_crlf : socket :=
  [Segment (take 6 encoded); Segment (drop 6 encoded)].

Definition after_size_line : HttpReader.t :=
  HttpReader.mk [Segment (drop 4 encoded)]
    (take 4 encoded ++ replicate (HttpReader.DEFAULT_BUFSIZE - 4) NUL) 4 3.

End ChunkedSplit.

Module StreamExample.
Import HttpReader.

(** A reader with a buffer of three bytes, all filled by the last
    refill and one of them consumed; the socket holds five more
    bytes. *)
Definition full : t := mk [Segment (lit "defgh")] (lit "abc") 3 1.

(** The state in which [read_fixed] leaves it after four bytes. *)
Definition after_four : t := mk [Segment (lit "gh")] (lit "def") 3 2.

(** The same buffer on a socket that ends after six more bytes. *)
Definition ends_on_boundary : t := mk [Segment (lit "defghi")] (lit "abc") 3 1.

End StreamExample.

Module TrailerExample.

(** A chunked body with a trailer line, followed by the first bytes of
    another request, in a buffer of 64 bytes. *)
Definition stream : bytes :=
  lit "4" ++ CRLF ++ lit "Wiki" ++ CRLF ++ lit "0" ++ CRLF
  ++ lit "X-Sum: 1" ++ CRLF ++ CRLF ++ lit "GET".

Definition reader : HttpReader.t :=
  HttpReader.mk [] (stream ++ replicate (64 - length stream) NUL) (length stream) 0.

End TrailerExample.

Module ChunkedRequest.

(** A request whose body is sent in two chunks. *)
Definition fields : list (bytes * bytes) :=
  [(lit "Host", lit " example"); (lit "Transfer-Encoding", lit " chunked")].
Definition chunks : list bytes := [lit "Wiki"; lit "pedia"].
Definition request : bytes :=
  header_block (lit "POST / HTTP/1.1") fields ++ spec_encode_chunked chunks ++ [].

End ChunkedRequest.

Module ShutdownRun.
Import MultiThreadedTCPServer.

(** Two workers; two connections are accepted before [stop()] is
    called and one while it waits for the workers. *)
Definition before_stop : list label := [Push 1; Push 2; Wake 0].
Definition during_stop : list label :=
  [Wake 1; Finish 0; Wake 0; Finish 1; Wake 1; Push 3].

(** The state when [stop()] returns. *)
Definition final : t := mk 8080 3 2 [] [] true false [(0, 1); (1, 2)] [3].

End ShutdownRun.

Module StuckHandler.
Import MultiThreadedTCPServer.

(** Two workers, one of them in a handler that does not return;
    [stop()] is called, the other worker exits, and the joins are
    tried. *)
Definition server : t :=
  mk 8080 3 2 [Handling 1; Waiting] [] false false [] [].
Definition trace : list label := [StopBegin; Wake 1; Push 2; StopJoin].

End StuckHandler.

Module CutSizeLine.

(** A chunked body that the end of the stream cuts inside its first
    size line, and the reader once [read_until] has returned the
    line: the last [read] has returned [0]. *)
Definition reader (line : bytes) : HttpReader.t :=
  HttpReader.new [Segment line] HttpReader.DEFAULT_BUFSIZE.


End CutSizeLine.

Module MissedWakeup.
Import ConditionWait.

(** Two workers.  Worker 0 finds the queue empty and the flag unset;
    before it sleeps, [stop()] sets the flag and notifies; worker 0
    then sleeps, worker 1 sees the flag and exits. *)
Definition trace : list label :=
  [Check 0; StopSet; StopNotify; Block 0; Check 1].

Definition final : t := mk [Blocked; Exited] [] true Joining [] [].

End MissedWakeup.

(* ================================================================== *)
(** * Tactics *)
(* ================================================================== *)

(** A fact about every character [c] for which the hypothesis [H], an
    [is_Some] of a computation on [c], holds: by cases on the eight bits
    of [c]. *)
Ltac by_cases_on_char c H :=
  destruct c as [[] [] [] [] [] [] [] []];
  try reflexivity; try discriminate;
  exfalso; destruct H as [? H]; vm_compute in H; discriminate.

(** The length of a list built with [++], [take] and [drop]. *)
Ltac lengths :=
  repeat first [rewrite length_app | rewrite length_take | rewrite length_drop].

(* ================================================================== *)
(** * Fuel: a loop that has stopped keeps its result with more fuel *)
(* ================================================================== *)

Section Fuel.
Import HttpReader Chunked HttpMessage.

Lemma fuel_monotone_cases {A} (f : nat → outcome A) k :
  fuel_monotone f → f k ≠ OutOfFuel → ∀ n, f n = OutOfFuel ∨ f n = f k.
Proof.
  intros Hf Hk n. destruct (decide (n ≤ k)) as [Hle|Hgt].
  - destruct (f n) eqn:E; auto; right; symmetry;
      rewrite <- E; apply Hf; auto; rewrite E; discriminate.
  - right. apply Hf; [lia | done].
Qed.

Lemma fuel_monotone_const {A} (x : outcome A) : fuel_monotone (λ _, x).
Proof. by intros n m _ _. Qed.

Lemma read_until_loop_mono delimiter result r :
  fuel_monotone (λ n, read_until_loop n delimiter result r).
Proof.
  intros n. revert result r.
  induction n as [|n IH]; intros result r m Hle Hn; [done|].
  destruct m as [|m]; [lia|]. simpl in *.
  assert (n ≤ m) by lia.
  case_decide.
  - destruct (refill_buffer r) as [r'| |]; simpl in *; try done.
    case_decide; [done|]. unfold scan_buffer in *.
    destruct (search _ _); [case_decide; [done|]|]; by apply IH.
  - unfold scan_buffer in *.
    destruct (search _ _); [case_decide; [done|]|]; by apply IH.
Qed.

Lemma read_until_mono delimiter r :
  fuel_monotone (λ n, read_until n delimiter r).
Proof. apply read_until_loop_mono. Qed.

Lemma read_fixed_loop_mono length_ result r :
  fuel_monotone (λ n, read_fixed_loop n length_ result r).
Proof.
  intros n. revert result r.
  induction n as [|n IH]; intros result r m Hle Hn; [done|].
  destruct m as [|m]; [lia|]. simpl in *.
  assert (n ≤ m) by lia.
  case_decide; [|done].
  case_decide.
  - destruct (refill_buffer r) as [r'| |]; simpl in *; try done.
    case_decide; [done|]. unfold copy_buffer in *. by apply IH.
  - unfold copy_buffer in *. by apply IH.
Qed.

Lemma read_fixed_mono length_ r :
  fuel_monotone (λ n, read_fixed n length_ r).
Proof.
  unfold read_fixed. case_decide.
  - apply fuel_monotone_const.
  - apply read_fixed_loop_mono.
Qed.

Lemma parse_headers_loop_mono data start headers :
  fuel_monotone (λ n, parse_headers_loop n data start headers).
Proof.
  intros n. revert start headers.
  induction n as [|n IH]; intros start headers m Hle Hn; [done|].
  destruct m as [|m]; [lia|]. simpl in *.
  assert (n ≤ m) by lia.
  case_decide; [|done].
  destruct (find data CRLF start); [|done].
  case_decide; [done|].
  destruct (find _ _ 0); by apply IH.
Qed.

Lemma read_chunked_loop_mono body r :
  fuel_monotone (λ n, read_chunked_loop n body r).
Proof.
  intros n. revert body r.
  induction n as [|n IH]; intros body r m Hle Hn; [done|].
  destruct m as [|m]; [lia|].
  cbn [read_chunked_loop] in *.
  rewrite (read_until_mono CRLF r (S n) (S m) Hle)
    by (intros E; by rewrite E in Hn).
  destruct (read_until (S n) CRLF r) as [[line r1]| |]; try done.
  cbn [mbind outcome_bind] in *.
  destruct (resize_minus_2 line) as [line'| |]; try done.
  cbn [mbind outcome_bind] in *.
  destruct (catch_all _ _) as [chunk_size| |]; try done.
  cbn [mbind outcome_bind] in *.
  case_decide.
  - rewrite (read_until_mono CRLF r1 (S n) (S m) Hle)
      by (intros E; by rewrite E in Hn).
    done.
  - rewrite (read_fixed_mono chunk_size r1 (S n) (S m) Hle)
      by (intros E; by rewrite E in Hn).
    destruct (read_fixed (S n) chunk_size r1) as [[chunk r2]| |]; try done.
    cbn [mbind outcome_bind] in *.
    rewrite (read_until_mono CRLF r2 (S n) (S m) Hle)
      by (intros E; by rewrite E in Hn).
    destruct (read_until (S n) CRLF r2) as [[? r3]| |]; try done.
    cbn [mbind outcome_bind] in *.
    apply IH; [lia | done].
Qed.

Lemma read_chunked_mono r : fuel_monotone (λ n, read_chunked n r).
Proof. apply read_chunked_loop_mono. Qed.

(** Whatever the fuel, [read_until] has either not finished yet or
    has the result it has with fuel [k]. *)
Lemma read_until_cases k delimiter r x :
  read_until k delimiter r = Ret x →
  ∀ n, read_until n delimiter r = OutOfFuel ∨ read_until n delimiter r = Ret x.
Proof.
  intros Hk n. rewrite <- Hk.
  apply (fuel_monotone_cases (λ n, read_until n delimiter r)).
  - apply read_until_mono.
  - by rewrite Hk.
Qed.

Lemma parse_headers_mono data headers :
  fuel_monotone (λ n, parse_headers n data headers).
Proof. apply parse_headers_loop_mono. Qed.

End Fuel.

(* ================================================================== *)
(** * The reader never subtracts below zero *)
(* ================================================================== *)

Section ReaderInvariant.
Import HttpReader.

Lemma cursor_ok_new fd buf_size : cursor_ok (new fd buf_size).
Proof. unfold cursor_ok, new; simpl. lia. Qed.

Lemma sys_read_length count fd data fd' :
  sys_read count fd = Some (data, fd') → length data ≤ count.
Proof.
  destruct fd as [|[d|] fd0]; simpl; intros H; simplify_eq; simpl; [lia|].
  case_decide; simplify_eq; [done|]. rewrite length_take. lia.
Qed.

Lemma refill_buffer_ok r r' :
  refill_buffer r = Ret r' →
  length (buffer_ r') = length (buffer_ r) ∧ cursor_ok r' ∧ pos_ r' = 0.
Proof.
  unfold refill_buffer.
  destruct (sys_read _ _) as [[data fd']|] eqn:E; [|done].
  intros [= <-]. apply sys_read_length in E.
  unfold cursor_ok; simpl. rewrite length_app, length_drop. lia.
Qed.

Lemma starts_with_length needle hay :
  starts_with needle hay = true → length needle ≤ length hay.
Proof.
  revert hay. induction needle as [|c needle IH]; intros hay; simpl; [lia|].
  destruct hay; [done|]. intros [_ H]%andb_prop. apply IH in H. simpl. lia.
Qed.

Lemma search_bound hay needle i :
  search hay needle = Some i → i + length needle ≤ length hay.
Proof.
  revert i. induction hay as [|a hay IH]; intros i.
  - simpl. destruct needle; simpl; [|done]. intros [= <-]. simpl. lia.
  - cbn [search]. destruct (starts_with needle (a :: hay)) eqn:E.
    + intros [= <-]. apply starts_with_length in E. lia.
    + destruct (search hay needle) as [j|]; [|done].
      intros [= <-]. specialize (IH j eq_refl). simpl. lia.
Qed.

(** [search] finds an occurrence, and the first one. *)
Lemma search_first hay needle i :
  search hay needle = Some i →
  starts_with needle (drop i hay) = true ∧
  ∀ j, j < i → starts_with needle (drop j hay) = false.
Proof.
  revert i. induction hay as [|a hay IH]; intros i.
  - simpl. destruct (starts_with needle []) eqn:E; [|done].
    intros [= <-]. split; [done|]. intros j Hj. lia.
  - cbn [search]. destruct (starts_with needle (a :: hay)) eqn:E.
    + intros [= <-]. split; [done|]. intros j Hj. lia.
    + destruct (search hay needle) as [k|]; [|done].
      intros [= <-]. destruct (IH k eq_refl) as [Hk Hbefore].
      split; [done|]. intros [|j] Hj; [done|]. apply Hbefore. lia.
Qed.

Lemma read_until_loop_ok fuel delimiter result r out r' :
  cursor_ok r →
  read_until_loop fuel delimiter result r = Ret (out, r') →
  cursor_ok r' ∧ length (buffer_ r') = length (buffer_ r).
Proof.
  revert result r. induction fuel as [|fuel IH]; intros result r Hr; [done|].
  assert (Hscan : ∀ r0, cursor_ok r0 → pos_ r0 ≤ bufflen_ r0 →
            scan_buffer delimiter result r0 (read_until_loop fuel delimiter)
              = Ret (out, r') →
            cursor_ok r' ∧ length (buffer_ r') = length (buffer_ r0)).
  { intros r0 [Hb Hp] Hle. unfold scan_buffer.
    assert (Hnext : read_until_loop fuel delimiter
                      (result ++ take (bufflen_ r0 - pos_ r0) (drop (pos_ r0) (buffer_ r0)))
                      (set_pos (length (buffer_ r0)) r0) = Ret (out, r') →
                    cursor_ok r' ∧ length (buffer_ r') = length (buffer_ r0)).
    { intros H. apply IH in H; [done|]. unfold cursor_ok; simpl. lia. }
    destruct (search _ _) as [it|] eqn:E; [case_decide|]; [|done..].
    intros [= <- <-]. apply search_bound in E.
    rewrite length_take, length_drop in E.
    unfold cursor_ok; simpl. lia. }
  simpl. case_decide as Hc.
  - destruct (refill_buffer r) as [r1| |] eqn:E; simpl; try done.
    apply refill_buffer_ok in E as (Hl & Hok & Hp).
    case_decide.
    + intros [= <- <-]. done.
    + intros H1. apply Hscan in H1; [|done|lia]. by rewrite <- Hl.
  - intros H1. apply Hscan in H1; [done|done|].
    destruct Hr as [? [?|?]]; lia.
Qed.

Lemma read_fixed_loop_ok fuel length_ result r out r' :
  cursor_ok r →
  read_fixed_loop fuel length_ result r = Ret (out, r') →
  cursor_ok r' ∧ length (buffer_ r') = length (buffer_ r).
Proof.
  revert result r. induction fuel as [|fuel IH]; intros result r Hr; [done|].
  assert (Hcopy : ∀ r0, cursor_ok r0 → pos_ r0 ≤ bufflen_ r0 →
            copy_buffer length_ result r0 (read_fixed_loop fuel length_)
              = Ret (out, r') →
            cursor_ok r' ∧ length (buffer_ r') = length (buffer_ r0)).
  { intros r0 [Hb Hp] Hle. unfold copy_buffer. intros H.
    apply IH in H; [done|]. unfold cursor_ok; simpl. lia. }
  simpl. unfold check_length. case_decide.
  - case_decide as Hc.
    + destruct (refill_buffer r) as [r1| |] eqn:E; simpl; try done.
      apply refill_buffer_ok in E as (Hl & Hok & Hp).
      case_decide.
      * case_decide; [done|]. intros [= <- <-]. done.
      * intros H1. apply Hcopy in H1; [|done|lia]. by rewrite <- Hl.
    + intros H1. apply Hcopy in H1; [done|done|].
      destruct Hr as [? [?|?]]; lia.
  - case_decide; [done|]. intros [= <- <-]. done.
Qed.

End ReaderInvariant.

(* ================================================================== *)
(** * What the reader does when the bytes are in the buffer *)
(* ================================================================== *)

Section InBuffer.
Import HttpReader.

(** One iteration is enough when the delimiter is in the unread part of
    the buffer. *)
Lemma read_until_in_buffer fuel delimiter result r k :
  delimiter ≠ [] →
  pos_ r < length (buffer_ r) →
  search (unread r) delimiter = Some k →
  read_until_loop (S fuel) delimiter result r
  = Ret (result ++ take (k + length delimiter) (drop (pos_ r) (buffer_ r)),
         set_pos (pos_ r + (k + length delimiter)) r).
Proof.
  intros Hd Hpos Hk. cbn [read_until_loop]. rewrite decide_False by lia.
  unfold scan_buffer. unfold unread in Hk. rewrite Hk.
  apply search_bound in Hk. rewrite length_take in Hk.
  rewrite decide_True; [done|]. destruct delimiter; [done|]. simpl in Hk. lia.
Qed.

(** When the delimiter is in the unread part of the buffer,
    [read_until] returns that part up to the end of its first
    occurrence. *)
Lemma read_until_unread fuel delimiter r k :
  delimiter ≠ [] →
  pos_ r < length (buffer_ r) →
  pos_ r ≤ bufflen_ r → bufflen_ r ≤ length (buffer_ r) →
  search (unread r) delimiter = Some k →
  read_until (S fuel) delimiter r
  = Ret (take (k + length delimiter) (unread r),
         set_pos (pos_ r + (k + length delimiter)) r) ∧
  unread (set_pos (pos_ r + (k + length delimiter)) r)
  = drop (k + length delimiter) (unread r).
Proof.
  intros Hd Hpos Hle Hcap Hk. unfold read_until.
  rewrite (read_until_in_buffer _ _ _ _ k) by done.
  pose proof (search_bound _ _ _ Hk) as Hb.
  unfold unread in *. rewrite length_take, length_drop in Hb.
  split.
  - cbn [app]. f_equal. f_equal. rewrite take_take. f_equal. lia.
  - destruct r as [fd buf len pos]; simpl in *.
    rewrite skipn_firstn_comm, drop_drop. f_equal; lia.
Qed.

(** A fresh reader whose first refill holds the delimiter. *)
Lemma read_until_first_refill fuel delimiter data rest buf_size k :
  delimiter ≠ [] →
  0 < length data → length data ≤ buf_size →
  search data delimiter = Some k →
  read_until (S (S fuel)) delimiter (new (Segment data :: rest) buf_size)
  = Ret (take (k + length delimiter) data,
         mk rest (data ++ drop (length data) (replicate buf_size NUL))
            (length data) (k + length delimiter)).
Proof.
  intros Hd Hdata Hcap Hk. unfold read_until, new.
  set (buf := replicate buf_size NUL).
  assert (Hbuf : length buf = buf_size) by apply length_replicate.
  (* first iteration: nothing to scan, the cursor is forced to the end *)
  change (read_until_loop (S (S fuel)) delimiter [] (mk (Segment data :: rest) buf 0 0))
    with (if decide (length buf ≤ 0)
          then r' ← refill_buffer (mk (Segment data :: rest) buf 0 0);
               if decide (bufflen_ r' = 0) then Ret ([], r')
               else scan_buffer delimiter [] r' (read_until_loop (S fuel) delimiter)
          else scan_buffer delimiter [] (mk (Segment data :: rest) buf 0 0)
                 (read_until_loop (S fuel) delimiter)).
  rewrite decide_False by lia. unfold scan_buffer.
  cbn [bufflen_ pos_ buffer_ Nat.sub]. rewrite take_0.
  replace (search [] delimiter) with (@None nat) by (by destruct delimiter).
  (* second iteration: refill, then the delimiter is found *)
  unfold set_pos. cbn [read_until_loop buffer_ pos_ fd_ bufflen_ app].
  rewrite decide_True by lia.
  unfold refill_buffer. cbn [buffer_ fd_ sys_read].
  rewrite decide_True by lia. cbn [mbind outcome_bind bufflen_].
  rewrite decide_False by lia.
  unfold scan_buffer. cbn [bufflen_ pos_ buffer_ set_pos fd_].
  rewrite Nat.sub_0_r, drop_0, take_app_length, Hk.
  pose proof (search_bound _ _ _ Hk) as Hb.
  rewrite decide_True by (destruct delimiter; [done|simpl in Hb; lia]).
  rewrite take_app_le by done. done.
Qed.

(** When the bytes wanted are in the unread part of the buffer,
    [read_fixed] returns them. *)
Lemma read_fixed_unread fuel n r :
  pos_ r < length (buffer_ r) →
  bufflen_ r ≤ length (buffer_ r) →
  pos_ r + n ≤ bufflen_ r →
  (N.of_nat n ≤ vector_max_size)%N →
  read_fixed (S (S fuel)) (N.of_nat n) r
  = Ret (take n (unread r), set_pos (pos_ r + n) r) ∧
  unread (set_pos (pos_ r + n) r) = drop n (unread r).
Proof.
  intros Hpos Hcap Hn Hmax. unfold read_fixed.
  rewrite decide_False by lia.
  assert (Hun : unread (set_pos (pos_ r + n) r) = drop n (unread r)).
  { unfold unread. destruct r as [fd buf len pos]; simpl in *.
    rewrite skipn_firstn_comm, drop_drop. f_equal; lia. }
  assert (Htake : take n (unread r) = take n (drop (pos_ r) (buffer_ r))).
  { unfold unread. rewrite take_take. f_equal. lia. }
  split; [|done]. rewrite Htake.
  destruct n as [|n].
  - cbn [read_fixed_loop length]. rewrite decide_False by lia.
    unfold check_length. rewrite decide_False by (simpl; lia).
    rewrite Nat.add_0_r. by destruct r.
  - cbn [read_fixed_loop length]. rewrite decide_True by lia.
    rewrite decide_False by lia. unfold copy_buffer. cbn [length app].
    rewrite N.sub_0_r, N.min_r by lia. rewrite Nat2N.id.
    assert (Hlen : length (take (S n) (drop (pos_ r) (buffer_ r))) = S n)
      by (rewrite length_take, length_drop; lia).
    rewrite decide_False by (rewrite Hlen; lia).
    unfold check_length. by rewrite decide_False by (rewrite Hlen; lia).
Qed.

End InBuffer.

(* ================================================================== *)
(** * read_fixed and parse_headers can run forever *)
(* ================================================================== *)

Section Spinning.
Import HttpReader Chunked HttpMessage.

(** [read_fixed] refills only when the cursor is at the end of the
    buffer.  When the bytes of the last refill are used up before that
    point and more are wanted, an iteration copies nothing and changes
    nothing, whatever the socket still holds. *)
Lemma read_fixed_loop_spins fuel length_ result r :
  pos_ r < length (buffer_ r) →
  bufflen_ r = pos_ r →
  (N.of_nat (length result) < length_)%N →
  read_fixed_loop fuel length_ result r = OutOfFuel.
Proof.
  intros Hpos Hlen Hres. induction fuel as [|fuel IH]; [done|].
  simpl. rewrite decide_True by done.
  rewrite decide_False by lia.
  unfold copy_buffer. rewrite Hlen, Nat.sub_diag. simpl.
  rewrite N.min_0_l. simpl. rewrite app_nil_r, Nat.add_0_r.
  destruct r; apply IH.
Qed.

(** The same one iteration later: the buffer holds fewer bytes than are
    still wanted and the last refill did not fill it. *)
Lemma read_fixed_loop_spins_short fuel length_ result r :
  pos_ r ≤ bufflen_ r →
  bufflen_ r < length (buffer_ r) →
  (N.of_nat (length result + (bufflen_ r - pos_ r)) < length_)%N →
  read_fixed_loop fuel length_ result r = OutOfFuel.
Proof.
  intros Hpos Hlen Hres. destruct fuel as [|fuel]; [done|].
  simpl. rewrite decide_True by lia. rewrite decide_False by lia.
  unfold copy_buffer.
  rewrite N.min_l by lia. rewrite Nat2N.id.
  apply read_fixed_loop_spins; simpl; [lia|lia|].
  rewrite length_app, length_take, length_drop. lia.
Qed.

(** A [continue] that skips [start = end + 2]: a header line without a
    colon is looked at again and again. *)
Lemma parse_headers_loop_spins fuel data start headers end_ :
  start < length data →
  find data CRLF start = Some end_ →
  substr data start (end_ - start) ≠ [] →
  find (substr data start (end_ - start)) [":"%char] 0 = None →
  parse_headers_loop fuel data start headers = OutOfFuel.
Proof.
  intros Hstart Hend Hline Hcolon. induction fuel as [|fuel IH]; [done|].
  simpl. rewrite decide_True by done. rewrite Hend.
  rewrite decide_False by done. by rewrite Hcolon.
Qed.

End Spinning.

(* ================================================================== *)
(** * C1: read_until and a delimiter cut by a refill *)
(* ================================================================== *)

(** C1 (code at the failing input).  The stream ["a\r\nb\r\n"] holds
    its first ["\r\n"] at offset 1.  Delivered as ["a\r"] then
    ["\nb\r\n"], [read_until("\r\n")] searches each refill on its own,
    does not see the delimiter that the refill cuts, and returns the
    whole stream (seven bytes) instead of its first three. *)
Theorem read_until_misses_delimiter_cut_by_refill :
  ∀ fuel : nat,
    SplitDelimiter.first_refill ++ SplitDelimiter.second_refill
      = SplitDelimiter.stream ∧
    search SplitDelimiter.stream CRLF = Some 1 ∧
    HttpReader.read_until (3 + fuel) CRLF
      (HttpReader.new SplitDelimiter.fd HttpReader.DEFAULT_BUFSIZE)
      = Ret (SplitDelimiter.stream, SplitDelimiter.after_read) ∧
    SplitDelimiter.stream ≠ take (1 + length CRLF) SplitDelimiter.stream.
Proof.
  intros fuel. split_and!.
  - reflexivity.
  - reflexivity.
  - assert (H3 : HttpReader.read_until 3 CRLF
        (HttpReader.new SplitDelimiter.fd HttpReader.DEFAULT_BUFSIZE)
        = Ret (SplitDelimiter.stream, SplitDelimiter.after_read))
      by (vm_compute; reflexivity).
    rewrite <- H3. apply (read_until_mono CRLF _ 3 (3 + fuel)); [lia|].
    by rewrite H3.
  - vm_compute. discriminate.
Qed.

(* ================================================================== *)
(** * C2: the choice of the body framing *)
(* ================================================================== *)

(** C2, as stated, fails.  A request carries [Transfer-Encoding: gzip],
    [Content-Length: 5] and the five bytes [hello].  The strategy the
    claim describes reads the body with [read_fixed(5)] and gets
    [hello]; [HttpMessage::parse] leaves the body empty. *)
Lemma other_encoding_with_length_gives_empty_body :
  HttpReader.read_until 2 CRLFCRLF
    (HttpReader.new [Segment EncodingAndLength.request]
                    HttpReader.DEFAULT_BUFSIZE)
    = Ret (EncodingAndLength.head, EncodingAndLength.after_head) ∧
  spec_select_body 3 EncodingAndLength.headers EncodingAndLength.after_head
    = Ret (lit "hello") ∧
  HttpMessage.parse 3 [Segment EncodingAndLength.request]
    = Ret (HttpMessage.mk (lit "POST / HTTP/1.1") EncodingAndLength.headers []).
Proof. split_and!; vm_compute; reflexivity. Qed.

(** C2, amended.  Once the header block is read and parsed into the map
    [h], [HttpMessage::parse] frames the body as follows.  If a
    [transfer-encoding] header is present: the body is what
    [read_chunked()] produces when its value equals [chunked], and is
    empty for any other value, whether or not a [content-length] header
    is present.  If there is no [transfer-encoding] header and a
    [content-length] header is present: the body is what [read_fixed]
    produces for the length that [std::stoul] parses from it.  With
    neither header the body is empty. *)
Theorem body_framing :
  ∀ (fuel : nat) (fd : socket) (headers_str start_line : bytes)
    (reader : HttpReader.t) (h : gmap bytes bytes),
    HttpReader.read_until fuel CRLFCRLF
      (HttpReader.new fd HttpReader.DEFAULT_BUFSIZE) = Ret (headers_str, reader) →
    HttpMessage.parse_start_line headers_str = Ret start_line →
    HttpMessage.parse_headers fuel headers_str ∅ = Ret h →
    (h !! lit "transfer-encoding" = Some (lit "chunked") →
       HttpMessage.parse fuel fd
       = '(body, _) ← Chunked.read_chunked fuel reader;
         Ret (HttpMessage.mk start_line h body)) ∧
    (∀ v, h !! lit "transfer-encoding" = Some v → v ≠ lit "chunked" →
       HttpMessage.parse fuel fd = Ret (HttpMessage.mk start_line h [])) ∧
    (∀ v, h !! lit "transfer-encoding" = None →
          h !! lit "content-length" = Some v →
       HttpMessage.parse fuel fd
       = len ← stoul v 10;
         '(body, _) ← HttpReader.read_fixed fuel len reader;
         Ret (HttpMessage.mk start_line h body)) ∧
    (h !! lit "transfer-encoding" = None →
     h !! lit "content-length" = None →
       HttpMessage.parse fuel fd = Ret (HttpMessage.mk start_line h [])).
Proof.
  intros fuel fd headers_str start_line reader h Hread Hstart Hheaders.
  unfold HttpMessage.parse.
  rewrite Hread. cbn [mbind outcome_bind].
  rewrite Hstart. cbn [mbind outcome_bind].
  rewrite Hheaders. cbn [mbind outcome_bind].
  split_and!.
  - intros Hte. rewrite decide_True by (by rewrite Hte).
    by rewrite decide_True by done.
  - intros v Hte Hv. rewrite decide_True by (by rewrite Hte).
    rewrite decide_False; [done|]. rewrite Hte. by intros [= ?].
  - intros v Hte Hcl.
    rewrite decide_False by (rewrite Hte; by intros [? ?]).
    rewrite decide_True by (by rewrite Hcl).
    by rewrite Hcl.
  - intros Hte Hcl.
    rewrite decide_False by (rewrite Hte; by intros [? ?]).
    by rewrite decide_False by (rewrite Hcl; by intros [? ?]).
Qed.

(** [body_framing] on the request with [Transfer-Encoding: gzip] and
    [Content-Length: 5]: the body is empty. *)
Lemma body_framing_witness :
  HttpMessage.parse 3 [Segment EncodingAndLength.request]
  = Ret (HttpMessage.mk (lit "POST / HTTP/1.1") EncodingAndLength.headers []).
Proof.
  refine (proj1 (proj2
    (body_framing 3 [Segment EncodingAndLength.request]
       EncodingAndLength.head (lit "POST / HTTP/1.1")
       EncodingAndLength.after_head EncodingAndLength.headers _ _ _))
    (lit "gzip") _ _).
  - vm_compute. reflexivity.
  - vm_compute. reflexivity.
  - vm_cast_no_check (eq_refl (Ret EncodingAndLength.headers)).
  - vm_cast_no_check (eq_refl (Some (lit "gzip"))).
  - vm_compute. discriminate.
Defined.

(* ================================================================== *)
(** * C3: header lines *)
(* ================================================================== *)

Section Headers.
Import HttpMessage.

Lemma find_first_not_of_strip s :
  match find_first_not_of s [SP; HT] with
  | Some i => strip_leading s = drop i s ∧ i < length s
  | None => strip_leading s = []
  end.
Proof.
  induction s as [|c s IH]; simpl; [done|].
  destruct (bool_decide (c ∈ [SP; HT])).
  - destruct (find_first_not_of s [SP; HT]); simpl; [|done].
    destruct IH. split; [done|lia].
  - split; [done|lia].
Qed.

Lemma erase_before_first_not_of_strip value :
  erase_before_first_not_of value [SP; HT] = strip_leading value.
Proof.
  unfold erase_before_first_not_of.
  pose proof (find_first_not_of_strip value) as H.
  destruct (find_first_not_of value [SP; HT]); [by destruct H | done].
Qed.

Lemma erase_after_last_not_of_strip key :
  erase_after_last_not_of key [SP; HT] = strip_trailing key.
Proof.
  unfold erase_after_last_not_of, find_last_not_of, strip_trailing.
  pose proof (find_first_not_of_strip (rev key)) as H.
  destruct (find_first_not_of (rev key) [SP; HT]) as [i|]; simpl.
  - destruct H as [-> Hi]. rewrite length_rev in Hi.
    rewrite skipn_rev, rev_involutive. f_equal. lia.
  - by rewrite H.
Qed.

(** The first ["\r\n"] after a text without line feed is the one that
    follows it. *)
Lemma search_CRLF line rest :
  LF ∉ line → search (line ++ CRLF ++ rest) CRLF = Some (length line).
Proof.
  intros Hlf. induction line as [|c line IH]; [done|].
  apply not_elem_of_cons in Hlf as [Hc Hline].
  cbn [app search length].
  replace (starts_with CRLF (c :: line ++ CRLF ++ rest)) with false.
  - by rewrite IH.
  - symmetry. cbn [starts_with CRLF]. apply andb_false_intro2.
    destruct line as [|d line]; simpl.
    + done.
    + apply not_elem_of_cons in Hline as [Hd _].
      rewrite bool_decide_eq_false_2; [done|]. congruence.
Qed.

Lemma find_CRLF before line rest :
  LF ∉ line →
  find (before ++ line ++ CRLF ++ rest) CRLF (length before)
  = Some (length before + length line).
Proof.
  intros Hlf. unfold find.
  rewrite decide_True by (rewrite length_app; lia).
  rewrite drop_app_length. by rewrite search_CRLF.
Qed.

Lemma search_colon key value :
  ":"%char ∉ key →
  search (key ++ ":"%char :: value) [":"%char] = Some (length key).
Proof.
  intros Hk. induction key as [|c key IH]; [done|].
  apply not_elem_of_cons in Hk as [Hc Hkey].
  cbn [app search length starts_with].
  rewrite bool_decide_eq_false_2 by done. cbn [andb]. by rewrite IH.
Qed.

Lemma header_field_stored key value :
  header_field (key ++ ":"%char :: value) (length key) = stored (key, value).
Proof.
  unfold header_field, stored, substr. cbn [fst snd].
  rewrite drop_0, take_app_length.
  rewrite erase_after_last_not_of_strip. f_equal.
  rewrite erase_before_first_not_of_strip. f_equal.
  rewrite drop_app_add'; [|done]. done.
Qed.

(** The headers stored from position [length before] on, when what
    follows is [key:value] lines and a blank line. *)
Lemma parse_headers_loop_fields fuel before fields headers :
  Forall plain_field fields →
  length fields < fuel →
  parse_headers_loop fuel
    (before ++ concat (header_line <$> fields) ++ CRLF) (length before) headers
  = Ret (foldl (λ m kv, <[(stored kv).1 := (stored kv).2]> m) headers fields).
Proof.
  intros Hf. revert fuel before headers.
  induction Hf as [|[key value] fields (Hcolon & Hk & Hv) _ IH];
    intros fuel before headers Hfuel.
  - destruct fuel as [|fuel]; [simpl in Hfuel; lia|].
    change (before ++ concat (header_line <$> []) ++ CRLF)
      with (before ++ [] ++ CRLF ++ []).
    cbn [parse_headers_loop].
    rewrite decide_True by (rewrite length_app; simpl; lia).
    rewrite find_CRLF by apply not_elem_of_nil.
    rewrite Nat.add_0_r, Nat.sub_diag. unfold substr. by rewrite take_0.
  - destruct fuel as [|fuel]; [simpl in Hfuel; lia|].
    simpl in Hk, Hv, Hcolon.
    set (line := key ++ ":"%char :: value).
    assert (Hline : LF ∉ line).
    { unfold line. rewrite elem_of_app, elem_of_cons.
      intros [?|[E|?]]; [contradiction| |contradiction].
      vm_compute in E. discriminate. }
    assert (Hdata : before ++ concat (header_line <$> (key, value) :: fields) ++ CRLF
              = before ++ line ++ CRLF ++ concat (header_line <$> fields) ++ CRLF).
    { unfold line, header_line. cbn [fmap list_fmap concat fst snd].
      change (lit ":") with [":"%char].
      by rewrite <- !app_assoc. }
    rewrite Hdata. cbn [parse_headers_loop].
    rewrite decide_True
      by (rewrite !length_app; unfold line; rewrite length_app; simpl; lia).
    rewrite find_CRLF by done.
    replace (length before + length line - length before) with (length line) by lia.
    assert (Hsub : substr (before ++ line ++ CRLF ++ concat (header_line <$> fields) ++ CRLF)
                     (length before) (length line) = line).
    { unfold substr. rewrite drop_app_length. by rewrite take_app_length. }
    rewrite Hsub.
    rewrite decide_False by (unfold line; by destruct key).
    unfold find at 1. rewrite decide_True by lia. rewrite drop_0.
    unfold line at 1. rewrite search_colon by done.
    cbn [fmap option_fmap option_map Nat.add].
    unfold line at 1. rewrite header_field_stored.
    cbn [foldl].
    specialize (IH fuel (before ++ line ++ CRLF) (<[(stored (key, value)).1 := (stored (key, value)).2]> headers)).
    rewrite <- !app_assoc in IH.
    replace (length before + length line + 2) with (length (before ++ line ++ CRLF))
      by (rewrite !length_app; simpl; lia).
    rewrite <- IH by (simpl in Hfuel; lia). done.
Qed.

Lemma foldl_insert_lookup_later (fields : list (bytes * bytes))
    (m : gmap bytes bytes) (k : bytes) :
  (∀ kv, kv ∈ fields → (stored kv).1 ≠ k) →
  foldl (λ m kv, <[(stored kv).1 := (stored kv).2]> m) m fields !! k = m !! k.
Proof.
  revert m. induction fields as [|kv fields IH]; intros m Hk; [done|].
  cbn [foldl]. rewrite IH.
  - apply lookup_insert_ne. apply Hk. left.
  - intros kv' Hin. apply Hk. by right.
Qed.

End Headers.

(** C3, as stated, fails.  The line ["Content-Length:  5 "] of the
    claim is stored under the key [content-length] with the value
    ["5 "], trailing space included, where trimming at both ends gives
    ["5"]; and white space before a key is kept (the line [" Host :x"]
    is stored under [" host"]). *)
Lemma content_length_value_keeps_trailing_space :
  HttpMessage.parse_headers 2
    (header_block (lit "GET / HTTP/1.1") [(lit "Content-Length", lit "  5 ")]) ∅
    = Ret {[ lit "content-length" := lit "5 " ]} ∧
  strip_both (lit "  5 ") = lit "5" ∧
  lit "5 " ≠ lit "5" ∧
  HttpMessage.parse_headers 2
    (header_block (lit "GET / HTTP/1.1") [(lit " Host ", lit "x")]) ∅
    = Ret {[ lit " host" := lit "x" ]}.
Proof.
  split_and!.
  - vm_cast_no_check
      (eq_refl (@Ret (gmap bytes bytes) {[ lit "content-length" := lit "5 " ]})).
  - vm_compute. reflexivity.
  - vm_compute. discriminate.
  - vm_cast_no_check
      (eq_refl (@Ret (gmap bytes bytes) {[ lit " host" := lit "x" ]})).
Qed.

(** C3, amended.  For a header block made of a start line and of
    [key:value] lines (no colon in a key, no line feed in a line), the
    parser stores, line after line, the key in lower case with the
    horizontal white space at its end removed and the value with the
    horizontal white space at its start removed; white space at the
    start of a key and at the end of a value is kept.  The last line of
    a given stored key wins. *)
Theorem parse_headers_stores_fields :
  ∀ (fuel : nat) (start_line : bytes) (fields : list (bytes * bytes)),
    LF ∉ start_line →
    Forall plain_field fields →
    length fields < fuel →
    ∃ h, HttpMessage.parse_headers fuel (header_block start_line fields) ∅ = Ret h ∧
         h = foldl (λ m kv, <[strip_trailing (tolower <$> kv.1)
                               := strip_leading kv.2]> m) ∅ fields ∧
         ∀ earlier kv later,
           fields = earlier ++ kv :: later →
           (∀ kv', kv' ∈ later →
              strip_trailing (tolower <$> kv'.1)
              ≠ strip_trailing (tolower <$> kv.1)) →
           h !! strip_trailing (tolower <$> kv.1) = Some (strip_leading kv.2).
Proof.
  intros fuel start_line fields Hsl Hfields Hfuel.
  eexists. split_and!; [|reflexivity|].
  - unfold HttpMessage.parse_headers, header_block.
    pose proof (find_CRLF [] start_line
                  (concat (header_line <$> fields) ++ CRLF) Hsl) as Hfind.
    cbn [app length Nat.add] in Hfind. rewrite Hfind.
    replace (length start_line + 2)
      with (length (start_line ++ CRLF)) by (rewrite length_app; simpl; lia).
    rewrite (app_assoc start_line CRLF).
    by apply parse_headers_loop_fields.
  - intros earlier kv later -> Hlater.
    rewrite foldl_app. cbn [foldl].
    rewrite (foldl_insert_lookup_later later _ _ Hlater).
    apply lookup_insert_eq.
Qed.

(** [parse_headers_stores_fields] on the line of the claim. *)
Lemma parse_headers_stores_fields_witness :
  ∃ h, HttpMessage.parse_headers 2
         (header_block (lit "GET / HTTP/1.1")
                       [(lit "Content-Length", lit "  5 ")]) ∅ = Ret h ∧
       h !! lit "content-length" = Some (lit "5 ").
Proof.
  destruct (parse_headers_stores_fields 2 (lit "GET / HTTP/1.1")
              [(lit "Content-Length", lit "  5 ")])
    as (h & Hh & _ & Hlast).
  - refine (bool_decide_unpack _ _). vm_compute. exact I.
  - constructor; [|constructor].
    split_and!; refine (bool_decide_unpack _ _); vm_compute; exact I.
  - simpl. lia.
  - exists h. split; [exact Hh|].
    apply (Hlast [] (lit "Content-Length", lit "  5 ") [] eq_refl).
    intros kv' Hin. inversion Hin.
Defined.

(* ================================================================== *)
(** * C4: a thread count of zero *)
(* ================================================================== *)

(** C4, as stated, fails: built with zero worker threads, the pooled
    server is constructed without any error, with four threads. *)
Lemma zero_threads_are_replaced_by_four :
  MultiThreadedTCPServer.new 8080 0
  = Ret (MultiThreadedTCPServer.mk 8080 (-1) 4 [] [] false false [] []).
Proof. reflexivity. Qed.

(** C4, amended.  The constructor of the pooled server never throws: a
    thread count of zero is replaced by four, any other count is kept,
    and the count stored is never zero (the constructor's test for zero
    is unreachable). *)
Theorem constructor_never_throws :
  ∀ (port : Z) (threads : N),
    ∃ s, MultiThreadedTCPServer.new port threads = Ret s ∧
         MultiThreadedTCPServer.num_threads s
           = (if decide (threads = 0%N) then 4%N else threads) ∧
         MultiThreadedTCPServer.num_threads s ≠ 0%N.
Proof.
  intros port threads. unfold MultiThreadedTCPServer.new.
  destruct (decide (threads = 0%N)) as [->|Hne].
  - eexists. split; [reflexivity|]. simpl. done.
  - rewrite (decide_True (P := (0 < threads)%N)) by lia.
    rewrite decide_False by done. eexists. split; [reflexivity|]. done.
Qed.

(* ================================================================== *)
(** * C5: the responses written by the handler *)
(* ================================================================== *)

Section Responses.
Import TCPServer.

Lemma starts_with_app needle rest : starts_with needle (needle ++ rest) = true.
Proof.
  induction needle as [|c needle IH]; simpl; [done|].
  by rewrite bool_decide_eq_true_2.
Qed.

(** A string that contains [needle] is not one where [search] fails. *)
Lemma search_app_is_Some before needle after :
  is_Some (search (before ++ needle ++ after) needle).
Proof.
  induction before as [|c before IH].
  - simpl. destruct (needle ++ after) eqn:E.
    + destruct needle; [by eexists | done].
    + rewrite <- E.
      replace (search (needle ++ after) needle) with (Some 0); [by eexists|].
      rewrite E. cbn [search]. rewrite <- E. by rewrite starts_with_app.
  - cbn [app search]. destruct (starts_with _ _); [by eexists|].
    destruct IH as [i ->]. by eexists.
Qed.

(** A peer that takes whatever it is sent. *)
Lemma send_all_reliable data wire : send_all [] data wire = (true, [], wire ++ data).
Proof. destruct data; simpl; by rewrite ?app_nil_r. Qed.

(** Whatever the peer does, what reaches the wire is the bytes already
    there followed by a prefix of the data, all of it when [send_all]
    returns [true]. *)
Lemma send_all_prefix peer data wire :
  ∃ k, (send_all peer data wire).2 = wire ++ take k data ∧
       ((send_all peer data wire).1.1 = true → length data ≤ k).
Proof.
  revert data wire. induction peer as [|[n|] peer IH]; intros data wire.
  - rewrite send_all_reliable. exists (length data). by rewrite firstn_all.
  - destruct data as [|c data].
    + exists 0. simpl. by rewrite app_nil_r.
    + cbn [send_all]. case_decide.
      * exists 0. simpl. by rewrite app_nil_r.
      * destruct (IH (drop n (c :: data)) (wire ++ take n (c :: data)))
          as (k & Hk & Hall).
        exists (n + k). split.
        -- rewrite Hk, <- app_assoc. f_equal. apply take_take_drop.
        -- intros Ht. specialize (Hall Ht). rewrite length_drop in Hall. lia.
  - destruct data as [|c data].
    + exists 0. simpl. by rewrite app_nil_r.
    + exists 0. simpl. by rewrite app_nil_r.
Qed.

(** The echo response is the specification's format, and what
    [Http::create] builds for status 200. *)
Lemma echo_response_form body :
  echo_headers body ++ body
  = spec_response (lit "200 OK") (to_string (length body)) body.
Proof. unfold echo_headers, spec_response. by rewrite <- !app_assoc. Qed.

Lemma create_form status content :
  Http.create status content Http.default_content_type []
  = spec_response (to_string_int status ++ lit " " ++ Http.get_status_message status)
                  (to_string (length content)) content.
Proof.
  unfold Http.create, spec_response, Http.default_content_type.
  cbn [foldl]. by rewrite <- !app_assoc.
Qed.

Lemma handle_connection_success fuel inbound peer request :
  HttpMessage.parse fuel inbound = Ret request →
  ∃ k, handle_connection fuel inbound peer
       = Ret (take k (echo_headers (HttpMessage.body request)
                      ++ HttpMessage.body request)).
Proof.
  intros Hp. unfold handle_connection. rewrite Hp.
  generalize (echo_headers (HttpMessage.body request)).
  generalize (HttpMessage.body request). clear Hp. intros body hd.
  destruct (send_all_prefix peer hd []) as (k1 & H1 & Hall1).
  destruct (send_all peer hd []) as [[sent peer1] wire1]. simpl in *.
  destruct sent.
  - destruct (send_all_prefix peer1 body wire1) as (k2 & H2 & _).
    destruct (send_all peer1 body wire1) as [[? ?] wire2]. simpl in *.
    exists (length hd + k2). subst.
    rewrite take_app_add. rewrite take_ge by (by apply Hall1). done.
  - destruct (decide (k1 ≤ length hd)).
    + exists k1. subst. by rewrite take_app_le.
    + exists (length hd). subst. rewrite take_app_le by done.
      by rewrite !take_ge by lia.
Qed.

Lemma handle_connection_failure fuel inbound peer e :
  HttpMessage.parse fuel inbound = Throw e →
  ∃ k, handle_connection fuel inbound peer = Ret (take k error_response).
Proof.
  intros Hp. unfold handle_connection. rewrite Hp.
  generalize error_response. intros response.
  destruct (send_all_prefix peer response []) as (k & Hk & _).
  destruct (send_all peer response []) as [[? ?] wire]. simpl in *.
  exists k. by subst.
Qed.

Lemma spec_response_has_content_type status_line n body :
  is_Some (search (spec_response status_line n body)
                  (lit "Content-Type: text/plain")).
Proof.
  unfold spec_response.
  rewrite (app_assoc (lit "HTTP/1.1 ")), (app_assoc _ CRLF).
  apply search_app_is_Some.
Qed.

End Responses.

(** C5, as stated, fails on the 500 response.  A client that closes at
    once makes the parser fail; the handler then writes its fixed error
    response, which carries no [Content-Type] header and so is of the
    specification's format for no status line, length and body. *)
Lemma error_response_has_no_content_type :
  TCPServer.handle_connection 2 [] [] = Ret TCPServer.error_response ∧
  ∀ status_line n body,
    TCPServer.error_response ≠ spec_response status_line n body.
Proof.
  split; [vm_compute; reflexivity|].
  intros status_line n body H.
  pose proof (spec_response_has_content_type status_line n body) as [i Hi].
  rewrite <- H in Hi. vm_compute in Hi. discriminate.
Qed.

(** C5, amended.  When the request parses, what the handler writes is
    (a prefix of, and with a peer that takes everything exactly)
    [HTTP/1.1 200 OK], [Content-Type: text/plain], [Content-Length] of
    the request body, [Connection: close], a blank line and the request
    body, which is also what [Http::create] builds for status 200.  When
    parsing throws, it writes (a prefix of, and with such a peer
    exactly) the fixed 500 response, which has a [Content-Length: 0] and
    a [Connection: close] header and no [Content-Type].  [Http::create]
    gives the specification's format for every status, with reason OK,
    Bad Request, Not Found, Internal Server Error for 200, 400, 404, 500
    and Unknown for any other status. *)
Theorem handler_responses :
  ∀ (fuel : nat) (inbound : socket) (peer : list TCPServer.send_event),
    (∀ request, HttpMessage.parse fuel inbound = Ret request →
       let body := HttpMessage.body request in
       let response := spec_response (lit "200 OK") (to_string (length body)) body in
       response = Http.create 200 body Http.default_content_type [] ∧
       TCPServer.handle_connection fuel inbound [] = Ret response ∧
       ∃ k, TCPServer.handle_connection fuel inbound peer = Ret (take k response)) ∧
    (∀ e, HttpMessage.parse fuel inbound = Throw e →
       TCPServer.handle_connection fuel inbound [] = Ret TCPServer.error_response ∧
       ∃ k, TCPServer.handle_connection fuel inbound peer
            = Ret (take k TCPServer.error_response)) ∧
    TCPServer.error_response
      = lit "HTTP/1.1 500 Internal Server Error" ++ CRLF ++
        lit "Content-Length: 0" ++ CRLF ++ lit "Connection: close" ++ CRLF ++ CRLF ∧
    (∀ status content,
       Http.create status content Http.default_content_type []
       = spec_response
           (to_string_int status ++ lit " " ++ Http.get_status_message status)
           (to_string (length content)) content) ∧
    Http.get_status_message 200 = lit "OK" ∧
    Http.get_status_message 400 = lit "Bad Request" ∧
    Http.get_status_message 404 = lit "Not Found" ∧
    Http.get_status_message 500 = lit "Internal Server Error" ∧
    (∀ status, status ≠ 200%Z → status ≠ 400%Z → status ≠ 404%Z →
               status ≠ 500%Z →
               Http.get_status_message status = lit "Unknown").
Proof.
  intros fuel inbound peer. split_and!; try reflexivity.
  - intros request Hp body response. split_and!.
    + unfold response. by rewrite create_form.
    + unfold TCPServer.handle_connection. rewrite Hp.
      rewrite send_all_reliable. cbn [app]. rewrite send_all_reliable.
      f_equal. apply echo_response_form.
    + destruct (handle_connection_success fuel inbound peer request Hp)
        as [k Hk].
      exists k. rewrite Hk. unfold response, body.
      by rewrite echo_response_form.
  - intros e Hp. split.
    + unfold TCPServer.handle_connection. rewrite Hp.
      by rewrite send_all_reliable.
    + by apply handle_connection_failure with e.
  - apply create_form.
  - intros status H1 H2 H3 H4. unfold Http.get_status_message.
    by rewrite !decide_False by done.
Qed.

(** The echo of scenario 2 of the specification, through
    [handler_responses]. *)
Lemma handler_responses_witness :
  TCPServer.handle_connection 3 [Segment EchoRequest.request] []
  = Ret (spec_response (lit "200 OK") (lit "11") (lit "hello world")).
Proof.
  assert (Hp : HttpMessage.parse 3 [Segment EchoRequest.request]
               = Ret EchoRequest.message) by (vm_compute; reflexivity).
  exact (proj1 (proj2
    (proj1 (handler_responses 3 [Segment EchoRequest.request] []) _ Hp))).
Defined.

(* ================================================================== *)
(** * C6: read_fixed *)
(* ================================================================== *)

(** C6 (code at the failing input).  The client sends the header block
    in one segment and anything at all after it ([rest]): five body
    bytes, fewer, or nothing before closing.  [read_until] returns the
    header block and leaves the cursor at the end of the 38 bytes read,
    inside the 16 KiB buffer; from there [read_fixed(5)] neither returns
    five bytes nor throws "Short read": it is still looping after any
    number of iterations. *)
Theorem read_fixed_spins_after_partial_refill :
  ∀ (fuel : nat) (rest : socket),
    HttpReader.read_until 2 CRLFCRLF
      (HttpReader.new (Segment PartialBody.head :: rest) HttpReader.DEFAULT_BUFSIZE)
      = Ret (PartialBody.head, PartialBody.after_head rest) ∧
    HttpReader.read_fixed fuel 5 (PartialBody.after_head rest) = OutOfFuel.
Proof.
  intros fuel rest. split.
  - vm_compute. reflexivity.
  - unfold HttpReader.read_fixed. rewrite decide_False by (vm_compute; done).
    apply read_fixed_loop_spins.
    + apply Nat.ltb_lt. vm_compute. reflexivity.
    + reflexivity.
    + reflexivity.
Qed.

(* ================================================================== *)
(** * C7: parsing does not always stop *)
(* ================================================================== *)

Section ParseSpins.
Import HttpReader HttpMessage.

Lemma parse_headers_spins fuel data headers end0 end_ :
  find data CRLF 0 = Some end0 →
  end0 + 2 < length data →
  find data CRLF (end0 + 2) = Some end_ →
  substr data (end0 + 2) (end_ - (end0 + 2)) ≠ [] →
  find (substr data (end0 + 2) (end_ - (end0 + 2))) [":"%char] 0 = None →
  parse_headers fuel data headers = OutOfFuel.
Proof.
  intros H0 H1 H2 H3 H4. unfold parse_headers. rewrite H0.
  by eapply parse_headers_loop_spins.
Qed.

Lemma colonless_head_read :
  read_until 2 CRLFCRLF (new [Segment ColonlessLine.request] DEFAULT_BUFSIZE)
  = Ret (ColonlessLine.request, ColonlessLine.after_request).
Proof. vm_compute. reflexivity. Qed.

End ParseSpins.

(** C7 (code at the failing input).  On the request
    ["GET / HTTP/1.1\r\nHost\r\n\r\n"], whose header line has no colon,
    [HttpMessage::parse] neither produces a message nor fails: it is
    still running after any number of loop iterations. *)
Theorem parse_spins_on_colonless_header_line :
  ∀ fuel : nat,
    HttpMessage.parse fuel [Segment ColonlessLine.request] = OutOfFuel.
Proof.
  intros fuel. unfold HttpMessage.parse.
  destruct (read_until_cases _ _ _ _ colonless_head_read fuel) as [E|E];
    rewrite E; [done|].
  cbn [mbind outcome_bind].
  replace (HttpMessage.parse_start_line ColonlessLine.request)
    with (@Ret bytes (lit "GET / HTTP/1.1")) by (vm_compute; reflexivity).
  cbn [mbind outcome_bind].
  rewrite (parse_headers_spins fuel ColonlessLine.request ∅ 14 20); try done.
  apply Nat.ltb_lt. vm_compute. reflexivity.
Qed.

(* ================================================================== *)
(** * C8: the worker pool *)
(* ================================================================== *)

Section Pool.
Import MultiThreadedTCPServer.

Lemma drain_queue_spec queue closed :
  drain_queue queue closed = ([], closed ++ queue).
Proof.
  revert closed. induction queue as [|fd queue IH]; intros closed; simpl.
  - by rewrite app_nil_r.
  - by rewrite IH, <- app_assoc.
Qed.

Lemma omap_holding_middle (l1 l2 : list worker_state) w :
  omap holding (l1 ++ w :: l2)
  ≡ₚ option_list (holding w) ++ omap holding (l1 ++ l2).
Proof.
  rewrite !omap_app. cbn [omap list_omap].
  destruct (holding w); simpl; [|done]. symmetry. apply Permutation_middle.
Qed.

(** Changing the state of one worker changes what it holds, and
    nothing else. *)
Lemma in_flight_insert (ws : list worker_state) i w w' :
  ws !! i = Some w →
  omap holding (<[i := w']> ws) ++ option_list (holding w)
  ≡ₚ omap holding ws ++ option_list (holding w').
Proof.
  intros Hi. rewrite <- (take_drop_middle ws i w Hi) at 2.
  rewrite insert_take_drop by (by eapply lookup_lt_Some).
  rewrite !omap_holding_middle.
  rewrite <- !app_assoc.
  rewrite (Permutation_app_comm (omap holding _) (option_list (holding w))).
  rewrite (Permutation_app_comm (omap holding _) (option_list (holding w'))).
  rewrite !app_assoc.
  apply Permutation_app_tail. apply Permutation_app_comm.
Qed.

Lemma in_flight_all_exited (ws : list worker_state) :
  Forall (λ w, w = Exited) ws → omap holding ws = [].
Proof. induction 1 as [|w ws -> _ IH]; [done|]. simpl. done. Qed.

(** A step moves a connection from one place to the next and loses or
    duplicates none. *)
Lemma step_accounted l s s' :
  step l s = Some s' →
  accounted s' ≡ₚ accounted s ++ submitted [l].
Proof.
  destruct s as [p fd n ws q stop stopping h u].
  unfold step, accounted, in_flight, set_worker, submitted;
    destruct l as [c|i|i| |]; cbn [omap list_omap port server_fd num_threads
      workers client_queue stop_requested MultiThreadedTCPServer.stopping
      handled unprocessed]; rewrite ?app_nil_r.
  - intros [= <-]. cbn [client_queue workers handled unprocessed].
    rewrite (Permutation_app_comm (q ++ _) [c]).
    rewrite <- (app_assoc q [c]). simpl. symmetry. apply Permutation_middle.
  - destruct (ws !! i) as [[|c|]|] eqn:Hi; try done.
    destruct (bool_decide (q ≠ []) || stop); [|done].
    destruct (stop && bool_decide (q = [])).
    + intros [= <-]. cbn [client_queue workers handled unprocessed].
      pose proof (in_flight_insert ws i Waiting Exited Hi) as H.
      simpl in H. rewrite !app_nil_r in H. by rewrite H.
    + destruct q as [|c q]; intros [= <-];
        cbn [client_queue workers handled unprocessed]; [done|].
      pose proof (in_flight_insert ws i Waiting (Handling c) Hi) as H.
      simpl in H. rewrite app_nil_r in H. rewrite H.
      rewrite <- (app_assoc _ [c]). simpl.
      rewrite (app_assoc q). rewrite <- Permutation_middle.
      by rewrite <- app_assoc.
  - destruct (ws !! i) as [[|c|]|] eqn:Hi; try done.
    intros [= <-]. cbn [client_queue workers handled unprocessed].
    pose proof (in_flight_insert ws i (Handling c) Waiting Hi) as H.
    simpl in H. rewrite app_nil_r in H. rewrite <- H.
    rewrite fmap_app. simpl.
    apply Permutation_app_head. rewrite <- !app_assoc.
    apply Permutation_app_head. simpl. symmetry. apply Permutation_middle.
  - destruct stop; intros [= <-]; done.
  - destruct (stopping && bool_decide (Forall (λ w, w = Exited) ws)) eqn:E; [|done].
    apply andb_prop in E as [_ Hall%bool_decide_eq_true_1].
    rewrite drain_queue_spec. intros [= <-].
    cbn [client_queue workers handled unprocessed omap list_omap app].
    rewrite in_flight_all_exited by done. cbn [app].
    rewrite (app_assoc _ u q). apply Permutation_app_comm.
Qed.

(** Along a run, the connections the server knows of are the
    connections submitted, each as many times as it was submitted. *)
Lemma exec_accounted trace s s' :
  exec trace s = Some s' →
  accounted s' ≡ₚ accounted s ++ submitted trace.
Proof.
  revert s. induction trace as [|l trace IH]; intros s; simpl.
  - intros [= <-]. unfold submitted. simpl. by rewrite app_nil_r.
  - destruct (step l s) as [s1|] eqn:E; [|done]. intros H.
    rewrite (IH _ H). rewrite (step_accounted _ _ _ E).
    rewrite <- app_assoc. apply Permutation_app_head.
    unfold submitted. simpl. by destruct l.
Qed.

Lemma exec_app trace1 trace2 s :
  exec (trace1 ++ trace2) s = exec trace1 s ≫= exec trace2.
Proof.
  revert s. induction trace1 as [|l trace1 IH]; intros s; simpl; [done|].
  destruct (step l s); [apply IH | done].
Qed.

Lemma accounted_start listen_fd port threads server :
  new port threads = Ret server →
  accounted (start listen_fd server) = [].
Proof.
  unfold new. case_decide; [done|]. intros [= <-].
  unfold start, accounted, in_flight. simpl.
  generalize (N.to_nat (if decide (0 < threads)%N then threads else 4%N)).
  intros k. rewrite !app_nil_r. induction k as [|k IH]; [done|]. done.
Qed.

Lemma times_handled_NoDup (h : list (nat * conn)) c :
  NoDup (snd <$> h) → length (filter (λ e, e.2 = c) h) ≤ 1.
Proof.
  induction h as [|[i c'] h IH]; simpl; [lia|].
  intros [Hc' Hh]%NoDup_cons. specialize (IH Hh).
  rewrite filter_cons. simpl. case_decide as E; [|done]. subst c'.
  simpl. destruct (filter _ h) as [|[j c''] l] eqn:F; [simpl; lia|].
  exfalso. apply Hc'.
  assert (Hin : (j, c'') ∈ filter (λ e : nat * conn, e.2 = c) h)
    by (rewrite F; left).
  apply list_elem_of_filter in Hin as [Hc'' Hin]. simpl in Hc''. subst c''.
  apply list_elem_of_fmap. by exists (j, c).
Qed.


Lemma submitted_cons l trace : submitted (l :: trace) = submitted [l] ++ submitted trace.
Proof. unfold submitted. by destruct l. Qed.

Lemma submitted_app trace1 trace2 :
  submitted (trace1 ++ trace2) = submitted trace1 ++ submitted trace2.
Proof. unfold submitted. apply omap_app. Qed.

Lemma insert_not_nil {A} (l : list A) i x : l ≠ [] → <[i := x]> l ≠ [].
Proof.
  intros H E. apply H. apply (f_equal length) in E.
  rewrite length_insert in E. by destruct l.
Qed.

Lemma running_start listen_fd port threads server :
  new port threads = Ret server → running (start listen_fd server).
Proof.
  unfold new. case_decide as Hn; [done|]. intros [= <-].
  unfold start, running. cbn. split_and!; try done.
  - destruct (N.to_nat _) eqn:E; [lia|done].
  - apply Forall_replicate. done.
Qed.

Lemma step_running l s s' :
  l ≠ StopBegin → running s → step l s = Some s' → running s'.
Proof.
  intros Hl (Hstop & Hstopping & Hu & Hw & Hex).
  destruct s as [p fd n ws q stop stopping h u]. simpl in *. subst.
  destruct l as [c|i|i| |]; cbn [step client_queue workers stop_requested
                                 MultiThreadedTCPServer.stopping unprocessed];
    try done.
  - intros [= <-]. done.
  - destruct (ws !! i) as [[| |]|] eqn:Ei; try done.
    rewrite orb_false_r. cbn [andb].
    destruct (bool_decide (q ≠ [])); [|done].
    destruct q as [|c q]; intros [= <-]; [done|].
    unfold running. cbn. split_and!; try done.
    + by apply insert_not_nil.
    + apply Forall_insert; done.
  - destruct (ws !! i) as [[| |]|] eqn:Ei; try done.
    intros [= <-]. unfold running. cbn. split_and!; try done.
    + by apply insert_not_nil.
    + apply Forall_insert; done.
Qed.

Lemma exec_running trace s s' :
  StopBegin ∉ trace → running s → exec trace s = Some s' → running s'.
Proof.
  revert s. induction trace as [|l trace IH]; intros s Hl Hs; cbn [exec].
  - by intros [= <-].
  - apply not_elem_of_cons in Hl as [Hl Htrace].
    destruct (step l s) as [s1|] eqn:E; [|done].
    apply IH; [done|]. by eapply step_running.
Qed.

Lemma Exists_insert_inv (ws : list worker_state) i w :
  w ≠ Exited →
  Exists (λ w, w = Exited) (<[i := w]> ws) → Exists (λ w, w = Exited) ws.
Proof.
  intros Hw. rewrite !Exists_exists.
  intros (x & Hin & ->). exists Exited. split; [|done].
  apply list_elem_of_lookup in Hin as [j Hj].
  destruct (decide (i = j)) as [->|Hne].
  - pose proof (lookup_lt_Some _ _ _ Hj) as Hlt. rewrite length_insert in Hlt.
    rewrite list_lookup_insert_eq in Hj by done. congruence.
  - rewrite list_lookup_insert_ne in Hj by done. by eapply list_elem_of_lookup_2.
Qed.

Lemma step_draining early l s s' :
  (∀ c, l = Push c → c ∉ early) →
  draining early s → step l s = Some s' → draining early s'.
Proof.
  intros Hl (Hstop & Hd).
  destruct s as [p fd n ws q stop stopping h u]. simpl in *. subst.
  destruct l as [c|i|i| |]; cbn [step client_queue workers stop_requested
                                 MultiThreadedTCPServer.stopping unprocessed].
  - intros [= <-]. split; [done|]. cbn. intros Hs.
    destruct (Hd Hs) as (Hu & Hw & Hq). split_and!; try done.
    intros Hex c' [Hc'| ->%list_elem_of_singleton]%elem_of_app.
    + by apply Hq.
    + by apply Hl.
  - destruct (ws !! i) as [[| |]|] eqn:Ei; try done.
    rewrite orb_true_r. cbn [andb].
    case_bool_decide as Hq0.
    + intros [= <-]. split; [done|]. cbn. intros Hs.
      destruct (Hd Hs) as (Hu & Hw & Hq). split_and!; try done.
      * by apply insert_not_nil.
      * subst q. intros _ c Hc. by apply elem_of_nil in Hc.
    + destruct q as [|c q]; [done|]. intros [= <-]. split; [done|]. cbn.
      intros Hs. destruct (Hd Hs) as (Hu & Hw & Hq). split_and!; try done.
      * by apply insert_not_nil.
      * intros Hex%Exists_insert_inv c' Hc'; [|done]. apply Hq; [done|]. by right.
  - destruct (ws !! i) as [[| |]|] eqn:Ei; try done.
    intros [= <-]. split; [done|]. cbn. intros Hs.
    destruct (Hd Hs) as (Hu & Hw & Hq). split_and!; try done.
    + by apply insert_not_nil.
    + intros Hex%Exists_insert_inv c' Hc'; [|done]. by apply Hq.
  - intros [= <-]. by split.
  - destruct (stopping && _); [|done]. rewrite drain_queue_spec.
    intros [= <-]. split; [done|]. cbn. done.
Qed.

Lemma exec_draining early trace s s' :
  (∀ c, c ∈ submitted trace → c ∉ early) →
  draining early s → exec trace s = Some s' → draining early s'.
Proof.
  revert s. induction trace as [|l trace IH]; intros s Hl Hs; cbn [exec].
  - by intros [= <-].
  - destruct (step l s) as [s1|] eqn:E; [|done].
    apply IH.
    + intros c Hc. apply Hl. rewrite submitted_cons. apply elem_of_app. by right.
    + eapply step_draining; [|done..]. intros c ->. apply Hl.
      rewrite submitted_cons. apply elem_of_app. left. by left.
Qed.


Lemma handled_once (h : list (nat * conn)) c :
  NoDup (snd <$> h) → c ∈ snd <$> h → length (filter (λ e, e.2 = c) h) = 1.
Proof.
  intros Hnd Hin. pose proof (times_handled_NoDup _ c Hnd) as Hle.
  apply list_elem_of_fmap in Hin as ([i c0] & -> & Hin).
  assert (Hf : (i, c0) ∈ filter (λ e : nat * nat, e.2 = (i, c0).2) h)
    by (by apply list_elem_of_filter).
  destruct (filter _ _) as [|? [|? ?]]; simpl in *; [|done|lia].
  by apply elem_of_nil in Hf.
Qed.


(** A run in which [stop()] is called and returns: when it returns, no
    worker and no queued connection is left, every connection is
    either handled or closed unprocessed, and what is closed
    unprocessed was not pushed before the call. *)
Lemma stop_returns listen_fd port threads server before_stop during_stop s :
  new port threads = Ret server →
  StopBegin ∉ before_stop →
  NoDup (submitted (before_stop ++ during_stop)) →
  exec (before_stop ++ StopBegin :: during_stop ++ [StopJoin])
       (start listen_fd server) = Some s →
  client_queue s = [] ∧ workers s = [] ∧
  stop_requested s = true ∧ stopping s = false ∧
  (snd <$> handled s) ++ unprocessed s
    ≡ₚ submitted before_stop ++ submitted during_stop ∧
  ∀ c, c ∈ unprocessed s → c ∉ submitted before_stop.
Proof.
  intros Hnew Hbefore Hnodup Hexec.
  pose proof (exec_accounted _ _ _ Hexec) as Hperm.
  rewrite (accounted_start _ _ _ _ Hnew) in Hperm. cbn [app] in Hperm.
  set (s0 := start listen_fd server) in *.
  rewrite submitted_app, submitted_cons, submitted_app in Hperm.
  cbn [submitted omap list_omap app] in Hperm.
  rewrite app_nil_r in Hperm.
  rewrite submitted_app in Hnodup.
  (* up to the call of stop() *)
  rewrite exec_app in Hexec.
  destruct (exec before_stop s0) as [s1|] eqn:E1; [|done].
  cbn [mbind option_bind exec] in Hexec.
  pose proof (exec_running _ _ _ Hbefore (running_start _ _ _ _ Hnew) E1)
    as (Hstop1 & Hstopping1 & Hu1 & Hw1 & Hex1).
  destruct (step StopBegin s1) as [s2|] eqn:E2; [|done].
  assert (Hdrain : draining (submitted before_stop) s2).
  { revert E2. cbn [step]. rewrite Hstop1.
    intros [= <-]. split; [done|]. cbn. intros _. split_and!; try done.
    intros Hex. exfalso. apply Exists_exists in Hex as (w & Hin & ->).
    rewrite Forall_forall in Hex1. by apply (Hex1 _ Hin). }
  (* while stop() waits for the workers *)
  rewrite exec_app in Hexec.
  destruct (exec during_stop s2) as [s3|] eqn:E3; [|done].
  cbn [mbind option_bind exec] in Hexec.
  apply (exec_draining (submitted before_stop)) in E3;
    [|by intros c' Hc' Hc''; apply NoDup_app in Hnodup as (_ & Hdis & _);
         apply (Hdis c')|done].
  destruct E3 as (Hstop3 & Hd3).
  (* the joins are over *)
  destruct (step StopJoin s3) as [s4|] eqn:E4; [|done].
  injection Hexec as ->.
  revert E4. cbn [step].
  destruct (stopping s3) eqn:Hs3; [|done]. cbn [andb].
  case_bool_decide as Hall; [|done]. rewrite drain_queue_spec. intros [= <-].
  destruct (Hd3 eq_refl) as (Hu3 & Hw3 & Hq3).
  assert (Hex3 : Exists (λ w, w = Exited) (workers s3)).
  { destruct (workers s3) as [|w ws]; [done|].
    apply Forall_cons in Hall as [-> _]. by left. }
  specialize (Hq3 Hex3).
  unfold accounted, in_flight in Hperm.
  cbn [client_queue workers handled unprocessed omap list_omap app] in Hperm.
  cbn [client_queue workers handled unprocessed stop_requested
       MultiThreadedTCPServer.stopping].
  rewrite Hu3 in *. cbn [app] in *.
  split_and!; done.
Qed.

End Pool.




(* ================================================================== *)
(** * C10: what read_chunked accepts as a chunk size *)
(* ================================================================== *)

Section ChunkSize.
Import HttpReader Chunked.

Lemma hex_not_space c : is_hex c → isspace c = false.
Proof. intros H. by_cases_on_char c H. Qed.

Lemma hex_not_sign c : is_hex c → c ≠ "+"%char ∧ c ≠ "-"%char.
Proof. intros H. split; by_cases_on_char c H. Qed.

Lemma hex_not_x c : is_hex c → c ≠ "x"%char ∧ c ≠ "X"%char.
Proof. intros H. split; by_cases_on_char c H. Qed.

Lemma skip_spaces_app ws s :
  Forall (λ c, isspace c = true) ws →
  (∀ c, head s = Some c → isspace c = false) →
  skip_spaces (ws ++ s) = s.
Proof.
  intros Hws Hs. induction Hws as [|c ws Hc _ IH]; simpl.
  - destruct s as [|c s]; [done|]. simpl. by rewrite (Hs c).
  - by rewrite Hc.
Qed.

Lemma scan_digits_app digits rest acc :
  Forall is_hex digits →
  (∀ c, head rest = Some c → ¬ is_hex c) →
  scan_digits 16 (digits ++ rest) acc
  = (foldl (λ acc c, acc * 16 + default 0 (digit_in_base 16 c))%N acc digits,
     length digits).
Proof.
  intros Hd Hrest. revert acc. induction Hd as [|c digits Hc _ IH]; intros acc.
  - simpl. destruct rest as [|c rest]; [done|]. simpl.
    destruct (digit_in_base 16 c) eqn:E; [|done].
    destruct (Hrest c eq_refl). by eexists.
  - cbn [app scan_digits foldl length]. destruct Hc as [d Hd]. rewrite Hd.
    by rewrite IH.
Qed.

Lemma strip_sign_shape sign s :
  sign ∈ [[]; lit "+"; lit "-"] →
  (∀ c, head s = Some c → c ≠ "+"%char ∧ c ≠ "-"%char) →
  strip_sign (sign ++ s) = (bool_decide (sign = lit "-"), s).
Proof.
  intros Hsign Hs.
  rewrite !elem_of_cons in Hsign. destruct Hsign as [->|[->|[->|[]%elem_of_nil]]].
  - simpl. destruct s as [|c s]; [done|]. simpl.
    destruct (Hs c eq_refl). by rewrite !decide_False by done.
  - reflexivity.
  - reflexivity.
Qed.

Lemma strip_0x_shape ox digits rest :
  ox ∈ [[]; lit "0x"; lit "0X"] →
  digits ≠ [] → Forall is_hex digits →
  (ox = [] → digits = lit "0" →
     ∀ x h t, rest = x :: h :: t → x = "x"%char ∨ x = "X"%char → ¬ is_hex h) →
  strip_0x 16 (ox ++ digits ++ rest) = digits ++ rest.
Proof.
  intros Hox Hne Hd Hamb.
  destruct digits as [|d ds]; [done|]. apply Forall_cons in Hd as [Hd Hds].
  rewrite !elem_of_cons in Hox. destruct Hox as [->|[->|[->|[]%elem_of_nil]]].
  - cbn [app]. unfold strip_0x.
    destruct (ds ++ rest) as [|x [|h t]] eqn:E; [done|done|].
    cbn [bool_decide decide_rel]. rewrite bool_decide_eq_true_2 by done.
    destruct (decide (d = "0"%char)) as [->|Hd0];
      [|by rewrite (bool_decide_eq_false_2 (d = "0"%char)) by done].
    destruct ds as [|d2 ds].
    + simpl in E. subst rest.
      destruct (decide (x = "x"%char ∨ x = "X"%char)) as [Hx|Hx].
      * rewrite (bool_decide_eq_false_2 (is_Some _)).
        -- by rewrite andb_false_r.
        -- by apply (Hamb eq_refl eq_refl x h t).
      * rewrite !(bool_decide_eq_false_2 (x = _)) by tauto. done.
    + apply Forall_cons in Hds as [Hd2 _]. simpl in E. injection E as <- _.
      destruct (hex_not_x _ Hd2).
      by rewrite !(bool_decide_eq_false_2 (d2 = _)) by done.
  - cbn [app lit list_ascii_of_string]. unfold strip_0x.
    rewrite (bool_decide_eq_true_2 (is_Some _)) by done. done.
  - cbn [app lit list_ascii_of_string]. unfold strip_0x.
    rewrite (bool_decide_eq_true_2 (is_Some _)) by done. done.
Qed.

(** What [std::stoul] makes of a line in base 16: white space, an
    optional sign, an optional [0x], hexadecimal digits, and anything
    that does not continue the number. *)
Lemma stoul_16_shape ws sign ox digits rest :
  Forall (λ c, isspace c = true) ws →
  sign ∈ [[]; lit "+"; lit "-"] →
  ox ∈ [[]; lit "0x"; lit "0X"] →
  digits ≠ [] → Forall is_hex digits →
  (∀ c, head rest = Some c → ¬ is_hex c) →
  (ox = [] → digits = lit "0" →
     ∀ x h t, rest = x :: h :: t → x = "x"%char ∨ x = "X"%char → ¬ is_hex h) →
  (hex_value digits ≤ ULONG_MAX)%N →
  stoul (ws ++ sign ++ ox ++ digits ++ rest) 16
  = Ret (if decide (sign = lit "-")
         then ((2 ^ 64 - hex_value digits) mod 2 ^ 64)%N
         else hex_value digits).
Proof.
  intros Hws Hsign Hox Hne Hd Hrest Hamb Hmax. unfold stoul.
  assert (Hhead : ∀ c, head (ox ++ digits ++ rest) = Some c →
            isspace c = false ∧ c ≠ "+"%char ∧ c ≠ "-"%char).
  { intros c Hc. destruct digits as [|d ds]; [done|].
    apply Forall_cons in Hd as [Hd _].
    assert (is_hex c) as Hhex.
    { rewrite !elem_of_cons in Hox.
      destruct Hox as [->|[->|[->|[]%elem_of_nil]]]; simpl in Hc;
        injection Hc as <-; [done| |]; by eexists. }
    split; [by apply hex_not_space | by apply hex_not_sign]. }
  rewrite skip_spaces_app; [|done|].
  2:{ intros c Hc. rewrite !elem_of_cons in Hsign.
      destruct Hsign as [->|[->|[->|[]%elem_of_nil]]]; simpl in Hc.
      - by apply Hhead.
      - by injection Hc as <-.
      - by injection Hc as <-. }
  rewrite strip_sign_shape; [|done|intros c Hc; by apply Hhead].
  rewrite strip_0x_shape by done.
  rewrite scan_digits_app by done. fold (hex_value digits).
  rewrite decide_False by (by destruct digits).
  rewrite decide_False by lia.
  by destruct (decide (sign = lit "-")) as [->|];
    [rewrite bool_decide_eq_true_2 | rewrite bool_decide_eq_false_2].
Qed.




Lemma resize_minus_2_app line : resize_minus_2 (line ++ CRLF) = Ret line.
Proof.
  unfold resize_minus_2. rewrite length_app. simpl.
  rewrite decide_False by lia.
  replace (length line + 2 - 2) with (length line) by lia.
  by rewrite take_app_length.
Qed.

End ChunkSize.

(* ================================================================== *)
(** * C9: chunked bodies that cross a refill *)
(* ================================================================== *)

Lemma chunked_size_line_read :
  HttpReader.read_until 2 CRLF
    (HttpReader.new ChunkedSplit.cut_in_data HttpReader.DEFAULT_BUFSIZE)
  = Ret (lit "2" ++ CRLF, ChunkedSplit.after_size_line).
Proof. vm_compute. reflexivity. Qed.

(** C9 (code at the failing inputs).  The body ["ab"] is encoded as
    ["2\r\nab\r\n0\r\n\r\n"].  When the stream reaches the reader in two
    refills cut inside the chunk data, [read_chunked] never returns; cut
    inside the CRLF that ends the chunk, it throws "Invalid chunk size".
    In neither case is the body given back. *)
Theorem read_chunked_loses_bodies_that_cross_a_refill :
  ∀ fuel : nat,
    ChunkedSplit.encoded
      = lit "2" ++ CRLF ++ lit "ab" ++ CRLF ++ lit "0" ++ CRLF ++ CRLF ∧
    Chunked.read_chunked fuel
      (HttpReader.new ChunkedSplit.cut_in_data HttpReader.DEFAULT_BUFSIZE)
      = OutOfFuel ∧
    Chunked.read_chunked (2 + fuel)
      (HttpReader.new ChunkedSplit.cut_in_crlf HttpReader.DEFAULT_BUFSIZE)
      = Throw InvalidChunkSize.
Proof.
  intros fuel. split_and!.
  - vm_compute. reflexivity.
  - unfold Chunked.read_chunked. destruct fuel as [|fuel]; [done|].
    cbn [Chunked.read_chunked_loop].
    destruct (read_until_cases _ _ _ _ chunked_size_line_read (S fuel))
      as [E|E]; rewrite E; [done|].
    cbn [mbind outcome_bind].
    replace (Chunked.resize_minus_2 (lit "2" ++ CRLF))
      with (@Ret bytes (lit "2")) by (vm_compute; reflexivity).
    cbn [mbind outcome_bind].
    replace (catch_all (stoul (lit "2") 16) InvalidChunkSize)
      with (@Ret N 2%N) by (vm_compute; reflexivity).
    cbn [mbind outcome_bind]. rewrite decide_False by done.
    unfold HttpReader.read_fixed. rewrite decide_False by (vm_compute; done).
    rewrite read_fixed_loop_spins_short; [done| | |].
    + apply Nat.leb_le. vm_compute. reflexivity.
    + apply Nat.ltb_lt. vm_compute. reflexivity.
    + vm_compute. reflexivity.
  - assert (H2 : Chunked.read_chunked 2
      (HttpReader.new ChunkedSplit.cut_in_crlf HttpReader.DEFAULT_BUFSIZE)
      = Throw InvalidChunkSize) by (vm_compute; reflexivity).
    rewrite <- H2. apply (read_chunked_mono _ 2 (2 + fuel)); [lia|].
    by rewrite H2.
Qed.

(* ================================================================== *)
(** * C9, continued: chunked bodies that arrive in one refill *)
(* ================================================================== *)

Section RoundTrip.
Import HttpReader Chunked.

Lemma hex_digit_value d :
  (d < 16)%N → digit_in_base 16 (hex_digit d) = Some d.
Proof.
  intros Hd. destruct d as [|p]; [reflexivity|].
  do 5 (destruct p as [p|p|]; try lia; try reflexivity).
Qed.

Lemma to_hex_aux_is_hex fuel n acc :
  Forall is_hex acc → Forall is_hex (to_hex_aux fuel n acc).
Proof.
  revert n acc. induction fuel as [|fuel IH]; intros n acc Hacc; [done|].
  assert (Forall is_hex (hex_digit (n mod 16) :: acc)).
  { constructor; [|done]. exists (n mod 16)%N. apply hex_digit_value.
    by apply N.mod_lt. }
  simpl. destruct (n <? 16)%N; [done|by apply IH].
Qed.

Lemma to_hex_aux_not_nil fuel n acc : to_hex_aux (S fuel) n acc ≠ [].
Proof.
  revert n acc. induction fuel as [|fuel IH]; intros n acc.
  - simpl. by destruct (n <? 16)%N.
  - cbn [to_hex_aux]. destruct (n <? 16)%N; [done|]. apply IH.
Qed.

Lemma to_hex_aux_value fuel n acc a0 :
  (n < N.of_nat fuel)%N →
  ∃ k, foldl (λ acc c, acc * 16 + default 0 (digit_in_base 16 c))%N a0
             (to_hex_aux fuel n acc)
       = foldl (λ acc c, acc * 16 + default 0 (digit_in_base 16 c))%N
               (a0 * 16 ^ k + n)%N acc.
Proof.
  revert n acc a0. induction fuel as [|fuel IH]; intros n acc a0 Hn; [lia|].
  cbn [to_hex_aux]. destruct (N.ltb_spec n 16) as [Hlt|Hge].
  - exists 1%N. cbn [foldl]. rewrite hex_digit_value by (by apply N.mod_lt).
    cbn [default]. unfold id. rewrite N.mod_small by done. f_equal; lia.
  - destruct (IH (n / 16)%N (hex_digit (n mod 16) :: acc) a0) as [k Hk].
    { assert (n / 16 < n)%N by (apply N.div_lt; lia). lia. }
    exists (k + 1)%N. rewrite Hk. cbn [foldl].
    rewrite hex_digit_value by (by apply N.mod_lt). cbn [default]. f_equal.
    rewrite N.pow_add_r, N.pow_1_r.
    unfold id. pose proof (N.div_mod n 16 ltac:(lia)). nia.
Qed.

(** [std::stoul] reads back the size that the encoder wrote. *)
Lemma stoul_hex_size n :
  (N.of_nat n ≤ ULONG_MAX)%N →
  stoul (spec_hex_size n) 16 = Ret (N.of_nat n).
Proof.
  intros Hn. unfold spec_hex_size.
  assert (Hhex : Forall is_hex (to_hex_aux (S n) (N.of_nat n) []))
    by (by apply to_hex_aux_is_hex).
  destruct (to_hex_aux_value (S n) (N.of_nat n) [] 0) as [k Hk]; [lia|].
  cbn [foldl] in Hk. rewrite N.mul_0_l, N.add_0_l in Hk.
  pose proof (stoul_16_shape [] [] [] (to_hex_aux (S n) (N.of_nat n) []) []) as H.
  rewrite !app_nil_r in H. cbn [app] in H. rewrite H.
  - rewrite decide_False by done. unfold hex_value. by rewrite Hk.
  - constructor.
  - left.
  - left.
  - apply to_hex_aux_not_nil.
  - done.
  - done.
  - done.
  - unfold hex_value. by rewrite Hk.
Qed.

Lemma hex_size_no_LF n : LF ∉ spec_hex_size n.
Proof.
  unfold spec_hex_size. intros Hin.
  assert (Hhex : Forall is_hex (to_hex_aux (S n) (N.of_nat n) []))
    by (by apply to_hex_aux_is_hex).
  rewrite Forall_forall in Hhex. destruct (Hhex LF Hin) as [d Hd].
  vm_compute in Hd. discriminate.
Qed.

Lemma unread_not_nil r :
  bufflen_ r ≤ length (buffer_ r) → unread r ≠ [] →
  pos_ r < bufflen_ r ∧ pos_ r < length (buffer_ r).
Proof.
  intros Hcap Hne. unfold unread in Hne.
  destruct (decide (pos_ r < bufflen_ r)); [lia|].
  replace (bufflen_ r - pos_ r) with 0 in Hne by lia. by rewrite take_0 in Hne.
Qed.

(** Reading a line that is in the unread part of the buffer. *)
Lemma read_until_CRLF_unread fuel r line rest :
  bufflen_ r ≤ length (buffer_ r) →
  unread r = line ++ CRLF ++ rest →
  LF ∉ line →
  ∃ r1, read_until (S fuel) CRLF r = Ret (line ++ CRLF, r1) ∧
        unread r1 = rest ∧
        bufflen_ r1 = bufflen_ r ∧ buffer_ r1 = buffer_ r.
Proof.
  intros Hcap Hun Hlf.
  destruct (unread_not_nil r Hcap) as [Hpos Hpos'].
  { rewrite Hun. by destruct line. }
  assert (Hk : search (unread r) CRLF = Some (length line))
    by (rewrite Hun; by apply search_CRLF).
  destruct (read_until_unread fuel CRLF r (length line)) as [Hread Hun'];
    [done|lia..|done|].
  eexists. split_and!.
  - rewrite Hread. do 2 f_equal. rewrite Hun. rewrite app_assoc.
    replace (length line + length CRLF) with (length (line ++ CRLF))
      by (by rewrite length_app).
    by rewrite take_app_length.
  - rewrite Hun', Hun. rewrite app_assoc.
    replace (length line + length CRLF) with (length (line ++ CRLF))
      by (by rewrite length_app).
    by rewrite drop_app_length.
  - by destruct r.
  - by destruct r.
Qed.

(** Reading chunk data that is in the unread part of the buffer. *)
Lemma read_fixed_data_unread fuel r data rest :
  bufflen_ r ≤ length (buffer_ r) →
  (N.of_nat (length (buffer_ r)) ≤ vector_max_size)%N →
  unread r = data ++ rest → rest ≠ [] →
  ∃ r1, read_fixed (S (S fuel)) (N.of_nat (length data)) r = Ret (data, r1) ∧
        unread r1 = rest ∧
        bufflen_ r1 = bufflen_ r ∧ buffer_ r1 = buffer_ r.
Proof.
  intros Hcap Hmax Hun Hrest.
  destruct (unread_not_nil r Hcap) as [Hpos Hpos'].
  { rewrite Hun. destruct data; [done|done]. }
  assert (Hlen : length (unread r) ≤ bufflen_ r - pos_ r)
    by (unfold unread; rewrite length_take; lia).
  rewrite Hun, length_app in Hlen.
  destruct (read_fixed_unread fuel (length data) r) as [Hread Hun'];
    [lia..|].
  eexists. split_and!.
  - rewrite Hread. do 2 f_equal. rewrite Hun. by rewrite take_app_length.
  - rewrite Hun', Hun. by rewrite drop_app_length.
  - by destruct r.
  - by destruct r.
Qed.

Lemma spec_encode_chunked_cons c chunks :
  spec_encode_chunked (c :: chunks)
  = spec_hex_size (length c) ++ CRLF ++ c ++ CRLF ++ spec_encode_chunked chunks.
Proof.
  unfold spec_encode_chunked, spec_encode_chunk. cbn [fmap list_fmap concat].
  by rewrite <- !app_assoc.
Qed.

(** The decoding loop on a reader whose unread bytes are an encoded
    body. *)
Lemma read_chunked_loop_unread chunks fuel body r :
  Forall (λ c, c ≠ []) chunks →
  bufflen_ r ≤ length (buffer_ r) →
  (N.of_nat (length (buffer_ r)) ≤ vector_max_size)%N →
  unread r = spec_encode_chunked chunks →
  length chunks + 1 < fuel →
  ∃ r', read_chunked_loop fuel body r = Ret (body ++ concat chunks, r').
Proof.
  intros Hne. revert fuel body r.
  induction Hne as [|c chunks Hc _ IH]; intros fuel body r Hcap Hmax Hun Hfuel.
  - destruct fuel as [|fuel]; [simpl in Hfuel; lia|].
    cbn [read_chunked_loop].
    destruct (read_until_CRLF_unread fuel r (lit "0") CRLF Hcap Hun)
      as (r1 & -> & Hun1 & Hb1 & Hbuf1).
    { refine (bool_decide_unpack _ _). vm_compute. exact I. }
    cbn [mbind outcome_bind]. rewrite resize_minus_2_app.
    cbn [mbind outcome_bind].
    replace (stoul (lit "0") 16) with (@Ret N 0%N) by (vm_compute; reflexivity).
    cbn [catch_all mbind outcome_bind]. rewrite decide_True by done.
    destruct (read_until_CRLF_unread fuel r1 [] [])
      as (r2 & -> & _); [congruence|done|apply not_elem_of_nil|].
    cbn [mbind outcome_bind concat]. rewrite app_nil_r. by eexists.
  - destruct fuel as [|fuel]; [simpl in Hfuel; lia|].
    cbn [read_chunked_loop].
    destruct fuel as [|fuel]; [simpl in Hfuel; lia|].
    rewrite spec_encode_chunked_cons in Hun.
    assert (Hsize : (N.of_nat (length c) ≤ N.of_nat (length (buffer_ r)))%N).
    { assert (length (unread r) ≤ length (buffer_ r))
        by (unfold unread; rewrite length_take, length_drop; lia).
      rewrite Hun, !length_app in H. lia. }
    destruct (read_until_CRLF_unread (S fuel) r _ _ Hcap Hun)
      as (r1 & -> & Hun1 & Hb1 & Hbuf1); [apply hex_size_no_LF|].
    cbn [mbind outcome_bind]. rewrite resize_minus_2_app.
    cbn [mbind outcome_bind].
    rewrite stoul_hex_size by (unfold ULONG_MAX, vector_max_size in *; lia).
    cbn [catch_all mbind outcome_bind].
    rewrite decide_False by (destruct c; [done|simpl; lia]).
    destruct (read_fixed_data_unread fuel r1 c (CRLF ++ spec_encode_chunked chunks))
      as (r2 & -> & Hun2 & Hb2 & Hbuf2); [congruence|congruence|done|done|].
    cbn [mbind outcome_bind].
    destruct (read_until_CRLF_unread (S fuel) r2 [] (spec_encode_chunked chunks))
      as (r3 & -> & Hun3 & Hb3 & Hbuf3);
      [congruence|done|apply not_elem_of_nil|].
    cbn [mbind outcome_bind].
    destruct (IH (S fuel) (body ++ c) r3) as [r' ->];
      [congruence|congruence|done|simpl in Hfuel; lia|].
    cbn [concat]. rewrite app_assoc. by eexists.
Qed.

(** The chunked round trip, for a body that reaches the reader in one
    refill: whatever the body and the way it is cut into chunks,
    decoding its encoding gives it back. *)
Lemma read_chunked_round_trip_in_one_refill chunks buf_size fuel :
  Forall (λ c, c ≠ []) chunks →
  length (spec_encode_chunked chunks) ≤ buf_size →
  (N.of_nat buf_size ≤ vector_max_size)%N →
  length chunks + 1 < fuel →
  ∃ r, read_chunked fuel (new [Segment (spec_encode_chunked chunks)] buf_size)
       = Ret (concat chunks, r).
Proof.
  intros Hne Hcap Hmax Hfuel. unfold read_chunked.
  set (data := spec_encode_chunked chunks) in *.
  set (filled := mk [] (data ++ drop (length data) (replicate buf_size NUL))
                    (length data) 0).
  assert (Hlen : length (buffer_ filled) = buf_size).
  { unfold filled. cbn [buffer_].
    rewrite length_app, length_drop, length_replicate. lia. }
  assert (Hun : unread filled = data).
  { unfold unread, filled. cbn [bufflen_ pos_ buffer_].
    by rewrite Nat.sub_0_r, drop_0, take_app_length. }
  assert (Hline : ∃ line rest, data = line ++ CRLF ++ rest ∧ LF ∉ line).
  { unfold data. destruct chunks as [|c chunks].
    - exists (lit "0"), CRLF. split; [done|].
      refine (bool_decide_unpack _ _). vm_compute. exact I.
    - rewrite spec_encode_chunked_cons. eexists _, _. split; [done|].
      apply hex_size_no_LF. }
  destruct Hline as (line & rest & Hdata & Hlf).
  assert (Hdata0 : 0 < length data) by (rewrite Hdata, !length_app; simpl; lia).
  destruct fuel as [|[|fuel]]; [lia..|].
  assert (Hb : bufflen_ filled ≤ length (buffer_ filled))
    by (rewrite Hlen; exact Hcap).
  destruct (read_chunked_loop_unread chunks (S (S fuel)) [] filled)
    as [r' Hloop]; [done|done|by rewrite Hlen|done|done|].
  exists r'. cbn [app] in Hloop. rewrite <- Hloop. cbn [read_chunked_loop].
  rewrite (read_until_first_refill fuel CRLF data [] buf_size (length line));
    [|done|done|done|rewrite Hdata; by apply search_CRLF].
  destruct (read_until_unread (S fuel) CRLF filled (length line)) as [-> _];
    [done|rewrite Hlen; cbn; lia|cbn; lia|done
    |rewrite Hun, Hdata; by apply search_CRLF|].
  rewrite Hun. done.
Qed.

End RoundTrip.

(* ================================================================== *)
(** * The reader and the stream *)
(* ================================================================== *)

Section Stream.
Import HttpReader.

Lemma sys_read_bytes count fd data fd' :
  sys_read count fd = Some (data, fd') →
  socket_bytes fd = data ++ socket_bytes fd'.
Proof.
  destruct fd as [|[d|] fd0]; simpl; intros H; simplify_eq; [done|].
  case_decide; simplify_eq; [done|].
  simpl. by rewrite app_assoc, take_drop.
Qed.

Lemma sys_read_fails count fd data fd' :
  sys_read count fd = Some (data, fd') → ReadFails ∈ fd' → ReadFails ∈ fd.
Proof.
  destruct fd as [|[d|] fd0]; simpl; intros H; simplify_eq; [done|].
  case_decide; simplify_eq.
  - intros ?. by right.
  - intros [?|?]%elem_of_cons; [done|]. by right.
Qed.

Lemma unread_at_end r : length (buffer_ r) ≤ pos_ r → unread r = [].
Proof. intros H. unfold unread. by rewrite drop_ge, take_nil by done. Qed.

Lemma unread_set_pos r n :
  pos_ r + n ≤ bufflen_ r →
  unread (set_pos (pos_ r + n) r) = drop n (unread r).
Proof.
  intros H. unfold unread. destruct r as [fd buf len pos]; simpl in *.
  rewrite skipn_firstn_comm, drop_drop. f_equal; lia.
Qed.

Lemma refill_buffer_pending r r' :
  length (buffer_ r) ≤ pos_ r →
  refill_buffer r = Ret r' →
  pending r' = pending r ∧ unread r' = take (bufflen_ r') (buffer_ r').
Proof.
  intros Hpos. unfold refill_buffer.
  destruct (sys_read _ _) as [[data fd']|] eqn:E; [|done].
  intros [= <-]. unfold pending. rewrite (unread_at_end r) by done.
  unfold unread; simpl. rewrite Nat.sub_0_r.
  split; [|done]. rewrite drop_0, take_app_length. symmetry. by eapply sys_read_bytes.
Qed.

(** One scan of [read_until] gives the bytes it takes out of the
    buffer to the result. *)
Lemma read_until_loop_pending fuel delimiter result r out r' :
  cursor_ok r →
  read_until_loop fuel delimiter result r = Ret (out, r') →
  out ++ pending r' = result ++ pending r ∧
  ((∃ before, out = before ++ delimiter) ∨ bufflen_ r' = 0).
Proof.
  revert result r. induction fuel as [|fuel IH]; intros result r Hr; [done|].
  assert (Hscan : ∀ r0, bufflen_ r0 ≤ length (buffer_ r0) → pos_ r0 ≤ bufflen_ r0 →
            scan_buffer delimiter result r0 (read_until_loop fuel delimiter)
              = Ret (out, r') →
            out ++ pending r' = result ++ pending r0 ∧
            ((∃ before, out = before ++ delimiter) ∨ bufflen_ r' = 0)).
  { intros r0 Hb Hle. unfold scan_buffer.
    change (take (bufflen_ r0 - pos_ r0) (drop (pos_ r0) (buffer_ r0)))
      with (unread r0).
    assert (Hnext : read_until_loop fuel delimiter (result ++ unread r0)
                      (set_pos (length (buffer_ r0)) r0) = Ret (out, r') →
              out ++ pending r' = result ++ pending r0 ∧
              ((∃ before, out = before ++ delimiter) ∨ bufflen_ r' = 0)).
    { intros H. apply IH in H as [H1 H2].
      2:{ unfold cursor_ok; simpl. lia. }
      split; [|done]. rewrite H1. unfold pending.
      rewrite (unread_at_end (set_pos _ _)) by (simpl; lia). cbn [fd_ set_pos].
      by rewrite <- app_assoc. }
    destruct (search _ _) as [it|] eqn:E; [case_decide|]; [|done..].
    - intros [= <- <-]. pose proof (search_bound _ _ _ E) as Hlen.
      apply search_first in E as [E _].
      assert (Hu : length (unread r0) = bufflen_ r0 - pos_ r0).
      { unfold unread. rewrite length_take, length_drop. lia. }
      assert (Ht : take (it + length delimiter) (drop (pos_ r0) (buffer_ r0))
                   = take (it + length delimiter) (unread r0)).
      { unfold unread. rewrite take_take. f_equal. lia. }
      rewrite Ht. split.
      + unfold pending at 1. rewrite unread_set_pos by lia. cbn [fd_ set_pos].
        unfold pending. rewrite !app_assoc. f_equal.
        rewrite <- app_assoc. f_equal. apply take_drop.
      + left. exists (result ++ take it (unread r0)).
        rewrite <- app_assoc. f_equal.
        rewrite <- (take_drop it (unread r0)) at 1.
        rewrite take_app_add' by (rewrite length_take; lia). f_equal.
        clear -E. revert E. generalize (drop it (unread r0)).
        induction delimiter as [|c d IHd]; intros hay; [by rewrite take_0|].
        destruct hay as [|a hay]; [done|]. simpl.
        intros [->%bool_decide_eq_true_1 H]%andb_prop. f_equal. by apply IHd. }
  simpl. case_decide as Hc.
  - destruct (refill_buffer r) as [r1| |] eqn:E; simpl; try done.
    destruct (refill_buffer_pending _ _ Hc E) as [Hp _].
    apply refill_buffer_ok in E as (Hl & [Hok1 Hok2] & Hp0).
    case_decide.
    + intros [= <- <-]. split; [by rewrite Hp|by right].
    + intros H1. apply Hscan in H1; [|done|lia]. by rewrite <- Hp.
  - intros H1. destruct Hr as [? [?|?]]; [|lia]. by apply Hscan in H1.
Qed.

Lemma read_fixed_loop_pending fuel length_ result r out r' :
  cursor_ok r →
  read_fixed_loop fuel length_ result r = Ret (out, r') →
  out ++ pending r' = result ++ pending r ∧ N.of_nat (length out) = length_.
Proof.
  revert result r. induction fuel as [|fuel IH]; intros result r Hr; [done|].
  assert (Hcopy : ∀ r0, bufflen_ r0 ≤ length (buffer_ r0) → pos_ r0 ≤ bufflen_ r0 →
            copy_buffer length_ result r0 (read_fixed_loop fuel length_)
              = Ret (out, r') →
            out ++ pending r' = result ++ pending r0 ∧
            N.of_nat (length out) = length_).
  { intros r0 Hb Hle. unfold copy_buffer.
    set (to_copy := N.to_nat (N.min _ _)).
    assert (Hto : to_copy ≤ bufflen_ r0 - pos_ r0) by (unfold to_copy; lia).
    intros H. apply IH in H as [H1 H2].
    2:{ unfold cursor_ok; simpl. lia. }
    split; [|done]. rewrite H1. unfold pending at 1.
    rewrite unread_set_pos by lia. cbn [fd_ set_pos]. unfold pending.
    rewrite <- !app_assoc. f_equal. rewrite app_assoc. f_equal.
    replace (take to_copy (drop (pos_ r0) (buffer_ r0)))
      with (take to_copy (unread r0)); [apply take_drop|].
    unfold unread. rewrite take_take. f_equal. lia. }
  simpl. unfold check_length. case_decide.
  - case_decide as Hc.
    + destruct (refill_buffer r) as [r1| |] eqn:E; simpl; try done.
      destruct (refill_buffer_pending _ _ Hc E) as [Hp _].
      apply refill_buffer_ok in E as (Hl & [Hok1 Hok2] & Hp0).
      case_decide.
      * case_decide; [done|]. intros [= <- <-]. by rewrite Hp.
      * intros H1. apply Hcopy in H1; [|done|lia]. by rewrite <- Hp.
    + intros H1. destruct Hr as [? [?|?]]; [|lia]. by apply Hcopy in H1.
  - case_decide as Hn; [done|]. intros [= <- <-]. done.
Qed.

End Stream.

Section StreamMore.
Import HttpReader.

(** Every refill that does not end [read_until] takes at least one byte
    off the socket, so the loop stops. *)
Lemma read_until_loop_returns fuel delimiter result r :
  length (socket_bytes (fd_ r))
    + (if decide (length (buffer_ r) ≤ pos_ r) then 0 else 1) < fuel →
  (∃ out r', read_until_loop fuel delimiter result r = Ret (out, r')) ∨
  (read_until_loop fuel delimiter result r = Throw ReadError ∧ ReadFails ∈ fd_ r).
Proof.
  revert result r. induction fuel as [|fuel IH]; intros result r Hfuel; [lia|].
  assert (Hscan : ∀ r0, length (socket_bytes (fd_ r0)) < fuel →
            (ReadFails ∈ fd_ r0 → ReadFails ∈ fd_ r) →
            (∃ out r', scan_buffer delimiter result r0
                         (read_until_loop fuel delimiter) = Ret (out, r')) ∨
            (scan_buffer delimiter result r0 (read_until_loop fuel delimiter)
               = Throw ReadError ∧ ReadFails ∈ fd_ r)).
  { intros r0 Hlt Hin. unfold scan_buffer.
    destruct (search _ _) as [it|];
      [destruct (decide (it ≠ bufflen_ r0 - pos_ r0)); [left; eauto|]|].
    all: destruct (IH (result ++ take (bufflen_ r0 - pos_ r0)
                                   (drop (pos_ r0) (buffer_ r0)))
                      (set_pos (length (buffer_ r0)) r0)) as [Hret|[H1 H2]];
      [cbn [set_pos fd_ buffer_ pos_]; rewrite decide_True by done; lia
      |by left
      |right; split; [done|]; by apply Hin]. }
  cbn [read_until_loop]. case_decide as Hc.
  - unfold refill_buffer.
    destruct (sys_read _ _) as [[data fd']|] eqn:E.
    + cbn [mbind outcome_bind bufflen_]. case_decide as Hz; [left; eauto|].
      apply Hscan; cbn [fd_].
      * apply sys_read_bytes in E. rewrite E, length_app in Hfuel. lia.
      * by eapply sys_read_fails.
    + right. split; [done|].
      destruct (fd_ r) as [|[d|] fd0]; simpl in E; try done.
      * by case_decide.
      * by left.
  - apply Hscan; [lia|done].
Qed.

End StreamMore.

(* ================================================================== *)
(** * C10, continued: the line that read_chunked gives to std::stoul *)
(* ================================================================== *)




(* ================================================================== *)
(** * read_fixed across refills *)
(* ================================================================== *)

Section FullBuffers.
Import HttpReader.

Lemma read_fixed_loop_done fuel n result r :
  length result = n →
  read_fixed_loop (S fuel) (N.of_nat n) result r = Ret (result, r).
Proof.
  intros H. cbn [read_fixed_loop]. rewrite decide_False by lia.
  unfold check_length. by rewrite decide_False by lia.
Qed.

Lemma read_fixed_loop_in_buffer fuel n result r :
  pos_ r ≤ bufflen_ r → bufflen_ r ≤ length (buffer_ r) →
  length result ≤ n → n - length result ≤ bufflen_ r - pos_ r →
  ∃ x, read_fixed_loop (S (S fuel)) (N.of_nat n) result r = Ret x.
Proof.
  intros Hpos Hcap Hres Hn.
  destruct (decide (length result = n)) as [Heq|Hne].
  { eexists. by apply read_fixed_loop_done. }
  cbn [read_fixed_loop]. rewrite decide_True by lia. rewrite decide_False by lia.
  unfold copy_buffer. set (to_copy := N.to_nat (N.min _ _)).
  assert (Hto : to_copy = n - length result) by (unfold to_copy; lia).
  rewrite decide_False.
  - unfold check_length. rewrite decide_False; [eauto|].
    rewrite length_app, length_take, length_drop. lia.
  - rewrite length_app, length_take, length_drop. lia.
Qed.

(** [read_fixed] across refills that fill the buffer.  The refills are
    cut out of one segment [data], so that each of them but the last
    fills the buffer. *)
Lemma read_fixed_loop_full_returns fuel n data rest result r :
  0 < length (buffer_ r) →
  pos_ r ≤ bufflen_ r → bufflen_ r = length (buffer_ r) →
  fd_ r = Segment data :: rest →
  length result ≤ n →
  n - length result ≤ (bufflen_ r - pos_ r) + length data →
  n - length result + 2 ≤ fuel →
  ∃ x, read_fixed_loop fuel (N.of_nat n) result r = Ret x.
Proof.
  revert data result r.
  induction fuel as [|fuel IH]; intros data result r HB Hpos Hfull Hfd Hres Hn Hfuel;
    [lia|].
  destruct (decide (n - length result ≤ bufflen_ r - pos_ r)) as [Hin|Hout].
  { destruct fuel as [|fuel]; [lia|]. apply read_fixed_loop_in_buffer; lia. }
  cbn [read_fixed_loop]. rewrite decide_True by lia.
  case_decide as Hc.
  - (* the cursor is at the end of the buffer: refill *)
    unfold refill_buffer. rewrite Hfd. cbn [sys_read].
    case_decide as Hd; cbn [mbind outcome_bind bufflen_].
    + (* the rest of the segment fits into the buffer *)
      rewrite decide_False by lia.
      unfold copy_buffer. cbn [bufflen_ pos_ buffer_ set_pos fd_].
      set (to_copy := N.to_nat (N.min _ _)).
      assert (Hto : to_copy = n - length result) by (unfold to_copy; lia).
      destruct fuel as [|[|fuel]]; [lia|lia|].
      apply read_fixed_loop_in_buffer; unfold set_pos; cbn [bufflen_ pos_ buffer_];
        lengths; lia.
    + (* a full buffer is cut out of the segment *)
      rewrite length_take. rewrite decide_False by lia.
      unfold copy_buffer. cbn [bufflen_ pos_ buffer_ set_pos fd_].
      set (to_copy := N.to_nat (N.min _ _)).
      set (buf := take _ data ++ _).
      assert (Hbuf : length buf = length (buffer_ r)).
      { unfold buf. rewrite length_app, length_take, length_drop. lia. }
      destruct (decide (n - length result ≤ length (buffer_ r))) as [Hlast|Hmore].
      * assert (Hto : to_copy = n - length result) by (unfold to_copy; lia).
        destruct fuel as [|[|fuel]]; [lia|lia|].
        apply read_fixed_loop_in_buffer; unfold set_pos; cbn [bufflen_ pos_ buffer_];
          lengths; lia.
      * assert (Hto : to_copy = length (buffer_ r)) by (unfold to_copy; lia).
        apply (IH (drop (length (buffer_ r)) data)); unfold set_pos; cbn [bufflen_ pos_ buffer_ fd_];
          rewrite ?Hbuf; lengths; try lia; try done.
  - (* the cursor is inside a full buffer: its rest is copied *)
    unfold copy_buffer. set (to_copy := N.to_nat (N.min _ _)).
    assert (Hto : to_copy = bufflen_ r - pos_ r) by (unfold to_copy; lia).
    apply (IH data); unfold set_pos; cbn [bufflen_ pos_ buffer_ fd_];
      lengths; try lia; try done.
Qed.

End FullBuffers.

Section ShortStream.
Import HttpReader.

Lemma mod_cut a b : b ≤ a → (a - b) mod b = a mod b.
Proof.
  intros H. replace a with ((a - b) + 1 * b) at 2 by lia.
  by rewrite Nat.Div0.mod_add.
Qed.

(** A stream that ends inside a buffer: the last refill does not fill
    the buffer, and once its bytes are copied the loop copies nothing
    and never refills. *)
Lemma read_fixed_loop_short_spins fuel length_ data rest result r :
  0 < length (buffer_ r) →
  pos_ r ≤ bufflen_ r → bufflen_ r = length (buffer_ r) →
  fd_ r = Segment data :: rest →
  length data mod length (buffer_ r) ≠ 0 →
  (N.of_nat (length result + (bufflen_ r - pos_ r) + length data) < length_)%N →
  read_fixed_loop fuel length_ result r = OutOfFuel.
Proof.
  revert data result r.
  induction fuel as [|fuel IH]; intros data result r HB Hpos Hfull Hfd Hmod Hn;
    [done|].
  cbn [read_fixed_loop]. rewrite decide_True by lia.
  case_decide as Hc.
  - unfold refill_buffer. rewrite Hfd. cbn [sys_read].
    case_decide as Hd; cbn [mbind outcome_bind bufflen_].
    + assert (0 < length data ∧ length data < length (buffer_ r)) as [Hd0 Hd1].
      { destruct (decide (length data = 0)) as [E|]; [by rewrite E, Nat.Div0.mod_0_l in Hmod|].
        destruct (decide (length data = length (buffer_ r))) as [E|]; [|lia].
        by rewrite E, Nat.Div0.mod_same in Hmod. }
      rewrite decide_False by lia.
      unfold copy_buffer. cbn [bufflen_ pos_ buffer_ fd_].
      apply read_fixed_loop_spins_short; unfold set_pos; cbn [bufflen_ pos_ buffer_];
        lengths; lia.
    + rewrite length_take. rewrite decide_False by lia.
      unfold copy_buffer. cbn [bufflen_ pos_ buffer_ fd_].
      set (to_copy := N.to_nat (N.min _ _)).
      set (buf := take _ data ++ _).
      assert (Hbuf : length buf = length (buffer_ r)).
      { unfold buf. lengths. lia. }
      assert (Hto : to_copy = length (buffer_ r)) by (unfold to_copy; lia).
      apply (IH (drop (length (buffer_ r)) data)); unfold set_pos;
        cbn [bufflen_ pos_ buffer_ fd_]; rewrite ?Hbuf; lengths; try lia; try done.
      by rewrite mod_cut by lia.
  - unfold copy_buffer. set (to_copy := N.to_nat (N.min _ _)).
    assert (Hto : to_copy = bufflen_ r - pos_ r) by (unfold to_copy; lia).
    apply (IH data); unfold set_pos; cbn [bufflen_ pos_ buffer_ fd_];
      lengths; try lia; done.
Qed.

(** A stream that ends at the end of a buffer: the next [read] returns
    [0] and the length check fails. *)
Lemma read_fixed_loop_short_throws fuel length_ data result r :
  0 < length (buffer_ r) →
  pos_ r ≤ bufflen_ r → bufflen_ r = length (buffer_ r) →
  (fd_ r = [] ∧ data = []) ∨ fd_ r = [Segment data] →
  length data mod length (buffer_ r) = 0 →
  (N.of_nat (length result + (bufflen_ r - pos_ r) + length data) < length_)%N →
  length data + (if decide (length (buffer_ r) ≤ pos_ r) then 0 else 1) + 2 ≤ fuel →
  read_fixed_loop fuel length_ result r = Throw ShortRead.
Proof.
  revert data result r.
  induction fuel as [|fuel IH];
    intros data result r HB Hpos Hfull Hfd Hmod Hn Hfuel; [lia|].
  cbn [read_fixed_loop]. rewrite decide_True by lia.
  case_decide as Hc.
  - unfold refill_buffer. destruct Hfd as [[Hfd ->]|Hfd]; rewrite Hfd; cbn [sys_read].
    { cbn [mbind outcome_bind bufflen_ length]. case_decide; [|done].
      unfold check_length. rewrite decide_True by lia. done. }
    case_decide as Hd; cbn [mbind outcome_bind bufflen_].
    + destruct (decide (length data = 0)) as [E|Hd0].
      { unfold check_length. by rewrite decide_True by lia. }
      assert (length data = length (buffer_ r)) as Hd1.
      { destruct (decide (length data = length (buffer_ r))) as [E|]; [done|].
        rewrite Nat.mod_small in Hmod by lia. done. }
      unfold copy_buffer. cbn [bufflen_ pos_ buffer_ fd_].
      set (to_copy := N.to_nat (N.min _ _)).
      assert (Hto : to_copy = length (buffer_ r)) by (unfold to_copy; lia).
      apply (IH []); unfold set_pos; cbn [bufflen_ pos_ buffer_ fd_ length];
        lengths; try lia; auto.
      * apply Nat.Div0.mod_0_l.
      * rewrite decide_True by lia. lia.
    + rewrite length_take. rewrite decide_False by lia.
      unfold copy_buffer. cbn [bufflen_ pos_ buffer_ fd_].
      set (to_copy := N.to_nat (N.min _ _)).
      set (buf := take _ data ++ _).
      assert (Hbuf : length buf = length (buffer_ r)).
      { unfold buf. lengths. lia. }
      assert (Hto : to_copy = length (buffer_ r)) by (unfold to_copy; lia).
      apply (IH (drop (length (buffer_ r)) data)); unfold set_pos;
        cbn [bufflen_ pos_ buffer_ fd_]; rewrite ?Hbuf; lengths; try lia; auto.
      * by rewrite mod_cut by lia.
      * rewrite decide_True by lia. lia.
  - unfold copy_buffer. set (to_copy := N.to_nat (N.min _ _)).
    assert (Hto : to_copy = bufflen_ r - pos_ r) by (unfold to_copy; lia).
    apply (IH data); unfold set_pos; cbn [bufflen_ pos_ buffer_ fd_];
      lengths; try lia; try done.
    rewrite decide_True by lia. lia.
Qed.

End ShortStream.

Lemma read_fixed_takes fuel n r out r' :
  HttpReader.cursor_ok r →
  HttpReader.read_fixed fuel n r = Ret (out, r') →
  out = take (N.to_nat n) (pending r) ∧
  pending r' = drop (N.to_nat n) (pending r) ∧
  N.of_nat (length out) = n.
Proof.
  intros Hr H. unfold HttpReader.read_fixed in H.
  case_decide; [done|].
  destruct (read_fixed_loop_pending _ _ _ _ _ _ Hr H) as [H1 H2].
  cbn [app] in H1. rewrite <- H1.
  replace (N.to_nat n) with (length out) by lia.
  by rewrite take_app_length, drop_app_length.
Qed.

(** X1. [read_until] neither loses nor reorders bytes: what it returns,
    followed by what the reader has still to give, is what the reader
    had to give before the call.  The result ends with the delimiter
    unless the last [read] returned no byte, and the cursor invariant
    is kept. *)
Theorem read_until_conserves_stream :
  ∀ (fuel : nat) (delimiter : bytes) (r r' : HttpReader.t) (out : bytes),
    delimiter ≠ [] →
    HttpReader.cursor_ok r →
    HttpReader.read_until fuel delimiter r = Ret (out, r') →
    out ++ pending r' = pending r ∧
    ((∃ before, out = before ++ delimiter) ∨ HttpReader.bufflen_ r' = 0) ∧
    HttpReader.cursor_ok r' ∧
    length (HttpReader.buffer_ r') = length (HttpReader.buffer_ r).
Proof.
  intros fuel delimiter r r' out _ Hr H. unfold HttpReader.read_until in H.
  destruct (read_until_loop_pending _ _ _ _ _ _ Hr H) as [H1 H2].
  destruct (read_until_loop_ok _ _ _ _ _ _ Hr H) as [H3 H4].
  done.
Qed.

Lemma read_until_conserves_stream_witness :
  SplitDelimiter.stream ++ pending SplitDelimiter.after_read
    = pending (HttpReader.new SplitDelimiter.fd HttpReader.DEFAULT_BUFSIZE) ∧
  ((∃ before, SplitDelimiter.stream = before ++ CRLF)
   ∨ HttpReader.bufflen_ SplitDelimiter.after_read = 0) ∧
  HttpReader.cursor_ok SplitDelimiter.after_read ∧
  length (HttpReader.buffer_ SplitDelimiter.after_read)
    = length (HttpReader.buffer_
                (HttpReader.new SplitDelimiter.fd HttpReader.DEFAULT_BUFSIZE)).
Proof.
  apply (read_until_conserves_stream 3 CRLF).
  - discriminate.
  - apply cursor_ok_new.
  - vm_compute; reflexivity.
Defined.

(** X2. [read_until] always stops: with one loop iteration per byte
    that the socket delivers (and two more) it returns, or it throws
    "Read error", and that only when a [read] of the socket fails. *)
Theorem read_until_returns :
  ∀ (fuel : nat) (delimiter : bytes) (r : HttpReader.t),
    delimiter ≠ [] →
    length (socket_bytes (HttpReader.fd_ r)) + 1 < fuel →
    (∃ out r', HttpReader.read_until fuel delimiter r = Ret (out, r')) ∨
    (HttpReader.read_until fuel delimiter r = Throw ReadError ∧
     ReadFails ∈ HttpReader.fd_ r).
Proof.
  intros fuel delimiter r _ Hfuel. apply read_until_loop_returns.
  case_decide; lia.
Qed.

Lemma read_until_returns_witness :
  (∃ out r', HttpReader.read_until 9 CRLF
               (HttpReader.new SplitDelimiter.fd 8) = Ret (out, r')) ∨
  (HttpReader.read_until 9 CRLF (HttpReader.new SplitDelimiter.fd 8)
     = Throw ReadError ∧
   ReadFails ∈ HttpReader.fd_ (HttpReader.new SplitDelimiter.fd 8)).
Proof.
  apply (read_until_returns 9 CRLF (HttpReader.new SplitDelimiter.fd 8)).
  - discriminate.
  - vm_compute. lia.
Defined.

(** X3. When [read_fixed(n)] returns, it returns exactly the next [n]
    bytes of the stream and leaves the reader in front of the byte
    after them. *)
Theorem read_fixed_conserves_stream :
  ∀ (fuel : nat) (n : N) (r r' : HttpReader.t) (out : bytes),
    HttpReader.cursor_ok r →
    HttpReader.read_fixed fuel n r = Ret (out, r') →
    out = take (N.to_nat n) (pending r) ∧
    pending r' = drop (N.to_nat n) (pending r) ∧
    N.of_nat (length out) = n ∧
    HttpReader.cursor_ok r' ∧
    length (HttpReader.buffer_ r') = length (HttpReader.buffer_ r).
Proof.
  intros fuel n r r' out Hr H.
  destruct (read_fixed_takes _ _ _ _ _ Hr H) as (H1 & H2 & H3).
  unfold HttpReader.read_fixed in H. case_decide; [done|].
  destruct (read_fixed_loop_ok _ _ _ _ _ _ Hr H) as [H4 H5].
  done.
Qed.

Lemma read_fixed_conserves_stream_witness :
  lit "bcde" = take (N.to_nat 4) (pending StreamExample.full) ∧
  pending StreamExample.after_four = drop (N.to_nat 4) (pending StreamExample.full) ∧
  N.of_nat (length (lit "bcde")) = 4%N ∧
  HttpReader.cursor_ok StreamExample.after_four ∧
  length (HttpReader.buffer_ StreamExample.after_four)
    = length (HttpReader.buffer_ StreamExample.full).
Proof.
  apply (read_fixed_conserves_stream 4 4 StreamExample.full).
  - unfold HttpReader.cursor_ok; simpl; lia.
  - vm_compute; reflexivity.
Defined.

(** X4. [read_fixed] refills only when the cursor is at the end of the
    buffer's capacity.  So whenever the last refill did not fill the
    buffer and more bytes are wanted than it still holds, the loop of
    [read_fixed] never ends, whatever the socket delivers: in
    particular on a reader that has not read yet.  [read_fixed] then
    never returns although the bytes it is asked for are on the
    socket. *)
Theorem read_fixed_never_returns_from_a_partly_filled_buffer :
  ∀ (fuel : nat) (n : N) (r : HttpReader.t),
    HttpReader.pos_ r ≤ HttpReader.bufflen_ r →
    HttpReader.bufflen_ r < length (HttpReader.buffer_ r) →
    (N.of_nat (HttpReader.bufflen_ r - HttpReader.pos_ r) < n)%N →
    HttpReader.read_fixed_loop fuel n [] r = OutOfFuel ∧
    ((n ≤ N.of_nat (length (pending r)))%N →
     (n ≤ HttpReader.vector_max_size)%N →
     HttpReader.read_fixed fuel n r = OutOfFuel).
Proof.
  intros fuel n r Hpos Hlen Hn.
  assert (Hloop : HttpReader.read_fixed_loop fuel n [] r = OutOfFuel)
    by (apply read_fixed_loop_spins_short; simpl; lia).
  split; [done|]. intros _ Hmax. unfold HttpReader.read_fixed.
  by rewrite decide_False by lia.
Qed.

Lemma read_fixed_never_returns_from_a_partly_filled_buffer_witness :
  HttpReader.read_fixed_loop 1000 5
    (@nil ascii) (HttpReader.new [Segment (lit "hello")] HttpReader.DEFAULT_BUFSIZE)
  = OutOfFuel ∧
  HttpReader.read_fixed 1000 5
    (HttpReader.new [Segment (lit "hello")] HttpReader.DEFAULT_BUFSIZE)
  = OutOfFuel.
Proof.
  destruct (read_fixed_never_returns_from_a_partly_filled_buffer 1000 5
           (HttpReader.new [Segment (lit "hello")] HttpReader.DEFAULT_BUFSIZE))
    as [H1 H2].
  - simpl; lia.
  - unfold HttpReader.new; cbn [HttpReader.buffer_ HttpReader.bufflen_].
    rewrite length_replicate. unfold HttpReader.DEFAULT_BUFSIZE. lia.
  - simpl; lia.
  - split; [exact H1|]. apply H2.
    + vm_compute. discriminate.
    + unfold HttpReader.vector_max_size; lia.
Defined.

(** X5. [read_fixed] does work across refills when every refill fills
    the buffer: from a buffer filled to its capacity, and with the
    bytes wanted ready on the socket, it returns the next [n] bytes
    of the stream. *)
Theorem read_fixed_across_full_buffers :
  ∀ (fuel n : nat) (data : bytes) (rest : socket) (r : HttpReader.t),
    0 < length (HttpReader.buffer_ r) →
    HttpReader.pos_ r ≤ HttpReader.bufflen_ r →
    HttpReader.bufflen_ r = length (HttpReader.buffer_ r) →
    HttpReader.fd_ r = Segment data :: rest →
    n ≤ length (HttpReader.unread r) + length data →
    (N.of_nat n ≤ HttpReader.vector_max_size)%N →
    n + 2 ≤ fuel →
    ∃ r', HttpReader.read_fixed fuel (N.of_nat n) r
          = Ret (take n (HttpReader.unread r ++ data), r') ∧
          pending r' = drop n (pending r).
Proof.
  intros fuel n data rest r HB Hpos Hfull Hfd Hn Hmax Hfuel.
  assert (Hu : length (HttpReader.unread r)
               = HttpReader.bufflen_ r - HttpReader.pos_ r).
  { unfold HttpReader.unread. lengths. lia. }
  destruct (read_fixed_loop_full_returns fuel n data rest [] r) as [[out r'] H];
    try done; simpl; try lia.
  assert (Hfix : HttpReader.read_fixed fuel (N.of_nat n) r = Ret (out, r')).
  { unfold HttpReader.read_fixed. by rewrite decide_False by lia. }
  assert (Hok : HttpReader.cursor_ok r) by (split; lia).
  destruct (read_fixed_takes _ _ _ _ _ Hok Hfix) as (Hout & Hrest & _).
  rewrite Nat2N.id in Hout, Hrest.
  exists r'. split; [|done]. rewrite Hfix, Hout. do 2 f_equal.
  unfold pending. rewrite Hfd. cbn [socket_bytes].
  rewrite app_assoc. apply take_app_le. lengths. lia.
Qed.

Lemma read_fixed_across_full_buffers_witness :
  ∃ r', HttpReader.read_fixed 8 (N.of_nat 4) StreamExample.full
        = Ret (take 4 (HttpReader.unread StreamExample.full ++ lit "defgh"), r') ∧
        pending r' = drop 4 (pending StreamExample.full).
Proof.
  apply (read_fixed_across_full_buffers 8 4 (lit "defgh") [] StreamExample.full).
  - simpl; lia.
  - simpl; lia.
  - reflexivity.
  - reflexivity.
  - simpl; lia.
  - unfold HttpReader.vector_max_size; lia.
  - simpl; lia.
Defined.

(** X6. A stream that ends before [read_fixed] has its [n] bytes.
    Once [result.reserve(n)] has returned, and from a buffer filled to
    its capacity, the loop of [read_fixed] ends with "Short read" when
    the stream ends exactly where a refill ends, and never ends when
    the stream ends inside a refill. *)
Theorem read_fixed_short_stream :
  ∀ (n : N) (data : bytes) (r : HttpReader.t),
    0 < length (HttpReader.buffer_ r) →
    HttpReader.pos_ r ≤ HttpReader.bufflen_ r →
    HttpReader.bufflen_ r = length (HttpReader.buffer_ r) →
    HttpReader.fd_ r = [Segment data] →
    (N.of_nat (length (pending r)) < n)%N →
    (length data mod length (HttpReader.buffer_ r) = 0 →
       ∀ fuel, length data + 3 ≤ fuel →
               HttpReader.read_fixed_loop fuel n [] r = Throw ShortRead) ∧
    (length data mod length (HttpReader.buffer_ r) ≠ 0 →
       ∀ fuel, HttpReader.read_fixed_loop fuel n [] r = OutOfFuel).
Proof.
  intros n data r HB Hpos Hfull Hfd Hn.
  unfold pending in Hn. rewrite Hfd in Hn. cbn [socket_bytes] in Hn.
  rewrite app_nil_r, length_app in Hn.
  assert (Hu : length (HttpReader.unread r)
               = HttpReader.bufflen_ r - HttpReader.pos_ r).
  { unfold HttpReader.unread. lengths. lia. }
  split; intros Hmod fuel; [intros Hfuel|].
  - apply (read_fixed_loop_short_throws _ _ data); simpl; auto; try lia.
    case_decide; lia.
  - apply (read_fixed_loop_short_spins _ _ data []); simpl; auto; lia.
Qed.

Lemma read_fixed_short_stream_witness :
  HttpReader.read_fixed_loop 9 20 [] StreamExample.ends_on_boundary = Throw ShortRead ∧
  HttpReader.read_fixed_loop 9 20 [] StreamExample.full = OutOfFuel.
Proof.
  split.
  - apply (read_fixed_short_stream 20 (lit "defghi") StreamExample.ends_on_boundary);
      try reflexivity; try (simpl; lia).
  - apply (read_fixed_short_stream 20 (lit "defgh") StreamExample.full);
      try reflexivity; try (simpl; lia).
Defined.

(* ================================================================== *)
(** * read_until across refills *)
(* ================================================================== *)

Section Refills.
Import HttpReader.

(** [read_until] with the cursor at the end of the buffer, on a socket
    that delivers refills without the delimiter and then one that holds
    it: the refills are joined up to the end of the delimiter. *)
Lemma read_until_loop_refills delimiter buf_size segs last rest k fuel result r :
  delimiter ≠ [] →
  Forall (λ s, s ≠ [] ∧ length s ≤ buf_size ∧ search s delimiter = None) segs →
  last ≠ [] → length last ≤ buf_size →
  search last delimiter = Some k →
  length (buffer_ r) = buf_size →
  length (buffer_ r) ≤ pos_ r →
  fd_ r = (Segment <$> segs) ++ Segment last :: rest →
  length segs < fuel →
  ∃ r', read_until_loop fuel delimiter result r
        = Ret (result ++ concat segs ++ take (k + length delimiter) last, r') ∧
        unread r' = drop (k + length delimiter) last ∧ fd_ r' = rest.
Proof.
  intros Hd Hsegs Hlast Hcap Hk. revert fuel result r.
  induction Hsegs as [|s segs (Hs & Hscap & Hsk) _ IH];
    intros fuel result r Hbuf Hpos Hfd Hfuel.
  - destruct fuel as [|fuel]; [simpl in Hfuel; lia|].
    cbn [read_until_loop]. rewrite decide_True by done.
    unfold refill_buffer. rewrite Hfd. cbn [fmap list_fmap app sys_read].
    rewrite decide_True by lia. cbn [mbind outcome_bind bufflen_].
    rewrite decide_False by (by destruct last).
    unfold scan_buffer. cbn [bufflen_ pos_ buffer_].
    rewrite Nat.sub_0_r, drop_0, take_app_length, Hk.
    pose proof (search_bound _ _ _ Hk) as Hb.
    rewrite decide_True by (destruct delimiter; [done|simpl in Hb; lia]).
    rewrite take_app_le by done. cbn [concat app].
    eexists. split_and!; [reflexivity| |reflexivity].
    unfold unread, set_pos. cbn [bufflen_ pos_ buffer_ concat app].
    rewrite Nat.add_0_l, drop_app_le by done.
    rewrite take_app_le by (rewrite length_drop; lia).
    apply take_ge. rewrite length_drop. lia.
  - destruct fuel as [|fuel]; [simpl in Hfuel; lia|].
    cbn [read_until_loop]. rewrite decide_True by done.
    unfold refill_buffer. rewrite Hfd. cbn [fmap list_fmap app sys_read].
    rewrite decide_True by lia. cbn [mbind outcome_bind bufflen_].
    rewrite decide_False by (by destruct s).
    unfold scan_buffer. cbn [bufflen_ pos_ buffer_].
    rewrite Nat.sub_0_r, drop_0, take_app_length, Hsk.
    destruct (IH fuel (result ++ s)
                (set_pos (length (s ++ drop (length s) (buffer_ r)))
                   (mk ((Segment <$> segs) ++ Segment last :: rest)
                       (s ++ drop (length s) (buffer_ r)) (length s) 0)))
      as (r' & Hr' & Hun & Hfd').
    + unfold set_pos. cbn [buffer_]. rewrite length_app, length_drop. lia.
    + unfold set_pos. cbn [buffer_ pos_]. done.
    + done.
    + simpl in Hfuel. lia.
    + exists r'. cbn [buffer_] in Hr'. rewrite Hr'. split_and!; [|done..].
      cbn [concat]. by rewrite <- !app_assoc.
Qed.

End Refills.

(** X7. [read_until] joins refills: when the socket delivers refills
    that do not hold the delimiter and then one that holds it,
    [read_until] on a reader that has not read yet returns the earlier
    refills followed by the last one up to the end of the delimiter's
    first occurrence in it; the bytes after the delimiter stay
    unread. *)
Theorem read_until_joins_refills :
  ∀ (delimiter : bytes) (buf_size : nat) (segs : list bytes) (last : bytes)
    (rest : socket) (k fuel : nat),
    delimiter ≠ [] → 0 < buf_size →
    Forall (λ s, s ≠ [] ∧ length s ≤ buf_size ∧ search s delimiter = None) segs →
    length last ≤ buf_size →
    search last delimiter = Some k →
    length segs + 1 < fuel →
    ∃ r', HttpReader.read_until fuel delimiter
            (HttpReader.new ((Segment <$> segs) ++ Segment last :: rest) buf_size)
          = Ret (concat segs ++ take (k + length delimiter) last, r') ∧
          HttpReader.unread r' = drop (k + length delimiter) last ∧
          HttpReader.fd_ r' = rest.
Proof.
  intros delimiter buf_size segs last rest k fuel Hd HB Hsegs Hcap Hk Hfuel.
  assert (Hlast : last ≠ []).
  { intros ->. destruct delimiter; [done|]. simpl in Hk. discriminate. }
  unfold HttpReader.read_until, HttpReader.new.
  set (buf := replicate buf_size NUL).
  assert (Hbuf : length buf = buf_size) by apply length_replicate.
  destruct fuel as [|fuel]; [lia|].
  set (fd := (Segment <$> segs) ++ Segment last :: rest).
  change (HttpReader.read_until_loop (S fuel) delimiter [] (HttpReader.mk fd buf 0 0))
    with (if decide (length buf ≤ 0)
          then r' ← HttpReader.refill_buffer (HttpReader.mk fd buf 0 0);
               if decide (HttpReader.bufflen_ r' = 0) then Ret ([], r')
               else HttpReader.scan_buffer delimiter [] r'
                      (HttpReader.read_until_loop fuel delimiter)
          else HttpReader.scan_buffer delimiter [] (HttpReader.mk fd buf 0 0)
                 (HttpReader.read_until_loop fuel delimiter)).
  rewrite decide_False by lia. unfold HttpReader.scan_buffer.
  cbn [HttpReader.bufflen_ HttpReader.pos_ HttpReader.buffer_ Nat.sub].
  rewrite take_0.
  replace (search [] delimiter) with (@None nat) by (by destruct delimiter).
  destruct (read_until_loop_refills delimiter buf_size segs last rest k fuel []
              (HttpReader.set_pos (length buf) (HttpReader.mk fd buf 0 0)))
    as (r' & Hr' & Hun & Hfd); try done; try lia.
  exists r'. cbn [app] in Hr' |- *. by rewrite Hr'.
Qed.

Lemma read_until_joins_refills_witness :
  ∃ r', HttpReader.read_until 4 CRLF
          (HttpReader.new ((Segment <$> [lit "Host: exa"; lit "mple.o"])
                           ++ Segment (lit "rg" ++ CRLF ++ lit "X") :: []) 16)
        = Ret (concat [lit "Host: exa"; lit "mple.o"]
               ++ take (2 + length CRLF) (lit "rg" ++ CRLF ++ lit "X"), r') ∧
        HttpReader.unread r' = drop (2 + length CRLF) (lit "rg" ++ CRLF ++ lit "X") ∧
        HttpReader.fd_ r' = [].
Proof.
  apply (read_until_joins_refills CRLF 16 [lit "Host: exa"; lit "mple.o"]
           (lit "rg" ++ CRLF ++ lit "X") [] 2 4).
  - discriminate.
  - lia.
  - repeat constructor; try discriminate; simpl; lia.
  - simpl; lia.
  - vm_compute; reflexivity.
  - simpl; lia.
Defined.

(* ================================================================== *)
(** * send_all, the start line and the stored headers *)
(* ================================================================== *)

Section StartLine.
Import HttpMessage.

Lemma starts_with_inv needle hay :
  starts_with needle hay = true → ∃ rest, hay = needle ++ rest.
Proof.
  revert hay. induction needle as [|c needle IH]; intros hay; [by exists hay|].
  destruct hay as [|a hay]; [done|]. simpl.
  intros [->%bool_decide_eq_true_1 H]%andb_prop.
  destruct (IH _ H) as [rest ->]. by exists rest.
Qed.

Lemma search_None hay needle a b :
  search hay needle = None → hay ≠ a ++ needle ++ b.
Proof.
  intros H ->. destruct (search_app_is_Some a needle b) as [? E]. congruence.
Qed.

Lemma search_Some hay needle k :
  search hay needle = Some k →
  (∃ rest, hay = take k hay ++ needle ++ rest) ∧
  length (take k hay) = k ∧
  ∀ a b, hay = a ++ needle ++ b → k ≤ length a.
Proof.
  intros H. pose proof (search_bound _ _ _ H) as Hb.
  destruct (search_first _ _ _ H) as [Hk Hfirst].
  apply starts_with_inv in Hk as [rest Hk]. split; [|split].
  - exists rest. by rewrite <- Hk, take_drop.
  - rewrite length_take. lia.
  - intros a b ->. destruct (decide (k ≤ length a)) as [|Hlt]; [done|].
    specialize (Hfirst (length a) ltac:(lia)).
    by rewrite drop_app_length, starts_with_app in Hfirst.
Qed.

End StartLine.

Section NormalForm.
Import HttpMessage.

Lemma tolower_idemp c : tolower (tolower c) = tolower c.
Proof. destruct c as [[] [] [] [] [] [] [] []]; vm_compute; reflexivity. Qed.

Lemma tolower_colon c : tolower c = ":"%char → c = ":"%char.
Proof.
  destruct c as [[] [] [] [] [] [] [] []]; vm_compute; intros H;
    first [reflexivity | discriminate H].
Qed.

Lemma head_strip_leading s c : head (strip_leading s) = Some c → c ∉ [SP; HT].
Proof.
  induction s as [|a s IH]; [done|]. simpl. case_bool_decide as Ha; [done|].
  by intros [= <-].
Qed.

Lemma elem_of_strip_leading s c : c ∈ strip_leading s → c ∈ s.
Proof.
  induction s as [|a s IH]; [done|]. simpl. case_bool_decide; [|done].
  intros ?. right. by apply IH.
Qed.

Lemma last_rev (l : bytes) : last (rev l) = head l.
Proof. destruct l as [|a l]; [done|]. simpl. apply last_snoc. Qed.

Lemma elem_of_strip_trailing s c : c ∈ strip_trailing s → c ∈ s.
Proof.
  unfold strip_trailing. rewrite list_elem_of_In, <- in_rev, <- list_elem_of_In.
  intros H%elem_of_strip_leading.
  by rewrite list_elem_of_In, <- in_rev, <- list_elem_of_In in H.
Qed.

Lemma last_strip_trailing s c : last (strip_trailing s) = Some c → c ∉ [SP; HT].
Proof. unfold strip_trailing. rewrite last_rev. apply head_strip_leading. Qed.

(** What one header line stores is in normal form. *)
Lemma header_field_normal line colon :
  find line [":"%char] 0 = Some colon →
  normal_field (header_field line colon).1 (header_field line colon).2.
Proof.
  unfold find. rewrite decide_True by lia. rewrite drop_0.
  destruct (search line _) as [i|] eqn:E; [|done]. intros [= <-].
  unfold header_field, substr. cbn [fst snd]. rewrite drop_0.
  rewrite erase_after_last_not_of_strip, erase_before_first_not_of_strip.
  destruct (search_first _ _ _ E) as [_ Hfirst].
  split_and!.
  - intros c [c' [-> _]]%elem_of_strip_trailing%list_elem_of_fmap.
    apply tolower_idemp.
  - intros [c' [Hc Hin]]%elem_of_strip_trailing%list_elem_of_fmap.
    symmetry in Hc. apply tolower_colon in Hc as ->.
    apply list_elem_of_lookup in Hin as [j Hj].
    pose proof (lookup_lt_Some _ _ _ Hj) as Hlt. rewrite length_take in Hlt.
    rewrite lookup_take, decide_True in Hj by lia.
    specialize (Hfirst j ltac:(lia)).
    rewrite (drop_S _ _ _ Hj) in Hfirst. cbn [starts_with] in Hfirst.
    by rewrite bool_decide_eq_true_2 in Hfirst.
  - apply last_strip_trailing.
  - apply head_strip_leading.
Qed.

Lemma parse_headers_loop_normal fuel data start h h' :
  map_Forall normal_field h →
  parse_headers_loop fuel data start h = Ret h' →
  map_Forall normal_field h'.
Proof.
  revert start h. induction fuel as [|fuel IH]; intros start h Hh; [done|].
  cbn [parse_headers_loop]. case_decide; [|by intros [= <-]].
  destruct (find data CRLF start) as [end_|]; [|by intros [= <-]].
  case_decide; [by intros [= <-]|].
  destruct (find _ [":"%char] 0) as [colon|] eqn:E; [|by apply IH].
  pose proof (header_field_normal _ _ E) as Hn.
  destruct (header_field _ colon) as [key value]. apply IH.
  by apply map_Forall_insert_2.
Qed.

End NormalForm.

(** X8. [send_all] puts a prefix of the data on the wire, in order and
    without repeating a byte, and returns [true] exactly when that
    prefix is all of the data. *)
Theorem send_all_sends_a_prefix :
  ∀ (peer : list TCPServer.send_event) (data wire : bytes),
    ∃ k, k ≤ length data ∧
         (TCPServer.send_all peer data wire).2 = wire ++ take k data ∧
         ((TCPServer.send_all peer data wire).1.1 = true ↔ k = length data).
Proof.
  intros peer.
  induction peer as [|[n|] peer IH]; intros data wire.
  - exists (length data). rewrite take_ge by done.
    destruct data; simpl; by rewrite ?app_nil_r.
  - destruct data as [|c data].
    { exists 0. simpl. by rewrite app_nil_r. }
    cbn [TCPServer.send_all]. case_decide as Hn.
    { exists 0. rewrite take_0, app_nil_r. simpl. split; [lia|]. split; [done|].
      split; [done|lia]. }
    destruct (IH (drop n (c :: data)) (wire ++ take n (c :: data)))
      as (k & Hk & Hwire & Hok).
    rewrite length_drop in Hk, Hok.
    destruct (decide (n ≤ length (c :: data))) as [Hle|Hgt].
    + exists (n + k). split; [lia|]. split; [|rewrite Hok; lia].
      by rewrite Hwire, <- app_assoc, take_take_drop.
    + exists (length (c :: data)). split; [done|].
      assert (k = 0) as -> by lia. rewrite take_0, app_nil_r in Hwire.
      split; [|rewrite Hok; lia].
      rewrite Hwire. by rewrite !take_ge by lia.
  - destruct data as [|c data].
    { exists 0. simpl. by rewrite app_nil_r. }
    exists 0. rewrite take_0, app_nil_r. simpl. split; [lia|]. split; [done|].
    split; [done|lia].
Qed.

(** X9. [parse_start_line] stores the bytes in front of the first
    ["\r\n"] of its input, and throws "Invalid HTTP format" exactly when
    the input holds no ["\r\n"]. *)
Theorem parse_start_line_takes_the_first_line :
  ∀ data : bytes,
    match HttpMessage.parse_start_line data with
    | Ret line =>
        (∃ rest, data = line ++ CRLF ++ rest) ∧
        (∀ a b, data = a ++ CRLF ++ b → length line ≤ length a)
    | Throw e => e = InvalidHttpFormat ∧ ∀ a b, data ≠ a ++ CRLF ++ b
    | OutOfFuel => False
    end.
Proof.
  intros data. unfold HttpMessage.parse_start_line, find, substr.
  rewrite decide_True by lia. rewrite drop_0.
  destruct (search data CRLF) as [k|] eqn:E;
    cbn [fmap option_fmap option_map Nat.add].
  - destruct (search_Some _ _ _ E) as (Hrest & Hlen & Hfirst).
    split; [done|]. intros a b Hab. rewrite Hlen. exact (Hfirst a b Hab).
  - split; [done|]. intros a b. by apply search_None.
Qed.

(** X10. Whatever the header block, every header that [parse_headers]
    stores is in normal form: its key has no upper-case letter and no
    colon and does not end with a space or a tab, and its value does
    not start with one. *)
Theorem parse_headers_stores_normal_fields :
  ∀ (fuel : nat) (data : bytes) (h : gmap bytes bytes) (key value : bytes),
    HttpMessage.parse_headers fuel data ∅ = Ret h →
    h !! key = Some value →
    normal_field key value.
Proof.
  intros fuel data h key value H Hk. unfold HttpMessage.parse_headers in H.
  apply parse_headers_loop_normal in H; [by apply (H key value)|].
  apply map_Forall_empty.
Qed.

Lemma parse_headers_stores_normal_fields_witness :
  normal_field (lit "content-length") (lit "5 ").
Proof.
  apply (parse_headers_stores_normal_fields 2
           (header_block (lit "GET / HTTP/1.1") [(lit "Content-Length", lit "  5 ")])
           {[ lit "content-length" := lit "5 " ]}).
  - vm_cast_no_check (eq_refl (@Ret (gmap bytes bytes)
                                 {[ lit "content-length" := lit "5 " ]})).
  - vm_compute; reflexivity.
Defined.

(* ================================================================== *)
(** * read_chunked: trailer and what follows the body *)
(* ================================================================== *)

Section Trailer.
Import HttpReader Chunked.

(** The decoding loop on a reader whose unread bytes begin with the
    chunks of a body, the last chunk ["0\r\n"] and one more line: the
    loop stops after that line. *)
Lemma read_chunked_loop_rest chunks trailer rest fuel body r :
  Forall (λ c, c ≠ []) chunks →
  LF ∉ trailer →
  bufflen_ r ≤ length (buffer_ r) →
  (N.of_nat (length (buffer_ r)) ≤ vector_max_size)%N →
  unread r = concat (spec_encode_chunk <$> chunks)
             ++ lit "0" ++ CRLF ++ trailer ++ CRLF ++ rest →
  length chunks + 1 < fuel →
  ∃ r', read_chunked_loop fuel body r = Ret (body ++ concat chunks, r') ∧
        unread r' = rest ∧ bufflen_ r' = bufflen_ r ∧ buffer_ r' = buffer_ r.
Proof.
  intros Hne Htr. revert fuel body r.
  induction Hne as [|c chunks Hc _ IH]; intros fuel body r Hcap Hmax Hun Hfuel.
  - destruct fuel as [|fuel]; [simpl in Hfuel; lia|].
    cbn [read_chunked_loop]. cbn [fmap list_fmap concat app] in Hun.
    destruct (read_until_CRLF_unread fuel r (lit "0") (trailer ++ CRLF ++ rest) Hcap Hun)
      as (r1 & -> & Hun1 & Hb1 & Hbuf1).
    { refine (bool_decide_unpack _ _). vm_compute. exact I. }
    cbn [mbind outcome_bind]. rewrite resize_minus_2_app.
    cbn [mbind outcome_bind].
    replace (stoul (lit "0") 16) with (@Ret N 0%N) by (vm_compute; reflexivity).
    cbn [catch_all mbind outcome_bind]. rewrite decide_True by done.
    destruct (read_until_CRLF_unread fuel r1 trailer rest)
      as (r2 & -> & Hun2 & Hb2 & Hbuf2); [congruence|done|done|].
    cbn [mbind outcome_bind concat]. rewrite app_nil_r.
    eexists. split_and!; [done|done|congruence|congruence].
  - destruct fuel as [|fuel]; [simpl in Hfuel; lia|].
    cbn [read_chunked_loop].
    destruct fuel as [|fuel]; [simpl in Hfuel; lia|].
    assert (Hun' : unread r = spec_hex_size (length c) ++ CRLF ++ c ++ CRLF
                     ++ concat (spec_encode_chunk <$> chunks)
                     ++ lit "0" ++ CRLF ++ trailer ++ CRLF ++ rest).
    { rewrite Hun. cbn [fmap list_fmap concat]. unfold spec_encode_chunk at 1.
      by rewrite <- !app_assoc. }
    clear Hun.
    assert (Hsize : (N.of_nat (length c) ≤ N.of_nat (length (buffer_ r)))%N).
    { assert (length (unread r) ≤ length (buffer_ r))
        by (unfold unread; rewrite length_take, length_drop; lia).
      rewrite Hun', !length_app in H. lia. }
    destruct (read_until_CRLF_unread (S fuel) r _ _ Hcap Hun')
      as (r1 & -> & Hun1 & Hb1 & Hbuf1); [apply hex_size_no_LF|].
    cbn [mbind outcome_bind]. rewrite resize_minus_2_app.
    cbn [mbind outcome_bind].
    rewrite stoul_hex_size by (unfold ULONG_MAX, vector_max_size in *; lia).
    cbn [catch_all mbind outcome_bind].
    rewrite decide_False by (destruct c; [done|simpl; lia]).
    destruct (read_fixed_data_unread fuel r1 c
                (CRLF ++ concat (spec_encode_chunk <$> chunks)
                   ++ lit "0" ++ CRLF ++ trailer ++ CRLF ++ rest))
      as (r2 & -> & Hun2 & Hb2 & Hbuf2); [congruence|congruence|done|done|].
    cbn [mbind outcome_bind].
    destruct (read_until_CRLF_unread (S fuel) r2 []
                (concat (spec_encode_chunk <$> chunks)
                   ++ lit "0" ++ CRLF ++ trailer ++ CRLF ++ rest))
      as (r3 & -> & Hun3 & Hb3 & Hbuf3);
      [congruence|done|apply not_elem_of_nil|].
    cbn [mbind outcome_bind].
    destruct (IH (S fuel) (body ++ c) r3) as (r' & -> & Hun4 & Hb4 & Hbuf4);
      [congruence|congruence|done|simpl in Hfuel; lia|].
    cbn [concat]. rewrite app_assoc.
    eexists. split_and!; [done|done|congruence|congruence].
Qed.

End Trailer.

(** X11. On a reader whose unread bytes begin with a chunked body,
    [read_chunked] returns the chunks' data joined.  After the last
    chunk it reads one line and stops: the bytes after that line stay
    unread (an empty trailer's ["\r\n"] is consumed, a second trailer
    line or the blank line after a trailer is not). *)
Theorem read_chunked_stops_one_line_after_the_last_chunk :
  ∀ (chunks : list bytes) (trailer rest : bytes) (fuel : nat) (r : HttpReader.t),
    Forall (λ c, c ≠ []) chunks →
    LF ∉ trailer →
    HttpReader.bufflen_ r ≤ length (HttpReader.buffer_ r) →
    (N.of_nat (length (HttpReader.buffer_ r)) ≤ HttpReader.vector_max_size)%N →
    HttpReader.unread r
      = concat (spec_encode_chunk <$> chunks)
        ++ lit "0" ++ CRLF ++ trailer ++ CRLF ++ rest →
    length chunks + 1 < fuel →
    ∃ r', Chunked.read_chunked fuel r = Ret (concat chunks, r') ∧
          HttpReader.unread r' = rest.
Proof.
  intros chunks trailer rest fuel r Hne Htr Hcap Hmax Hun Hfuel.
  destruct (read_chunked_loop_rest chunks trailer rest fuel [] r)
    as (r' & H & Hrest & _); try done.
  by exists r'.
Qed.

Lemma read_chunked_stops_one_line_after_the_last_chunk_witness :
  ∃ r', Chunked.read_chunked 3 TrailerExample.reader = Ret (concat [lit "Wiki"], r') ∧
        HttpReader.unread r' = CRLF ++ lit "GET".
Proof.
  apply (read_chunked_stops_one_line_after_the_last_chunk
           [lit "Wiki"] (lit "X-Sum: 1") (CRLF ++ lit "GET") 3 TrailerExample.reader).
  - constructor; [discriminate|constructor].
  - refine (bool_decide_unpack _ _). vm_compute. exact I.
  - vm_compute. lia.
  - vm_compute. discriminate.
  - vm_compute. reflexivity.
  - simpl. lia.
Defined.

(* ================================================================== *)
(** * Whole requests *)
(* ================================================================== *)

Section HeaderBlock.
Import HttpReader HttpMessage.

(** Where ["\r\n\r\n"] can start in a line without line feed that is
    followed by ["\r\n"]: only at the end of the line. *)
Lemma search_CRLFCRLF_line t X :
  LF ∉ t →
  search (t ++ CRLF ++ X) CRLFCRLF
  = if starts_with CRLF X then Some (length t)
    else (λ i, length t + 2 + i) <$> search X CRLFCRLF.
Proof.
  intros Hlf. induction t as [|c t IH].
  - cbn [app length Nat.add CRLF]. cbn [search].
    change (starts_with CRLFCRLF (CR :: LF :: X)) with (starts_with CRLF X).
    destruct (starts_with CRLF X); [done|].
    change (starts_with CRLFCRLF (LF :: X)) with false. cbn match.
    by destruct (search X CRLFCRLF).
  - apply not_elem_of_cons in Hlf as [Hc Hline].
    cbn [app search length].
    replace (starts_with CRLFCRLF (c :: t ++ CRLF ++ X)) with false.
    + rewrite IH by done. destruct (starts_with CRLF X); [done|].
      by destruct (search X CRLFCRLF).
    + symmetry. cbn [starts_with CRLFCRLF]. apply andb_false_intro2.
      destruct t as [|d t]; [done|]. cbn [app starts_with].
      apply not_elem_of_cons in Hline as [Hd _].
      rewrite bool_decide_eq_false_2; [done|]. congruence.
Qed.

Lemma plain_field_line key value :
  plain_field (key, value) →
  (LF ∉ key ++ ":"%char :: value) ∧
  ∀ X, starts_with CRLF ((key ++ ":"%char :: value) ++ X) = false.
Proof.
  intros (Hcolon & Hk & Hv). simpl in Hcolon, Hk, Hv.
  assert (Hline : LF ∉ key ++ ":"%char :: value).
  { rewrite elem_of_app, elem_of_cons.
    intros [?|[E|?]]; [contradiction| |contradiction].
    vm_compute in E. discriminate. }
  split; [done|]. intros X.
  destruct (key ++ ":"%char :: value) as [|a [|b l]] eqn:E.
  - by destruct key.
  - destruct key as [|? [|? ?]]; simplify_eq/=. reflexivity.
  - cbn [app starts_with CRLF]. apply andb_false_intro2.
    rewrite bool_decide_eq_false_2; [done|].
    intros <-. apply Hline. right. by left.
Qed.

(** The first ["\r\n\r\n"] of a header block, whatever follows the
    block, is the one that ends it. *)
Lemma search_header_lines t fields rest :
  LF ∉ t → Forall plain_field fields →
  search (t ++ CRLF ++ concat (header_line <$> fields) ++ CRLF ++ rest) CRLFCRLF
  = Some (length t + length (concat (header_line <$> fields))).
Proof.
  intros Ht Hf. revert t Ht.
  induction Hf as [|[key value] fields Hkv _ IH]; intros t Ht.
  - rewrite search_CRLFCRLF_line by done. cbn [fmap list_fmap concat app length].
    rewrite starts_with_app. f_equal. lia.
  - destruct (plain_field_line _ _ Hkv) as [Hline Hstart].
    rewrite search_CRLFCRLF_line by done.
    assert (E : concat (header_line <$> (key, value) :: fields) ++ CRLF ++ rest
                = (key ++ ":"%char :: value) ++ CRLF
                    ++ concat (header_line <$> fields) ++ CRLF ++ rest).
    { unfold header_line at 1. cbn [fmap list_fmap concat fst snd].
      change (lit ":") with [":"%char]. by rewrite <- !app_assoc. }
    assert (El : length (concat (header_line <$> (key, value) :: fields))
                 = length (key ++ ":"%char :: value) + 2
                   + length (concat (header_line <$> fields))).
    { cbn [fmap list_fmap concat]. rewrite length_app. unfold header_line at 1.
      cbn [fst snd]. rewrite !length_app. simpl. lia. }
    rewrite E, Hstart, IH, El by done. cbn [fmap option_fmap option_map].
    f_equal. lia.
Qed.

Lemma length_header_block start_line fields :
  length (header_block start_line fields)
  = length start_line + length (concat (header_line <$> fields)) + 4.
Proof. unfold header_block. rewrite !length_app. simpl. lia. Qed.

Lemma search_header_block start_line fields rest :
  LF ∉ start_line → Forall plain_field fields →
  search (header_block start_line fields ++ rest) CRLFCRLF
  = Some (length (header_block start_line fields) - 4).
Proof.
  intros Hs Hf. rewrite length_header_block. unfold header_block.
  rewrite <- !app_assoc. rewrite search_header_lines by done. f_equal. lia.
Qed.

(** The header block of a request is parsed as C3 describes. *)
Lemma parse_header_block fuel start_line fields :
  LF ∉ start_line → Forall plain_field fields → length fields < fuel →
  parse_start_line (header_block start_line fields) = Ret start_line ∧
  parse_headers fuel (header_block start_line fields) ∅
  = Ret (foldl (λ m kv, <[(stored kv).1 := (stored kv).2]> m) ∅ fields).
Proof.
  intros Hsl Hfields Hfuel.
  pose proof (find_CRLF [] start_line
                (concat (header_line <$> fields) ++ CRLF) Hsl) as Hfind.
  cbn [app length Nat.add] in Hfind. split.
  - unfold parse_start_line, header_block. rewrite Hfind.
    unfold substr. by rewrite drop_0, take_app_length.
  - unfold parse_headers, header_block. rewrite Hfind.
    replace (length start_line + 2)
      with (length (start_line ++ CRLF)) by (rewrite length_app; simpl; lia).
    rewrite (app_assoc start_line CRLF).
    by apply parse_headers_loop_fields.
Qed.

(** The first [read_until] of a fresh reader, when the delimiter is in
    the bytes of the first refill; the segment may be longer than the
    buffer. *)
Lemma read_until_first_refill_cut fuel delimiter data rest buf_size k :
  delimiter ≠ [] → data ≠ [] → 0 < buf_size →
  search (take buf_size data) delimiter = Some k →
  ∃ r1, read_until (S (S fuel)) delimiter (new (Segment data :: rest) buf_size)
        = Ret (take (k + length delimiter) data, r1) ∧
        length (buffer_ r1) = buf_size ∧
        pos_ r1 ≤ bufflen_ r1 ∧ bufflen_ r1 ≤ buf_size ∧
        unread r1 = drop (k + length delimiter) (take buf_size data) ∧
        (length data ≤ buf_size → fd_ r1 = rest) ∧
        (buf_size < length data →
           bufflen_ r1 = buf_size ∧ fd_ r1 = Segment (drop buf_size data) :: rest).
Proof.
  intros Hd Hdata HB Hk. unfold read_until, new.
  set (buf := replicate buf_size NUL).
  assert (Hbuf : length buf = buf_size) by apply length_replicate.
  pose proof (search_bound _ _ _ Hk) as Hb. rewrite length_take in Hb.
  change (read_until_loop (S (S fuel)) delimiter [] (HttpReader.mk (Segment data :: rest) buf 0 0))
    with (if decide (length buf ≤ 0)
          then r' ← refill_buffer (HttpReader.mk (Segment data :: rest) buf 0 0);
               if decide (bufflen_ r' = 0) then Ret ([], r')
               else scan_buffer delimiter [] r' (read_until_loop (S fuel) delimiter)
          else scan_buffer delimiter [] (HttpReader.mk (Segment data :: rest) buf 0 0)
                 (read_until_loop (S fuel) delimiter)).
  rewrite decide_False by lia. unfold scan_buffer.
  cbn [bufflen_ pos_ buffer_ Nat.sub]. rewrite take_0.
  replace (search [] delimiter) with (@None nat) by (by destruct delimiter).
  unfold set_pos. cbn [read_until_loop buffer_ pos_ fd_ bufflen_ app].
  rewrite decide_True by lia.
  assert (Hread : sys_read (length buf) (Segment data :: rest)
            = Some (take buf_size data,
                    if decide (length data ≤ buf_size) then rest
                    else Segment (drop buf_size data) :: rest)).
  { cbn [sys_read]. rewrite Hbuf. case_decide; [|done].
    by rewrite take_ge by done. }
  unfold refill_buffer. cbn [buffer_ fd_]. rewrite Hread.
  cbn [mbind outcome_bind bufflen_].
  assert (Hnz : length (take buf_size data) ≠ 0).
  { rewrite length_take. destruct data; [done|]. simpl. lia. }
  rewrite decide_False by done.
  unfold scan_buffer. cbn [bufflen_ pos_ buffer_ set_pos fd_].
  rewrite Nat.sub_0_r, drop_0, take_app_length, Hk.
  rewrite decide_True
    by (rewrite length_take; destruct delimiter; [done|simpl in Hb; lia]).
  eexists. split.
  { f_equal. f_equal. cbn [app]. rewrite take_app_le by (rewrite length_take; lia).
    rewrite take_take. f_equal. lia. }
  unfold unread, set_pos. cbn [buffer_ pos_ bufflen_ fd_]. split_and!.
  - lengths. lia.
  - lengths. lia.
  - lengths. lia.
  - rewrite Nat.add_0_l, drop_app_le by (rewrite length_take; lia).
    rewrite take_app_le by (rewrite length_drop; lia).
    apply take_ge. rewrite length_drop. lia.
  - intros H. by rewrite decide_True by done.
  - intros H. rewrite decide_False by lia. rewrite length_take. split; [lia|done].
Qed.

End HeaderBlock.

Section WholeRequest.
Import HttpReader HttpMessage.

(** The first [read_until("\r\n\r\n")] of a fresh reader takes the
    header block out of the first refill. *)
Lemma read_head fuel buf_size start_line fields tail later :
  LF ∉ start_line → Forall plain_field fields →
  length (header_block start_line fields) ≤ buf_size →
  ∃ r1, read_until (S (S fuel)) CRLFCRLF
          (new (Segment (header_block start_line fields ++ tail) :: later) buf_size)
        = Ret (header_block start_line fields, r1) ∧
        length (buffer_ r1) = buf_size ∧
        pos_ r1 ≤ bufflen_ r1 ∧ bufflen_ r1 ≤ buf_size ∧
        unread r1 = take (buf_size - length (header_block start_line fields)) tail ∧
        pending r1 = tail ++ socket_bytes later ∧
        (bufflen_ r1 < buf_size →
           length tail ≤ buf_size - length (header_block start_line fields)) ∧
        (bufflen_ r1 = buf_size →
           ∃ data, fd_ r1 = Segment data :: later ∨ (data = [] ∧ fd_ r1 = later)).
Proof.
  intros Hsl Hf Hlen.
  set (head := header_block start_line fields) in *.
  assert (H4 : 4 ≤ length head) by (unfold head; rewrite length_header_block; lia).
  assert (Htake : take buf_size (head ++ tail)
                  = head ++ take (buf_size - length head) tail).
  { rewrite take_app. by rewrite take_ge by done. }
  destruct (read_until_first_refill_cut fuel CRLFCRLF (head ++ tail) later
              buf_size (length head - 4))
    as (r1 & Hread & Hbuf & Hpos & Hcap & Hun & Hfd1 & Hfd2).
  - done.
  - destruct head; [simpl in H4; lia|done].
  - lia.
  - rewrite Htake. by apply search_header_block.
  - replace (length head - 4 + length CRLFCRLF) with (length head) in *
      by (simpl; lia).
    rewrite take_app_length in Hread.
    rewrite Htake, drop_app_length in Hun.
    exists r1. split_and!; try done.
    + unfold pending. rewrite Hun.
      destruct (decide (length (head ++ tail) ≤ buf_size)) as [Hle|Hgt].
      * rewrite (Hfd1 Hle). rewrite length_app in Hle.
        by rewrite take_ge by lia.
      * destruct (Hfd2 ltac:(lia)) as [_ ->]. cbn [socket_bytes].
        rewrite drop_app_ge by done. by rewrite app_assoc, take_drop.
    + intros Hlt. destruct (decide (length (head ++ tail) ≤ buf_size)) as [Hle|Hgt].
      * rewrite length_app in Hle. lia.
      * destruct (Hfd2 ltac:(lia)) as [? _]. lia.
    + intros _. destruct (decide (length (head ++ tail) ≤ buf_size)) as [Hle|Hgt].
      * exists []. right. split; [done|]. by apply Hfd1.
      * destruct (Hfd2 ltac:(lia)) as [_ ->]. eexists. by left.
Qed.

(** [read_fixed] after the header block: the bytes wanted are in the
    buffer, or the buffer is full and the socket holds them. *)
Lemma read_fixed_after_head fuel n r1 tail later :
  0 < length (buffer_ r1) →
  pos_ r1 ≤ bufflen_ r1 → bufflen_ r1 ≤ length (buffer_ r1) →
  pending r1 = tail ++ socket_bytes later →
  (bufflen_ r1 < length (buffer_ r1) → length tail ≤ length (unread r1)) →
  (bufflen_ r1 = length (buffer_ r1) →
     ∃ data, fd_ r1 = Segment data :: later ∨ (data = [] ∧ fd_ r1 = later)) →
  n ≤ length tail →
  (N.of_nat n ≤ vector_max_size)%N →
  n + 2 ≤ fuel →
  ∃ r2, read_fixed fuel (N.of_nat n) r1 = Ret (take n tail, r2).
Proof.
  intros Hbuf Hpos Hcap Hpend Hpart Hfull Hn Hmax Hfuel.
  assert (Hu : length (unread r1) = bufflen_ r1 - pos_ r1).
  { unfold unread. lengths. lia. }
  assert (∃ x, read_fixed_loop fuel (N.of_nat n) [] r1 = Ret x) as [[out r2] H].
  { destruct (decide (n ≤ bufflen_ r1 - pos_ r1)) as [Hin|Hout].
    { destruct fuel as [|[|fuel]]; [lia..|].
      apply read_fixed_loop_in_buffer; simpl; lia. }
    destruct (decide (bufflen_ r1 = length (buffer_ r1))) as [Hb|Hb].
    2:{ specialize (Hpart ltac:(lia)). lia. }
    destruct (Hfull Hb) as [data [Hfd|[-> Hfd]]].
    - apply (read_fixed_loop_full_returns fuel n data later); simpl; try lia; try done.
      apply (f_equal length) in Hpend. unfold pending in Hpend.
      rewrite Hfd in Hpend. cbn [socket_bytes] in Hpend.
      rewrite !length_app in Hpend. lia.
    - apply (f_equal length) in Hpend. unfold pending in Hpend.
      rewrite Hfd, !length_app in Hpend. lia. }
  assert (Hfix : read_fixed fuel (N.of_nat n) r1 = Ret (out, r2)).
  { unfold read_fixed. by rewrite decide_False by lia. }
  assert (Hok : cursor_ok r1) by (split; lia).
  destruct (read_fixed_takes _ _ _ _ _ Hok Hfix) as (Hout & _).
  rewrite Nat2N.id in Hout. exists r2. rewrite Hfix, Hout, Hpend.
  by rewrite take_app_le by done.
Qed.

End WholeRequest.

Section Sized.
Import HttpReader HttpMessage.

Lemma parse_sized_request fuel start_line fields body more later v :
  LF ∉ start_line →
  Forall plain_field fields →
  length (header_block start_line fields) ≤ DEFAULT_BUFSIZE →
  stored_fields fields !! lit "transfer-encoding" = None →
  stored_fields fields !! lit "content-length" = Some v →
  stoul v 10 = Ret (N.of_nat (length body)) →
  (N.of_nat (length body) ≤ vector_max_size)%N →
  length fields + length body + 2 ≤ fuel →
  parse fuel (Segment (header_block start_line fields ++ body ++ more) :: later)
  = Ret (HttpMessage.mk start_line (stored_fields fields) body).
Proof.
  intros Hsl Hf Hlen Hte Hcl Hv Hmax Hfuel.
  set (h := stored_fields fields) in *.
  destruct fuel as [|[|fuel]]; [lia..|].
  assert (HB : 0 < DEFAULT_BUFSIZE) by (unfold DEFAULT_BUFSIZE; lia).
  destruct (read_head fuel _ start_line fields (body ++ more) later Hsl Hf Hlen)
    as (r1 & Hread & Hbuf & Hpos & Hcap & Hun & Hpend & Hpart & Hfull).
  unfold parse. rewrite Hread. clear Hread.
  generalize dependent DEFAULT_BUFSIZE. intros B Hlen HB Hbuf Hcap Hun Hpart Hfull.
  destruct (parse_header_block (S (S fuel)) start_line fields) as [Hstart Hheaders];
    [done|done|lia|].
  destruct (read_fixed_after_head (S (S fuel)) (length body) r1 (body ++ more) later)
    as [r2 Hbody]; try done; try lia.
  { intros Hlt. rewrite Hbuf in Hlt. specialize (Hpart Hlt).
    rewrite Hun, length_take. lia. }
  { by rewrite Hbuf. }
  { rewrite length_app. lia. }
  rewrite take_app_length in Hbody.
  cbn [mbind outcome_bind].
  rewrite Hstart. cbn [mbind outcome_bind].
  rewrite Hheaders. cbn [mbind outcome_bind]. fold (stored_fields fields). fold h.
  rewrite decide_False by (rewrite Hte; by intros [? ?]).
  rewrite decide_True by (by rewrite Hcl).
  rewrite Hcl. cbn [default]. unfold id. rewrite Hv. cbn [mbind outcome_bind].
  by rewrite Hbody.
Qed.

End Sized.

(** X12. A request with a [Content-Length] header that arrives as one
    segment is parsed and echoed whatever the size of its body: the
    header block (at most 16 KiB) is split into start line and
    headers, the body is the next [Content-Length] bytes, also when
    they reach the reader over several refills, and the bytes after it
    are ignored. *)
Theorem sized_request_is_parsed_and_echoed :
  ∀ (fuel : nat) (start_line : bytes) (fields : list (bytes * bytes))
    (body more : bytes) (later : socket),
    LF ∉ start_line →
    Forall plain_field fields →
    length (header_block start_line fields) ≤ HttpReader.DEFAULT_BUFSIZE →
    let h := stored_fields fields in
    h !! lit "transfer-encoding" = None →
    (∃ v, h !! lit "content-length" = Some v ∧
          stoul v 10 = Ret (N.of_nat (length body))) →
    (N.of_nat (length body) ≤ HttpReader.vector_max_size)%N →
    length fields + length body + 2 ≤ fuel →
    let inbound :=
      Segment (header_block start_line fields ++ body ++ more) :: later in
    HttpMessage.parse fuel inbound = Ret (HttpMessage.mk start_line h body) ∧
    TCPServer.handle_connection fuel inbound []
    = Ret (TCPServer.echo_headers body ++ body).
Proof.
  intros fuel start_line fields body more later Hsl Hf Hlen h Hte (v & Hcl & Hv)
    Hmax Hfuel inbound.
  assert (Hparse : HttpMessage.parse fuel inbound
                   = Ret (HttpMessage.mk start_line h body))
    by (by eapply parse_sized_request).
  split; [done|].
  unfold TCPServer.handle_connection. rewrite Hparse. cbn [HttpMessage.body].
  by rewrite !send_all_reliable.
Qed.

Lemma sized_request_is_parsed_and_echoed_witness :
  HttpMessage.parse 14
    [Segment (header_block (lit "POST / HTTP/1.1") [(lit "Content-Length", lit " 11")]
              ++ lit "hello world" ++ [])]
  = Ret (HttpMessage.mk (lit "POST / HTTP/1.1")
           (stored_fields [(lit "Content-Length", lit " 11")])
           (lit "hello world")) ∧
  TCPServer.handle_connection 14
    [Segment (header_block (lit "POST / HTTP/1.1") [(lit "Content-Length", lit " 11")]
              ++ lit "hello world" ++ [])] []
  = Ret (TCPServer.echo_headers (lit "hello world") ++ lit "hello world").
Proof.
  apply (sized_request_is_parsed_and_echoed 14 (lit "POST / HTTP/1.1")
           [(lit "Content-Length", lit " 11")] (lit "hello world") [] []).
  - refine (bool_decide_unpack _ _). vm_compute. exact I.
  - constructor; [|constructor].
    split_and!; refine (bool_decide_unpack _ _); vm_compute; exact I.
  - apply Nat.leb_le. vm_compute. reflexivity.
  - vm_compute. reflexivity.
  - exists (lit "11"). split; vm_compute; reflexivity.
  - vm_compute. discriminate.
  - simpl. lia.
Defined.

(** X13. A request with [Transfer-Encoding: chunked] whose header block
    and encoded body arrive in the first 16 KiB of one segment is
    parsed and echoed: the body is the data of its chunks, joined. *)
Theorem chunked_request_is_parsed_and_echoed :
  ∀ (fuel : nat) (start_line : bytes) (fields : list (bytes * bytes))
    (chunks : list bytes) (more : bytes) (later : socket),
    LF ∉ start_line →
    Forall plain_field fields →
    Forall (λ c, c ≠ []) chunks →
    length (header_block start_line fields) + length (spec_encode_chunked chunks)
      ≤ HttpReader.DEFAULT_BUFSIZE →
    let h := stored_fields fields in
    h !! lit "transfer-encoding" = Some (lit "chunked") →
    length fields + length chunks + 2 ≤ fuel →
    let inbound :=
      Segment (header_block start_line fields ++ spec_encode_chunked chunks ++ more)
      :: later in
    HttpMessage.parse fuel inbound
    = Ret (HttpMessage.mk start_line h (concat chunks)) ∧
    TCPServer.handle_connection fuel inbound []
    = Ret (TCPServer.echo_headers (concat chunks) ++ concat chunks).
Proof.
  intros fuel start_line fields chunks more later Hsl Hf Hne Hlen h Hte Hfuel inbound.
  assert (Hparse : HttpMessage.parse fuel inbound
                   = Ret (HttpMessage.mk start_line h (concat chunks))).
  { destruct fuel as [|[|fuel]]; [lia..|].
    assert (HB : (N.of_nat HttpReader.DEFAULT_BUFSIZE ≤ HttpReader.vector_max_size)%N)
      by (vm_compute; discriminate).
    destruct (read_head fuel HttpReader.DEFAULT_BUFSIZE start_line fields
                (spec_encode_chunked chunks ++ more) later Hsl Hf ltac:(lia))
      as (r1 & Hread & Hbuf & Hpos & Hcap & Hun & _).
    unfold HttpMessage.parse, inbound. rewrite Hread. clear Hread.
    generalize dependent HttpReader.DEFAULT_BUFSIZE. intros B Hlen HB Hbuf Hcap Hun.
    destruct (parse_header_block (S (S fuel)) start_line fields) as [Hstart Hheaders];
      [done|done|lia|].
    rewrite take_app, (take_ge (spec_encode_chunked chunks)) in Hun by lia.
    unfold spec_encode_chunked in Hun. rewrite <- !app_assoc in Hun.
    destruct (read_chunked_loop_rest chunks [] _ (S (S fuel)) [] r1 Hne
                ltac:(apply not_elem_of_nil) ltac:(lia)
                ltac:(by rewrite Hbuf) Hun ltac:(lia))
      as (r2 & Hbody & _).
    cbn [mbind outcome_bind].
    rewrite Hstart. cbn [mbind outcome_bind].
    rewrite Hheaders. cbn [mbind outcome_bind]. fold (stored_fields fields). fold h.
    rewrite decide_True by (by rewrite Hte).
    rewrite decide_True by done.
    unfold Chunked.read_chunked. by rewrite Hbody. }
  split; [done|].
  unfold TCPServer.handle_connection. rewrite Hparse. cbn [HttpMessage.body].
  by rewrite !send_all_reliable.
Qed.

Lemma chunked_request_is_parsed_and_echoed_witness :
  HttpMessage.parse 6
    [Segment (header_block (lit "POST / HTTP/1.1") ChunkedRequest.fields
              ++ spec_encode_chunked ChunkedRequest.chunks ++ [])]
  = Ret (HttpMessage.mk (lit "POST / HTTP/1.1")
           (stored_fields ChunkedRequest.fields)
           (concat ChunkedRequest.chunks)) ∧
  TCPServer.handle_connection 6
    [Segment (header_block (lit "POST / HTTP/1.1") ChunkedRequest.fields
              ++ spec_encode_chunked ChunkedRequest.chunks ++ [])] []
  = Ret (TCPServer.echo_headers (concat ChunkedRequest.chunks)
         ++ concat ChunkedRequest.chunks).
Proof.
  apply (chunked_request_is_parsed_and_echoed 6 (lit "POST / HTTP/1.1")
           ChunkedRequest.fields ChunkedRequest.chunks [] []).
  - refine (bool_decide_unpack _ _). vm_compute. exact I.
  - repeat constructor; refine (bool_decide_unpack _ _); vm_compute; exact I.
  - repeat constructor; discriminate.
  - apply Nat.leb_le. vm_compute. reflexivity.
  - vm_compute. reflexivity.
  - simpl. lia.
Defined.

Section NoLineEnding.
Import HttpReader HttpMessage TCPServer.

Lemma search_app_None hay more needle :
  search (hay ++ more) needle = None → search hay needle = None.
Proof.
  intros H. destruct (search hay needle) as [k|] eqn:E; [|done].
  destruct (search_Some _ _ _ E) as ([rest Hrest] & _).
  rewrite Hrest, <- !app_assoc in H.
  destruct (search_app_is_Some (take k hay) needle (rest ++ more)) as [? E'].
  congruence.
Qed.

Lemma parse_without_line_ending fuel inbound :
  search (socket_bytes inbound) CRLF = None →
  length (socket_bytes inbound) + 1 < fuel →
  parse fuel inbound = Throw InvalidHttpFormat ∨
  (parse fuel inbound = Throw ReadError ∧ ReadFails ∈ inbound).
Proof.
  intros Hnone Hfuel. unfold parse, read_until.
  pose proof (cursor_ok_new inbound DEFAULT_BUFSIZE) as Hok.
  assert (Hpend : pending (new inbound DEFAULT_BUFSIZE) = socket_bytes inbound).
  { unfold pending, unread, new. cbn [bufflen_ pos_ fd_ Nat.sub]. by rewrite take_0. }
  destruct (read_until_loop_returns fuel CRLFCRLF [] (new inbound DEFAULT_BUFSIZE))
    as [(out & r' & H)|[H Hin]].
  - cbn [new fd_ buffer_ pos_]. case_decide; lia.
  - rewrite H. cbn [mbind outcome_bind]. left.
    destruct (read_until_loop_pending _ _ _ _ _ _ Hok H) as [Hout _].
    cbn [app] in Hout. rewrite Hpend in Hout. rewrite <- Hout in Hnone.
    apply search_app_None in Hnone.
    unfold parse_start_line, find. rewrite decide_True by lia.
    by rewrite drop_0, Hnone.
  - rewrite H. right. by split.
Qed.

End NoLineEnding.

(** X14. A connection whose bytes hold no ["\r\n"] at all (a client
    that connects and closes, a request cut before the end of its first
    line) never makes the handler wait: parsing fails with "Invalid HTTP
    format", or with "Read error" when a [read] fails, and the client
    is sent the 500 response. *)
Theorem request_without_line_ending_gets_the_error_response :
  ∀ (fuel : nat) (inbound : socket),
    search (socket_bytes inbound) CRLF = None →
    length (socket_bytes inbound) + 1 < fuel →
    (HttpMessage.parse fuel inbound = Throw InvalidHttpFormat ∨
     (HttpMessage.parse fuel inbound = Throw ReadError ∧ ReadFails ∈ inbound)) ∧
    TCPServer.handle_connection fuel inbound [] = Ret TCPServer.error_response.
Proof.
  intros fuel inbound Hnone Hfuel.
  pose proof (parse_without_line_ending fuel inbound Hnone Hfuel) as H.
  split; [done|]. unfold TCPServer.handle_connection.
  destruct H as [->|[-> _]]; by rewrite send_all_reliable.
Qed.

Lemma request_without_line_ending_gets_the_error_response_witness :
  (HttpMessage.parse 9 [Segment (lit "GET / H"); ReadFails] = Throw InvalidHttpFormat ∨
   (HttpMessage.parse 9 [Segment (lit "GET / H"); ReadFails] = Throw ReadError ∧
    ReadFails ∈ [Segment (lit "GET / H"); ReadFails])) ∧
  TCPServer.handle_connection 9 [Segment (lit "GET / H"); ReadFails] []
  = Ret TCPServer.error_response.
Proof.
  apply (request_without_line_ending_gets_the_error_response 9
           [Segment (lit "GET / H"); ReadFails]).
  - vm_compute. reflexivity.
  - simpl. lia.
Defined.

(* ================================================================== *)
(** * The worker pool: order and shutdown *)
(* ================================================================== *)

Section PoolOrder.
Import MultiThreadedTCPServer.

(** The queue is first in, first out. *)
Lemma step_queue l s s' :
  step l s = Some s' →
  ∃ taken, client_queue s ++ submitted [l] = taken ++ client_queue s'.
Proof.
  destruct s as [p fd n ws q stop stopping h u].
  destruct l as [c|i|i| |]; cbn [step client_queue workers stop_requested
                                 MultiThreadedTCPServer.stopping unprocessed].
  - intros [= <-]. by exists [].
  - destruct (ws !! i) as [[| |]|]; try done.
    destruct (bool_decide (q ≠ []) || stop); [|done].
    destruct (stop && bool_decide (q = [])).
    + intros [= <-]. exists []. by rewrite app_nil_r.
    + destruct q as [|c q]; intros [= <-].
      * by exists [].
      * exists [c]. by rewrite app_nil_r.
  - destruct (ws !! i) as [[| |]|]; try done.
    intros [= <-]. exists []. by rewrite app_nil_r.
  - destruct stop; intros [= <-]; exists []; by rewrite app_nil_r.
  - destruct (stopping && _); [|done]. rewrite drain_queue_spec.
    intros [= <-]. exists q. by rewrite !app_nil_r.
Qed.

Lemma exec_queue trace s s' :
  exec trace s = Some s' →
  ∃ taken, client_queue s ++ submitted trace = taken ++ client_queue s'.
Proof.
  revert s. induction trace as [|l trace IH]; intros s; cbn [exec].
  - intros [= <-]. exists []. by rewrite app_nil_r.
  - destruct (step l s) as [s1|] eqn:E; [|done]. intros H.
    destruct (step_queue _ _ _ E) as [taken1 H1].
    destruct (IH _ H) as [taken2 H2].
    exists (taken1 ++ taken2).
    by rewrite submitted_cons, app_assoc, H1, <- !app_assoc, H2.
Qed.

End PoolOrder.

(** X15. The queue of the pool is first in, first out: at any time it
    holds the connections submitted last, in the order in which the
    accept loop pushed them, and those that have left it are the ones
    being handled, handled, or closed unprocessed by [stop()]. *)
Theorem pool_queue_is_first_in_first_out :
  ∀ (port : Z) (threads : N) (listen_fd : Z)
    (server s : MultiThreadedTCPServer.t)
    (trace : list MultiThreadedTCPServer.label),
    MultiThreadedTCPServer.new port threads = Ret server →
    MultiThreadedTCPServer.exec trace
      (MultiThreadedTCPServer.start listen_fd server) = Some s →
    ∃ taken,
      MultiThreadedTCPServer.submitted trace
        = taken ++ MultiThreadedTCPServer.client_queue s ∧
      taken ≡ₚ MultiThreadedTCPServer.in_flight s
               ++ (snd <$> MultiThreadedTCPServer.handled s)
               ++ MultiThreadedTCPServer.unprocessed s.
Proof.
  intros port threads listen_fd server s trace Hnew Hexec.
  destruct (exec_queue _ _ _ Hexec) as [taken Htaken].
  assert (Hq : MultiThreadedTCPServer.client_queue
                 (MultiThreadedTCPServer.start listen_fd server) = []).
  { revert Hnew. unfold MultiThreadedTCPServer.new. case_decide; [done|].
    intros [= <-]. done. }
  rewrite Hq in Htaken. cbn [app] in Htaken.
  exists taken. split; [done|].
  pose proof (exec_accounted _ _ _ Hexec) as Hperm.
  rewrite (accounted_start _ _ _ _ Hnew), Htaken in Hperm. cbn [app] in Hperm.
  unfold MultiThreadedTCPServer.accounted in Hperm.
  rewrite (Permutation_app_comm taken) in Hperm.
  by apply Permutation_app_inv_l in Hperm.
Qed.

Lemma pool_queue_is_first_in_first_out_witness :
  ∃ taken,
    MultiThreadedTCPServer.submitted PoolRun.trace
      = taken ++ MultiThreadedTCPServer.client_queue PoolRun.final ∧
    taken ≡ₚ MultiThreadedTCPServer.in_flight PoolRun.final
             ++ (snd <$> MultiThreadedTCPServer.handled PoolRun.final)
             ++ MultiThreadedTCPServer.unprocessed PoolRun.final.
Proof.
  apply (pool_queue_is_first_in_first_out 8080 2 3 PoolRun.server PoolRun.final
           PoolRun.trace).
  - vm_compute; reflexivity.
  - vm_compute; reflexivity.
Defined.

(** X16. Graceful shutdown: every connection that the accept loop has
    pushed before [stop()] is called is handled, exactly once, by the
    time [stop()] returns; the descriptors that [stop()] closes
    unprocessed are all of connections pushed after the call. *)
Theorem connections_accepted_before_stop_are_handled :
  ∀ (port : Z) (threads : N) (listen_fd : Z)
    (server s : MultiThreadedTCPServer.t)
    (before_stop during_stop : list MultiThreadedTCPServer.label) (c : nat),
    MultiThreadedTCPServer.new port threads = Ret server →
    MultiThreadedTCPServer.StopBegin ∉ before_stop →
    NoDup (MultiThreadedTCPServer.submitted (before_stop ++ during_stop)) →
    MultiThreadedTCPServer.exec
      (before_stop ++ MultiThreadedTCPServer.StopBegin
         :: during_stop ++ [MultiThreadedTCPServer.StopJoin])
      (MultiThreadedTCPServer.start listen_fd server) = Some s →
    c ∈ MultiThreadedTCPServer.submitted before_stop →
    MultiThreadedTCPServer.times_handled c s = 1 ∧
    ∀ c', c' ∈ MultiThreadedTCPServer.unprocessed s →
          c' ∈ MultiThreadedTCPServer.submitted during_stop.
Proof.
  intros port threads listen_fd server s before_stop during_stop c
    Hnew Hbefore Hnodup Hexec Hc.
  destruct (stop_returns _ _ _ _ _ _ _ Hnew Hbefore Hnodup Hexec)
    as (_ & _ & _ & _ & Hperm & Hearly).
  assert (Hnd : NoDup ((snd <$> MultiThreadedTCPServer.handled s)
                       ++ MultiThreadedTCPServer.unprocessed s))
    by (by rewrite Hperm, <- submitted_app).
  apply NoDup_app in Hnd as (Hndh & _ & _).
  split.
  - apply handled_once; [done|].
    assert (Hin : c ∈ (snd <$> MultiThreadedTCPServer.handled s)
                      ++ MultiThreadedTCPServer.unprocessed s)
      by (rewrite Hperm; apply elem_of_app; by left).
    apply elem_of_app in Hin as [?|Hu]; [done|]. by apply Hearly in Hu.
  - intros c' Hc'.
    assert (Hin : c' ∈ MultiThreadedTCPServer.submitted before_stop
                       ++ MultiThreadedTCPServer.submitted during_stop)
      by (rewrite <- Hperm; apply elem_of_app; by right).
    apply elem_of_app in Hin as [Hin|Hin]; [|done]. by apply Hearly in Hc'.
Qed.

Lemma connections_accepted_before_stop_are_handled_witness :
  MultiThreadedTCPServer.times_handled 2 ShutdownRun.final = 1 ∧
  ∀ c', c' ∈ MultiThreadedTCPServer.unprocessed ShutdownRun.final →
        c' ∈ MultiThreadedTCPServer.submitted ShutdownRun.during_stop.
Proof.
  apply (connections_accepted_before_stop_are_handled 8080 2 3 PoolRun.server
           ShutdownRun.final ShutdownRun.before_stop ShutdownRun.during_stop 2).
  - vm_compute; reflexivity.
  - refine (bool_decide_unpack _ _); vm_compute; exact I.
  - refine (bool_decide_unpack _ _); vm_compute; exact I.
  - vm_compute; reflexivity.
  - refine (bool_decide_unpack _ _); vm_compute; exact I.
Defined.

Section Missed.
Import ConditionWait.

Lemma step_missed i l s s' :
  missed i s → l ≠ NotifyOne i → l ≠ Spurious i →
  step l s = Some s' → l ≠ StopJoin ∧ missed i s'.
Proof.
  intros (Hi & Hstop & Hj) Hn Hs.
  destruct s as [ws q stop st h u]. simpl in Hi, Hstop, Hj. subst stop st.
  unfold missed.
  destruct l as [c|j|j|j|j|j| | |]; unfold step, mutex_free, set_worker;
    cbn [workers client_queue stop_requested stop_thread handled unprocessed].
  - case_bool_decide; [|done]. intros [= <-]. done.
  - destruct (ws !! j) as [[| | | |]|] eqn:Ej; try done.
    assert (j ≠ i) by (intros ->; done).
    intros [= <-]. cbn. by rewrite list_lookup_insert_ne.
  - destruct (ws !! j) as [[| | | |]|] eqn:Ej; try done.
    assert (j ≠ i) by (intros ->; done).
    intros [= <-]. cbn. by rewrite list_lookup_insert_ne.
  - destruct (ws !! j) as [[| | | |]|] eqn:Ej; try done.
    assert (j ≠ i) by (intros ->; destruct Hi; congruence).
    case_bool_decide; [|done]. rewrite orb_true_r. cbn [andb].
    case_bool_decide.
    + intros [= <-]. cbn. by rewrite list_lookup_insert_ne.
    + destruct q as [|c q]; intros [= <-]; cbn; [done|].
      by rewrite list_lookup_insert_ne.
  - destruct (ws !! j) as [[| | | |]|] eqn:Ej; try done.
    intros [= <-]. cbn. split; [done|]. split; [|done].
    destruct (decide (j = i)) as [->|Hne].
    + right. apply list_lookup_insert_eq. by eapply lookup_lt_Some.
    + by rewrite list_lookup_insert_ne.
  - destruct (ws !! j) as [[| | | |]|] eqn:Ej; try done.
    assert (j ≠ i) by (intros ->; destruct Hi; congruence).
    intros [= <-]. cbn. by rewrite list_lookup_insert_ne.
  - intros [= <-]; done.
  - done.
  - rewrite bool_decide_eq_true_2 by done. cbn [andb].
    case_bool_decide as Hall; [|done]. exfalso.
    rewrite Forall_forall in Hall.
    destruct Hi as [Hi|Hi];
      by specialize (Hall _ (list_elem_of_lookup_2 _ _ _ Hi)).
Qed.

Lemma exec_missed i trace s s' :
  missed i s → NotifyOne i ∉ trace → Spurious i ∉ trace →
  exec trace s = Some s' → (StopJoin ∉ trace) ∧ missed i s'.
Proof.
  revert s. induction trace as [|l trace IH]; intros s Hm Hn Hs; cbn [exec].
  - intros [= <-]. split; [apply not_elem_of_nil|done].
  - apply not_elem_of_cons in Hn as [Hn Hn'].
    apply not_elem_of_cons in Hs as [Hs Hs'].
    destruct (step l s) as [s1|] eqn:E; [|done]. intros H.
    destruct (step_missed i l s s1 Hm ltac:(congruence) ltac:(congruence) E)
      as [Hl Hm1].
    destruct (IH _ Hm1 Hn' Hs' H) as [Hj Hm'].
    split; [|done]. apply not_elem_of_cons. split; [congruence|done].
Qed.

(** Between [exchange(true)] and [notify_all()]: a worker that holds
    [queue_mutex] and is about to sleep stays so until it sleeps. *)
Lemma step_about_to_sleep i l s s' :
  workers s !! i = Some Checked → stop_requested s = true →
  stop_thread s = Flagged →
  l ≠ Block i → l ≠ StopNotify →
  step l s = Some s' →
  l ≠ StopJoin ∧ workers s' !! i = Some Checked ∧ stop_requested s' = true ∧
  stop_thread s' = Flagged.
Proof.
  intros Hi Hstop Hst Hb Hn.
  destruct s as [ws q stop st h u]. simpl in Hi, Hstop, Hst. subst stop st.
  assert (Hheld : bool_decide (Checked ∉ ws) = false).
  { apply bool_decide_eq_false_2. intros H. apply H.
    by eapply list_elem_of_lookup_2. }
  destruct l as [c|j|j|j|j|j| | |]; unfold step, mutex_free, set_worker;
    cbn [workers client_queue stop_requested stop_thread handled unprocessed];
    rewrite ?Hheld; try done.
  - destruct (ws !! j) as [[| | | |]|] eqn:Ej; try done.
    assert (j ≠ i) by (intros ->; congruence).
    intros [= <-]. cbn. by rewrite list_lookup_insert_ne.
  - destruct (ws !! j) as [[| | | |]|] eqn:Ej; try done.
    assert (j ≠ i) by (intros ->; congruence).
    intros [= <-]. cbn. by rewrite list_lookup_insert_ne.
  - by destruct (ws !! j) as [[| | | |]|].
  - destruct (ws !! j) as [[| | | |]|] eqn:Ej; try done.
    assert (j ≠ i) by (intros ->; congruence).
    intros [= <-]. cbn. by rewrite list_lookup_insert_ne.
  - destruct (ws !! j) as [[| | | |]|] eqn:Ej; try done.
    assert (j ≠ i) by (intros ->; congruence).
    intros [= <-]. cbn. by rewrite list_lookup_insert_ne.
  - intros [= <-]. done.
Qed.

Lemma exec_about_to_sleep i trace s s' :
  workers s !! i = Some Checked → stop_requested s = true →
  stop_thread s = Flagged →
  Block i ∉ trace → StopNotify ∉ trace →
  exec trace s = Some s' →
  (StopJoin ∉ trace) ∧ workers s' !! i = Some Checked ∧
  stop_requested s' = true ∧ stop_thread s' = Flagged.
Proof.
  revert s. induction trace as [|l trace IH]; intros s Hi Hstop Hst Hb Hn; cbn [exec].
  - intros [= <-]. split; [apply not_elem_of_nil|done].
  - apply not_elem_of_cons in Hb as [Hb Hb'].
    apply not_elem_of_cons in Hn as [Hn Hn'].
    destruct (step l s) as [s1|] eqn:E; [|done]. intros H.
    destruct (step_about_to_sleep i l s s1 Hi Hstop Hst
                ltac:(congruence) ltac:(congruence) E) as (Hl & Hi1 & Hstop1 & Hst1).
    destruct (IH _ Hi1 Hstop1 Hst1 Hb' Hn' H) as (Hj & ?).
    split; [|done]. apply not_elem_of_cons. split; [congruence|done].
Qed.

Lemma exec_wait_app trace1 trace2 s :
  exec (trace1 ++ trace2) s = exec trace1 s ≫= exec trace2.
Proof.
  revert s. induction trace1 as [|l trace1 IH]; intros s; simpl; [done|].
  destruct (step l s); [apply IH | done].
Qed.

End Missed.

(** X17. [stop()] can wait for ever.  It sets [stop_requested] and
    calls [notify_all()] without holding [queue_mutex].  A worker that
    has found the predicate of its wait false and does not sleep yet
    when [notify_all()] is called is not woken by it; it then sleeps
    with the flag set, and as long as no later [notify_one()] and no
    spurious wakeup reaches it, it stays asleep whatever the other
    threads do, and the joins of [stop()] are not over.  Every freshly
    started pool can reach such a state: its first worker finds the
    queue empty. *)
Theorem stop_waits_for_ever_for_a_worker_that_missed_the_notification :
  (∀ (port : Z) (threads : N) (server : MultiThreadedTCPServer.t),
     MultiThreadedTCPServer.new port threads = Ret server →
     ∃ s, ConditionWait.exec [ConditionWait.Check 0]
            (ConditionWait.start (MultiThreadedTCPServer.num_threads server))
          = Some s ∧
          ConditionWait.workers s !! 0 = Some ConditionWait.Checked ∧
          ConditionWait.stop_requested s = false) ∧
  (∀ (s s' : ConditionWait.t) (i : nat) (mid more : list ConditionWait.label),
     ConditionWait.workers s !! i = Some ConditionWait.Checked →
     ConditionWait.stop_requested s = false →
     ConditionWait.Block i ∉ mid →
     ConditionWait.StopNotify ∉ mid →
     ConditionWait.NotifyOne i ∉ more →
     ConditionWait.Spurious i ∉ more →
     ConditionWait.exec
       (ConditionWait.StopSet :: mid ++ ConditionWait.StopNotify :: more) s
       = Some s' →
     (ConditionWait.StopJoin ∉ mid ++ more) ∧
     ConditionWait.missed i s' ∧
     ConditionWait.step ConditionWait.StopJoin s' = None).
Proof.
  split.
  - intros port threads server. unfold MultiThreadedTCPServer.new.
    case_decide as Hn; [done|]. intros [= <-].
    cbn [MultiThreadedTCPServer.num_threads]. unfold ConditionWait.start.
    destruct (N.to_nat _) as [|k] eqn:Ek; [lia|].
    eexists. split_and!.
    + cbn [ConditionWait.exec ConditionWait.step ConditionWait.workers
           replicate lookup list_lookup].
      assert (Hfree : ConditionWait.mutex_free
                (ConditionWait.mk (ConditionWait.Ready :: replicate k ConditionWait.Ready)
                   [] false ConditionWait.NotCalled [] []) = true).
      { apply bool_decide_eq_true_2. cbn. intros [?|H]%elem_of_cons; [done|].
        by apply elem_of_replicate in H as [? _]. }
      rewrite Hfree. reflexivity.
    + reflexivity.
    + reflexivity.
  - intros s s' i mid more Hi Hstop Hb Hnot Hn Hs.
    cbn [ConditionWait.exec ConditionWait.step]. rewrite Hstop.
    rewrite exec_wait_app.
    destruct (ConditionWait.exec mid _) as [s1|] eqn:E1; [|done].
    apply (exec_about_to_sleep i) in E1 as (Hj1 & Hi1 & Hstop1 & Hst1);
      [|done..].
    cbn [mbind option_bind ConditionWait.exec ConditionWait.step].
    rewrite Hst1. rewrite decide_True by done. intros Hexec.
    apply (exec_missed i) in Hexec as [Hj Hm']; [|split_and!; try done|done..].
    2:{ left. cbn. by rewrite list_lookup_fmap, Hi1. }
    split_and!; [|done|].
    + intros [?|?]%elem_of_app; done.
    + destruct Hm' as (Hi' & _ & Hst). cbn [ConditionWait.step]. rewrite Hst.
      rewrite bool_decide_eq_true_2 by done. cbn [andb].
      case_bool_decide as Hall; [|done]. exfalso.
      rewrite Forall_forall in Hall.
      destruct Hi' as [Hi'|Hi'];
        by specialize (Hall _ (list_elem_of_lookup_2 _ _ _ Hi')).
Qed.

Lemma stop_waits_for_ever_for_a_worker_that_missed_the_notification_witness :
  ConditionWait.exec MissedWakeup.trace (ConditionWait.start 2)
    = Some MissedWakeup.final ∧
  ConditionWait.missed 0 MissedWakeup.final ∧
  ConditionWait.step ConditionWait.StopJoin MissedWakeup.final = None.
Proof.
  split; [vm_compute; reflexivity|].
  apply (proj2 stop_waits_for_ever_for_a_worker_that_missed_the_notification
           (ConditionWait.mk [ConditionWait.Checked; ConditionWait.Ready] []
              false ConditionWait.NotCalled [] [])
           MissedWakeup.final 0 [] [ConditionWait.Block 0; ConditionWait.Check 1]).
  - reflexivity.
  - reflexivity.
  - refine (bool_decide_unpack _ _); vm_compute; exact I.
  - refine (bool_decide_unpack _ _); vm_compute; exact I.
  - refine (bool_decide_unpack _ _); vm_compute; exact I.
  - refine (bool_decide_unpack _ _); vm_compute; exact I.
  - vm_compute; reflexivity.
Defined.

Section StopWaits.
Import MultiThreadedTCPServer.

(** A worker stays in its handler until the handler returns, and as
    long as it does the joins of [stop()] are not over. *)
Lemma step_keeps_handler l s s' i c :
  workers s !! i = Some (Handling c) →
  l ≠ Finish i →
  step l s = Some s' →
  l ≠ StopJoin ∧ workers s' !! i = Some (Handling c).
Proof.
  intros Hi Hl.
  destruct s as [p fd nt ws q stop stopping h u]. simpl in Hi.
  destruct l as [c'|j|j| |]; cbn [step client_queue workers stop_requested
                                  MultiThreadedTCPServer.stopping unprocessed].
  - intros [= <-]. done.
  - destruct (ws !! j) as [[| |]|] eqn:Ej; try done.
    assert (j ≠ i) by (intros ->; congruence).
    destruct (bool_decide (q ≠ []) || stop); [|done].
    destruct (stop && bool_decide (q = [])).
    + intros [= <-]. split; [done|]. cbn. by rewrite list_lookup_insert_ne.
    + destruct q as [|c0 q]; intros [= <-]; (split; [done|]); cbn; [done|].
      by rewrite list_lookup_insert_ne.
  - destruct (ws !! j) as [[| |]|] eqn:Ej; try done.
    assert (j ≠ i) by (intros ->; congruence).
    intros [= <-]. split; [done|]. cbn. by rewrite list_lookup_insert_ne.
  - destruct stop; intros [= <-]; done.
  - destruct stopping; [|done]. cbn [andb].
    case_bool_decide as Hall; [|done]. exfalso.
    rewrite Forall_forall in Hall.
    by specialize (Hall _ (list_elem_of_lookup_2 _ _ _ Hi)).
Qed.

End StopWaits.

(** X18. [stop()] waits for every running handler: as long as the
    handler of one worker has not returned, the joins of [stop()] are
    not over, whatever the other threads do.  A connection whose
    handler never returns (C6, C7) so keeps [stop()], and the
    destructor that calls it, from returning. *)
Theorem stop_waits_for_running_handlers :
  ∀ (s : MultiThreadedTCPServer.t) (i : nat) (c : nat)
    (trace : list MultiThreadedTCPServer.label),
    MultiThreadedTCPServer.workers s !! i
      = Some (MultiThreadedTCPServer.Handling c) →
    MultiThreadedTCPServer.Finish i ∉ trace →
    MultiThreadedTCPServer.StopJoin ∈ trace →
    MultiThreadedTCPServer.exec trace s = None.
Proof.
  intros s i c trace. revert s.
  induction trace as [|l trace IH]; intros s Hi Hfinish Hjoin.
  - by apply elem_of_nil in Hjoin.
  - apply not_elem_of_cons in Hfinish as [Hl Hfinish].
    cbn [MultiThreadedTCPServer.exec].
    destruct (MultiThreadedTCPServer.step l s) as [s1|] eqn:E; [|done].
    destruct (step_keeps_handler _ _ _ _ _ Hi ltac:(done) E) as [Hne Hi1].
    apply IH; [done|done|].
    apply elem_of_cons in Hjoin as [Heq|Hjoin]; [congruence|done].
Qed.

Lemma stop_waits_for_running_handlers_witness :
  MultiThreadedTCPServer.exec StuckHandler.trace StuckHandler.server = None.
Proof.
  apply (stop_waits_for_running_handlers StuckHandler.server 0 1 StuckHandler.trace).
  - reflexivity.
  - refine (bool_decide_unpack _ _). vm_compute. exact I.
  - refine (bool_decide_unpack _ _). vm_compute. exact I.
Defined.

(* ================================================================== *)
(** * Responses are read back by the parser *)
(* ================================================================== *)

Section DecimalRoundTrip.

Lemma string_of_uint_digits d :
  Forall is_decimal (lit (NilEmpty.string_of_uint d)).
Proof.
  induction d; cbn [NilEmpty.string_of_uint lit list_ascii_of_string];
    [constructor|..]; (constructor; [by eexists|done]).
Qed.

Lemma decimal_not_special c :
  is_decimal c →
  isspace c = false ∧ c ≠ "-"%char ∧ c ≠ "+"%char ∧ c ≠ LF ∧ c ∉ [SP; HT].
Proof.
  intros [d Hd].
  destruct c as [[] [] [] [] [] [] [] []]; try (vm_compute in Hd; discriminate Hd);
    (split_and!; [reflexivity|discriminate..|]);
    (intros H; refine (bool_decide_eq_false_1 _ _ H); vm_compute; reflexivity).
Qed.

Lemma scan_digits_decimal d acc :
  scan_digits 10 (lit (NilEmpty.string_of_uint d)) acc
  = (N.of_nat (Nat.of_uint_acc d (N.to_nat acc)),
     length (lit (NilEmpty.string_of_uint d))).
Proof.
  revert acc.
  induction d as [|d IH|d IH|d IH|d IH|d IH|d IH|d IH|d IH|d IH|d IH]; intros acc;
    cbn [NilEmpty.string_of_uint lit list_ascii_of_string scan_digits
         Nat.of_uint_acc length];
    [by rewrite N2Nat.id|..];
    match goal with
    | |- context [digit_in_base 10 ?c] =>
        let v := eval vm_compute in (digit_in_base 10 c) in
        change (digit_in_base 10 c) with v
    end;
    cbv beta iota;
    fold (lit (NilEmpty.string_of_uint d)); rewrite IH;
    rewrite Nat.tail_mul_spec; do 3 f_equal; lia.
Qed.

Lemma to_uint_not_nil n : Nat.to_uint n ≠ Decimal.Nil.
Proof.
  rewrite <- (Unsigned.of_to n) at 1. rewrite Unsigned.to_of.
  unfold Decimal.unorm. by destruct (Decimal.nzhead _).
Qed.

Lemma to_string_head n :
  ∃ c rest, to_string n = c :: rest ∧ is_decimal c.
Proof.
  unfold to_string. pose proof (string_of_uint_digits (Nat.to_uint n)) as H.
  pose proof (to_uint_not_nil n) as Hn.
  destruct (Nat.to_uint n); try done;
    cbn [NilEmpty.string_of_uint lit list_ascii_of_string] in *;
    apply Forall_cons in H as [? _]; eauto.
Qed.

Lemma strip_0x_10 s : strip_0x 10 s = s.
Proof. by destruct s as [|? [|? [|? ?]]]. Qed.

(** [std::stoul] reads back what [std::to_string] writes. *)
Lemma stoul_to_string n :
  (N.of_nat n ≤ ULONG_MAX)%N → stoul (to_string n) 10 = Ret (N.of_nat n).
Proof.
  intros Hmax. destruct (to_string_head n) as (c & rest & E & Hc).
  destruct (decimal_not_special c Hc) as (Hsp & Hminus & Hplus & _).
  unfold stoul. rewrite E. cbn [skip_spaces]. rewrite Hsp.
  cbn [strip_sign]. rewrite !decide_False by done.
  rewrite strip_0x_10, <- E. unfold to_string. rewrite scan_digits_decimal.
  change (Nat.of_uint_acc (Nat.to_uint n) (N.to_nat 0))
    with (Nat.of_uint (Nat.to_uint n)).
  rewrite Unsigned.of_to.
  fold (to_string n). rewrite E. cbn [length].
  rewrite decide_False by done. by rewrite decide_False by lia.
Qed.

Lemma to_string_no_LF n : LF ∉ to_string n.
Proof.
  unfold to_string. pose proof (string_of_uint_digits (Nat.to_uint n)) as H.
  intros Hin. rewrite Forall_forall in H.
  destruct (decimal_not_special _ (H _ Hin)) as (_ & _ & _ & Hlf & _). done.
Qed.

Lemma strip_leading_to_string n : strip_leading (to_string n) = to_string n.
Proof.
  destruct (to_string_head n) as (c & rest & E & Hc).
  destruct (decimal_not_special c Hc) as (_ & _ & _ & _ & Hsp).
  rewrite E. cbn [strip_leading]. by rewrite bool_decide_eq_false_2.
Qed.

Lemma to_string_int_no_LF z : LF ∉ to_string_int z.
Proof.
  unfold to_string_int. destruct (Z.to_int z) as [d|d];
    cbn [NilEmpty.string_of_int lit list_ascii_of_string].
  - intros Hin. pose proof (string_of_uint_digits d) as H.
    rewrite Forall_forall in H.
    destruct (decimal_not_special _ (H _ Hin)) as (_ & _ & _ & Hlf & _). done.
  - intros [E|Hin]%elem_of_cons; [vm_compute in E; discriminate|].
    pose proof (string_of_uint_digits d) as H.
    rewrite Forall_forall in H.
    destruct (decimal_not_special _ (H _ Hin)) as (_ & _ & _ & Hlf & _). done.
Qed.

End DecimalRoundTrip.

Section ResponseRoundTrip.
Import HttpReader HttpMessage.

Lemma create_extra_headers (headers : list (bytes * bytes)) response :
  foldl (λ response '(key, value), response ++ (key ++ lit ": " ++ value ++ CRLF))
        response headers
  = response ++ concat (header_line <$> ((λ kv, (kv.1, SP :: kv.2)) <$> headers)).
Proof.
  revert response. induction headers as [|[key value] headers IH]; intros response.
  - by rewrite app_nil_r.
  - cbn [foldl fmap list_fmap concat]. rewrite IH, <- app_assoc. done.
Qed.

Lemma create_header_block status content content_type headers :
  Http.create status content content_type headers
  = header_block (lit "HTTP/1.1 " ++ to_string_int status ++ lit " "
                    ++ Http.get_status_message status)
                 (response_fields content_type (length content) headers)
    ++ content.
Proof.
  unfold Http.create, header_block, response_fields.
  rewrite create_extra_headers. rewrite fmap_app, concat_app.
  cbn [fmap list_fmap concat header_line fst snd app].
  rewrite <- !app_assoc. do 5 f_equal.
  unfold lit. cbn [list_ascii_of_string app]. rewrite <- !app_assoc.
  reflexivity.
Qed.

Lemma status_line_no_LF status :
  LF ∉ lit "HTTP/1.1 " ++ to_string_int status ++ lit " "
         ++ Http.get_status_message status.
Proof.
  rewrite !elem_of_app. intros [H|[H|[H|H]]].
  - revert H. refine (bool_decide_eq_false_1 _ _). vm_compute. reflexivity.
  - by apply to_string_int_no_LF in H.
  - revert H. refine (bool_decide_eq_false_1 _ _). vm_compute. reflexivity.
  - revert H. unfold Http.get_status_message.
    repeat case_decide; refine (bool_decide_eq_false_1 _ _); vm_compute; reflexivity.
Qed.

Lemma response_fields_plain content_type n headers :
  LF ∉ content_type → Forall extra_header headers →
  Forall plain_field (response_fields content_type n headers).
Proof.
  intros Hct Hh. unfold response_fields. apply Forall_app. split.
  - assert (Hsp : SP ≠ LF) by (vm_compute; discriminate).
    repeat constructor; cbn [fst snd];
      try (refine (bool_decide_eq_false_1 _ _); vm_compute; reflexivity).
    + intros [?|?]%elem_of_cons; [by apply Hsp|done].
    + intros [?|?]%elem_of_cons; [by apply Hsp|]. by eapply to_string_no_LF.
  - apply Forall_fmap. eapply Forall_impl; [exact Hh|].
    intros [k v] [(Hc & Hk & Hv) _]. split_and!; cbn [fst snd] in *; try done.
    intros [E|?]%elem_of_cons; [vm_compute in E; discriminate|done].
Qed.

Lemma response_fields_framing content_type n headers :
  Forall extra_header headers →
  stored_fields (response_fields content_type n headers)
    !! lit "transfer-encoding" = None ∧
  stored_fields (response_fields content_type n headers)
    !! lit "content-length" = Some (to_string n).
Proof.
  intros Hh. unfold stored_fields, response_fields.
  assert (Hextra : ∀ kv k, k = lit "content-length" ∨ k = lit "transfer-encoding" →
            kv ∈ (λ kv, (kv.1, SP :: kv.2)) <$> headers → (stored kv).1 ≠ k).
  { intros kv k Hk [[k0 v0] [-> Hin]]%list_elem_of_fmap.
    rewrite Forall_forall in Hh. destruct (Hh _ Hin) as (_ & H1 & H2).
    unfold stored in *. cbn [fst snd] in *. by destruct Hk as [->| ->]. }
  split.
  - rewrite foldl_insert_lookup_later; [done|].
    intros kv [Hin|Hin]%elem_of_app; [|by apply Hextra; [right|]].
    repeat (apply elem_of_cons in Hin as [->|Hin]; [vm_compute; discriminate|]).
    by apply elem_of_nil in Hin.
  - change ([(lit "Content-Type", SP :: content_type);
             (lit "Content-Length", SP :: to_string n);
             (lit "Connection", lit " close")]
            ++ ((λ kv, (kv.1, SP :: kv.2)) <$> headers))
      with ([(lit "Content-Type", SP :: content_type)]
            ++ (lit "Content-Length", SP :: to_string n)
            :: ([(lit "Connection", lit " close")]
                ++ ((λ kv, (kv.1, SP :: kv.2)) <$> headers))).
    rewrite foldl_app. cbn [foldl].
    rewrite foldl_insert_lookup_later.
    + replace ((stored (lit "Content-Length", SP :: to_string n)).1)
        with (lit "content-length") by (vm_compute; reflexivity).
      rewrite lookup_insert_eq. f_equal.
      unfold stored. cbn [fst snd strip_leading].
      rewrite bool_decide_eq_true_2 by (by left).
      apply strip_leading_to_string.
    + intros kv [Hin|Hin]%elem_of_cons; [|by apply Hextra; [left|]].
      subst kv. vm_compute. discriminate.
Qed.

End ResponseRoundTrip.

(** X19. A response built by [Http::create] is a message that
    [HttpMessage::parse] reads back: the start line is the status line,
    the [content-length] header holds the decimal size of the content,
    and the body is the content.  Extra headers are allowed as long as
    none of them is stored under [content-length] or
    [transfer-encoding]. *)
Theorem response_is_read_back_by_parse :
  ∀ (fuel : nat) (status : Z) (content content_type : bytes)
    (headers : list (bytes * bytes)),
    LF ∉ content_type →
    Forall extra_header headers →
    length (Http.create status content content_type headers)
      ≤ length content + HttpReader.DEFAULT_BUFSIZE →
    (N.of_nat (length content) ≤ HttpReader.vector_max_size)%N →
    length headers + length content + 5 ≤ fuel →
    ∃ h, HttpMessage.parse fuel
           [Segment (Http.create status content content_type headers)]
         = Ret (HttpMessage.mk
                  (lit "HTTP/1.1 " ++ to_string_int status ++ lit " "
                     ++ Http.get_status_message status)
                  h content) ∧
         h !! lit "content-length" = Some (to_string (length content)).
Proof.
  intros fuel status content content_type headers Hct Hh Hlen Hmax Hfuel.
  rewrite create_header_block in *. rewrite length_app in Hlen.
  destruct (response_fields_framing content_type (length content) headers Hh)
    as [Hte Hcl].
  eexists. split; [|exact Hcl].
  rewrite <- (app_nil_r content) at 2.
  apply (parse_sized_request fuel _ _ content [] []
           (to_string (length content))); try done.
  - apply status_line_no_LF.
  - by apply response_fields_plain.
  - lia.
  - apply stoul_to_string. unfold ULONG_MAX, HttpReader.vector_max_size in *. lia.
  - unfold response_fields. rewrite length_app, length_fmap. simpl. lia.
Qed.

Lemma response_is_read_back_by_parse_witness :
  ∃ h, HttpMessage.parse 30
         [Segment (Http.create 200 (lit "Hello back from server")
                     Http.default_content_type [(lit "X-Server", lit "cpp")])]
       = Ret (HttpMessage.mk
                (lit "HTTP/1.1 " ++ to_string_int 200 ++ lit " "
                   ++ Http.get_status_message 200)
                h (lit "Hello back from server")) ∧
       h !! lit "content-length" = Some (to_string (length (lit "Hello back from server"))).
Proof.
  apply (response_is_read_back_by_parse 30 200 (lit "Hello back from server")
           Http.default_content_type [(lit "X-Server", lit "cpp")]).
  - refine (bool_decide_unpack _ _). vm_compute. exact I.
  - constructor; [|constructor].
    split_and!; try (refine (bool_decide_unpack _ _); vm_compute; exact I);
      vm_compute; discriminate.
  - apply Nat.leb_le. vm_compute. reflexivity.
  - vm_compute. discriminate.
  - simpl. lia.
Defined.

(* ================================================================== *)
(** * A header block cut by the end of the stream *)
(* ================================================================== *)

Section CutHeadLemmas.
Import HttpReader HttpMessage.

Lemma search_cut_lines t fields :
  LF ∉ t → Forall plain_field fields →
  search (t ++ CRLF ++ concat (header_line <$> fields)) CRLFCRLF = None.
Proof.
  intros Ht Hf. revert t Ht.
  induction Hf as [|[key value] fields Hkv _ IH]; intros t Ht.
  - rewrite search_CRLFCRLF_line by done. done.
  - destruct (plain_field_line _ _ Hkv) as [Hline Hstart].
    rewrite search_CRLFCRLF_line by done.
    assert (E : concat (header_line <$> (key, value) :: fields)
                = (key ++ ":"%char :: value) ++ CRLF
                    ++ concat (header_line <$> fields)).
    { unfold header_line at 1. cbn [fmap list_fmap concat fst snd].
      change (lit ":") with [":"%char]. by rewrite <- !app_assoc. }
    rewrite E, Hstart, IH by done. done.
Qed.

(** [read_until] on a fresh reader whose only segment does not hold
    the delimiter: the segment is returned when the next [read]
    returns [0]. *)
Lemma read_until_whole_segment fuel delimiter data buf_size :
  delimiter ≠ [] → data ≠ [] → length data ≤ buf_size →
  search data delimiter = None →
  ∃ r1, read_until (S (S (S fuel))) delimiter (new [Segment data] buf_size)
        = Ret (data, r1) ∧
        bufflen_ r1 = 0 ∧ pos_ r1 = 0 ∧ length (buffer_ r1) = buf_size.
Proof.
  intros Hd Hdata Hcap Hk. unfold read_until, new.
  set (buf := replicate buf_size NUL).
  assert (Hbuf : length buf = buf_size) by apply length_replicate.
  assert (Hlen : 0 < length data) by (destruct data; [done|simpl; lia]).
  change (read_until_loop (S (S (S fuel))) delimiter []
            (HttpReader.mk [Segment data] buf 0 0))
    with (if decide (length buf ≤ 0)
          then r' ← refill_buffer (HttpReader.mk [Segment data] buf 0 0);
               if decide (bufflen_ r' = 0) then Ret ([], r')
               else scan_buffer delimiter [] r'
                      (read_until_loop (S (S fuel)) delimiter)
          else scan_buffer delimiter [] (HttpReader.mk [Segment data] buf 0 0)
                 (read_until_loop (S (S fuel)) delimiter)).
  rewrite decide_False by lia. unfold scan_buffer.
  cbn [bufflen_ pos_ buffer_ Nat.sub]. rewrite take_0.
  replace (search [] delimiter) with (@None nat) by (by destruct delimiter).
  unfold set_pos. cbn [buffer_ pos_ fd_ bufflen_ app].
  set (r0 := HttpReader.mk [Segment data] buf 0 (length buf)).
  change (read_until_loop (S (S fuel)) delimiter [] r0)
    with (if decide (length (buffer_ r0) ≤ pos_ r0)
          then r' ← refill_buffer r0;
               if decide (bufflen_ r' = 0) then Ret ([], r')
               else scan_buffer delimiter [] r' (read_until_loop (S fuel) delimiter)
          else scan_buffer delimiter [] r0 (read_until_loop (S fuel) delimiter)).
  rewrite decide_True by (unfold r0; simpl; lia).
  unfold refill_buffer, r0. cbn [buffer_ fd_ sys_read].
  rewrite decide_True by lia. cbn [mbind outcome_bind bufflen_].
  rewrite decide_False by lia.
  unfold scan_buffer. cbn [bufflen_ pos_ buffer_ fd_ app].
  rewrite Nat.sub_0_r, drop_0, take_app_length, Hk.
  unfold set_pos. cbn [buffer_ pos_ fd_ bufflen_].
  set (buf1 := data ++ drop (length data) buf).
  assert (Hbuf1 : length buf1 = buf_size).
  { unfold buf1. rewrite length_app, length_drop. lia. }
  cbn [read_until_loop buffer_ pos_]. rewrite decide_True by lia.
  unfold refill_buffer. cbn [buffer_ fd_ sys_read mbind outcome_bind bufflen_ length].
  rewrite decide_True by done.
  eexists. split; [done|]. cbn [bufflen_ pos_ buffer_ length app drop].
  split_and!; try done.
Qed.

(** The header lines of a block that ends without a blank line. *)
Lemma parse_headers_loop_cut fuel before fields headers :
  Forall plain_field fields →
  length fields < fuel →
  parse_headers_loop fuel
    (before ++ concat (header_line <$> fields)) (length before) headers
  = Ret (foldl (λ m kv, <[(stored kv).1 := (stored kv).2]> m) headers fields).
Proof.
  intros Hf. revert fuel before headers.
  induction Hf as [|[key value] fields (Hcolon & Hk & Hv) _ IH];
    intros fuel before headers Hfuel.
  - destruct fuel as [|fuel]; [simpl in Hfuel; lia|].
    cbn [fmap list_fmap concat parse_headers_loop foldl].
    rewrite app_nil_r. by rewrite decide_False by lia.
  - destruct fuel as [|fuel]; [simpl in Hfuel; lia|].
    simpl in Hk, Hv, Hcolon.
    set (line := key ++ ":"%char :: value).
    assert (Hline : LF ∉ line).
    { unfold line. rewrite elem_of_app, elem_of_cons.
      intros [?|[E|?]]; [contradiction| |contradiction].
      vm_compute in E. discriminate. }
    assert (Hdata : before ++ concat (header_line <$> (key, value) :: fields)
              = before ++ line ++ CRLF ++ concat (header_line <$> fields)).
    { unfold line, header_line. cbn [fmap list_fmap concat fst snd].
      change (lit ":") with [":"%char].
      by rewrite <- !app_assoc. }
    rewrite Hdata. cbn [parse_headers_loop].
    rewrite decide_True
      by (rewrite !length_app; unfold line; rewrite length_app; simpl; lia).
    rewrite find_CRLF by done.
    replace (length before + length line - length before) with (length line) by lia.
    assert (Hsub : substr (before ++ line ++ CRLF ++ concat (header_line <$> fields))
                     (length before) (length line) = line).
    { unfold substr. rewrite drop_app_length. by rewrite take_app_length. }
    rewrite Hsub.
    rewrite decide_False by (unfold line; by destruct key).
    unfold find at 1. rewrite decide_True by lia. rewrite drop_0.
    unfold line at 1. rewrite search_colon by done.
    cbn [fmap option_fmap option_map Nat.add].
    unfold line at 1. rewrite header_field_stored.
    cbn [foldl].
    specialize (IH fuel (before ++ line ++ CRLF)
                  (<[(stored (key, value)).1 := (stored (key, value)).2]> headers)).
    rewrite <- !app_assoc in IH.
    replace (length before + length line + 2) with (length (before ++ line ++ CRLF))
      by (rewrite !length_app; simpl; lia).
    rewrite <- IH by (simpl in Hfuel; lia). done.
Qed.

Lemma parse_cut_block fuel start_line fields :
  LF ∉ start_line → Forall plain_field fields → length fields < fuel →
  parse_start_line (cut_header_block start_line fields) = Ret start_line ∧
  parse_headers fuel (cut_header_block start_line fields) ∅ = Ret (stored_fields fields).
Proof.
  intros Hsl Hfields Hfuel.
  pose proof (find_CRLF [] start_line
                (concat (header_line <$> fields)) Hsl) as Hfind.
  cbn [app length Nat.add] in Hfind. split.
  - unfold parse_start_line, cut_header_block. rewrite Hfind.
    unfold substr. by rewrite drop_0, take_app_length.
  - unfold parse_headers, cut_header_block. rewrite Hfind.
    replace (length start_line + 2)
      with (length (start_line ++ CRLF)) by (rewrite length_app; simpl; lia).
    rewrite (app_assoc start_line CRLF).
    by apply parse_headers_loop_cut.
Qed.

End CutHeadLemmas.

(** X20. A header block that the end of the stream cuts before its
    blank line is not an error.  Without a [transfer-encoding] and a
    [content-length] header the request is taken as complete and
    answered with an empty echo.  With a [content-length] that asks
    for a body, [parse] calls [read_fixed] on a reader whose loop
    never ends, although the stream has ended; so [parse] never
    returns when the body asked for is no larger than the reader's
    buffer. *)
Theorem header_block_cut_by_end_of_stream :
  ∀ (start_line : bytes) (fields : list (bytes * bytes)),
    LF ∉ start_line →
    Forall plain_field fields →
    length (cut_header_block start_line fields) ≤ HttpReader.DEFAULT_BUFSIZE →
    let h := stored_fields fields in
    let inbound := [Segment (cut_header_block start_line fields)] in
    h !! lit "transfer-encoding" = None →
    (h !! lit "content-length" = None →
       ∀ fuel, length fields + 3 ≤ fuel →
         HttpMessage.parse fuel inbound = Ret (HttpMessage.mk start_line h []) ∧
         TCPServer.handle_connection fuel inbound [] = Ret (TCPServer.echo_headers [])) ∧
    (∀ v n, h !! lit "content-length" = Some v → stoul v 10 = Ret n → (0 < n)%N →
       ∃ r1,
         (∀ fuel, length fields + 3 ≤ fuel →
            HttpMessage.parse fuel inbound
            = '(body, _) ← HttpReader.read_fixed fuel n r1;
              Ret (HttpMessage.mk start_line h body)) ∧
         (∀ fuel, HttpReader.read_fixed_loop fuel n [] r1 = OutOfFuel) ∧
         ((n ≤ N.of_nat HttpReader.DEFAULT_BUFSIZE)%N →
            ∀ fuel, HttpMessage.parse fuel inbound = OutOfFuel)).
Proof.
  intros start_line fields Hsl Hf Hlen h inbound Hte.
  set (data := cut_header_block start_line fields) in *.
  assert (Hdata : data ≠ []).
  { unfold data, cut_header_block. by destruct start_line. }
  assert (Hnone : search data CRLFCRLF = None) by (by apply search_cut_lines).
  assert (Hne : CRLFCRLF ≠ []) by discriminate.
  destruct (read_until_whole_segment 0 CRLFCRLF data HttpReader.DEFAULT_BUFSIZE
              Hne Hdata Hlen Hnone) as (r1 & Hread & Hb & Hp & Hbuf).
  assert (HB : 0 < HttpReader.DEFAULT_BUFSIZE)
    by (unfold HttpReader.DEFAULT_BUFSIZE; lia).
  assert (Hhead : ∀ fuel, length fields + 3 ≤ fuel →
            HttpMessage.parse fuel inbound
            = if decide (is_Some (h !! lit "content-length")) then
                len ← stoul (default [] (h !! lit "content-length")) 10;
                '(body, _) ← HttpReader.read_fixed fuel len r1;
                Ret (HttpMessage.mk start_line h body)
              else Ret (HttpMessage.mk start_line h [])).
  { intros fuel Hfuel. unfold HttpMessage.parse, inbound.
    rewrite (read_until_mono CRLFCRLF _ 3 fuel ltac:(lia)) by (by rewrite Hread).
    rewrite Hread. cbn [mbind outcome_bind].
    destruct (parse_cut_block fuel start_line fields) as [Hstart Hheaders];
      [done|done|lia|].
    fold data in Hstart, Hheaders. rewrite Hstart. cbn [mbind outcome_bind].
    rewrite Hheaders. cbn [mbind outcome_bind]. fold h.
    by rewrite decide_False by (rewrite Hte; by intros [? ?]). }
  split.
  - intros Hcl fuel Hfuel.
    assert (Hparse : HttpMessage.parse fuel inbound
                     = Ret (HttpMessage.mk start_line h [])).
    { rewrite Hhead by done.
      by rewrite decide_False by (rewrite Hcl; by intros [? ?]). }
    split; [done|].
    unfold TCPServer.handle_connection. rewrite Hparse. cbn [HttpMessage.body].
    rewrite !send_all_reliable. by rewrite app_nil_r.
  - intros v n Hcl Hv Hn. exists r1.
    assert (Hspin : ∀ fuel, HttpReader.read_fixed_loop fuel n [] r1 = OutOfFuel).
    { intros fuel. apply read_fixed_loop_spins_short; [lia|lia|simpl; lia]. }
    split_and!.
    + intros fuel Hfuel. rewrite Hhead by done.
      rewrite decide_True by (by rewrite Hcl).
      rewrite Hcl. cbn [default]. unfold id. rewrite Hv. done.
    + done.
    + intros Hsmall fuel.
      assert (Hmax : (n ≤ HttpReader.vector_max_size)%N).
      { apply (N.le_trans _ _ _ Hsmall). apply N.leb_le. vm_compute. reflexivity. }
      unfold HttpMessage.parse, inbound.
      destruct (read_until_cases _ _ _ _ Hread fuel) as [E|E];
        fold data; rewrite E; [done|].
      cbn [mbind outcome_bind].
      destruct (parse_cut_block (S (length fields)) start_line fields)
        as [Hstart Hheaders]; [done|done|lia|].
      fold data in Hstart, Hheaders. rewrite Hstart. cbn [mbind outcome_bind].
      assert (Hret : (λ n, HttpMessage.parse_headers n data ∅) (S (length fields))
                     ≠ OutOfFuel) by (cbv beta; by rewrite Hheaders).
      destruct (fuel_monotone_cases _ (S (length fields))
                  (parse_headers_mono data ∅) Hret fuel) as [E'|E'];
        cbv beta in E'; rewrite E'; [done|].
      rewrite Hheaders. cbn [mbind outcome_bind]. fold h.
      rewrite decide_False by (rewrite Hte; by intros [? ?]).
      rewrite decide_True by (by rewrite Hcl).
      rewrite Hcl. cbn [default]. unfold id. rewrite Hv. cbn [mbind outcome_bind].
      unfold HttpReader.read_fixed. rewrite decide_False by lia.
      by rewrite Hspin.
Qed.

Lemma header_block_cut_by_end_of_stream_witness :
  HttpMessage.parse 4
    [Segment (cut_header_block (lit "GET / HTTP/1.1") [(lit "Host", lit " x")])]
  = Ret (HttpMessage.mk (lit "GET / HTTP/1.1")
           (stored_fields [(lit "Host", lit " x")]) []) ∧
  HttpMessage.parse 1000
    [Segment (cut_header_block (lit "POST / HTTP/1.1")
                [(lit "Content-Length", lit " 5")])]
  = OutOfFuel.
Proof.
  split.
  - destruct (header_block_cut_by_end_of_stream (lit "GET / HTTP/1.1")
                [(lit "Host", lit " x")]) as [H _].
    + refine (bool_decide_unpack _ _). vm_compute. exact I.
    + repeat constructor; refine (bool_decide_unpack _ _); vm_compute; exact I.
    + apply Nat.leb_le. vm_compute. reflexivity.
    + vm_compute. reflexivity.
    + apply H; [vm_compute; reflexivity|simpl; lia].
  - destruct (header_block_cut_by_end_of_stream (lit "POST / HTTP/1.1")
                [(lit "Content-Length", lit " 5")]) as [_ H].
    + refine (bool_decide_unpack _ _). vm_compute. exact I.
    + repeat constructor; refine (bool_decide_unpack _ _); vm_compute; exact I.
    + apply Nat.leb_le. vm_compute. reflexivity.
    + vm_compute. reflexivity.
    + destruct (H (lit "5") 5%N) as (r1 & _ & _ & H3);
        [vm_compute; reflexivity..|].
      apply H3. apply N.leb_le. vm_compute. reflexivity.
Defined.
